(** * IllinoisProof: the evidence-integrity core, embedded in Rocq

    A shallow embedding of [src/core.py], [src/prove.py] and the two
    detector primitives of [src/detect/benford.py] and
    [src/detect/entropy.py], with the properties the specification states
    about them (C1 to C10) and further properties of the code (X1 to
    X22).

    The file has three parts: the embedding of the code, the vocabulary
    the properties are stated in, and the properties with their proofs.

    Conventions of the embedding:
    - a Python [str] is a [string] (code points below 256), [bytes] is a
      [list byte];
    - a Python [dict] with string keys is a [gmap string _]: [json.dumps]
      is always called with [sort_keys=True], so insertion order is never
      observed; a dict that is passed around and written to lives in the
      heap of the [world] and is named by its location;
    - a Python exception is the [Raise] case of the result type [res];
      the exceptions of the callers of the core, which the core does not
      raise, are the [Throw] case of [outcome];
    - a float that is only stored and printed is kept as its text
      ([JFloat]); a float that is compared and divided is a binary64
      [float]; the floats of the Benford frequencies, which go through
      [math.log10], are reals with a rounding after every operation;
    - the standard-library functions the code calls ([hashlib.sha256],
      [json.dumps], the gzip container) are written out so that every
      definition evaluates; what is outside the repository and cannot be
      written out (the optional [blake3] package, zlib's DEFLATE encoder,
      the rounding of the floating-point unit) is a parameter of the
      functions that use it. *)

From stdpp Require Import gmap strings list fin_maps sorting pretty.
From Stdlib Require Import ZArith QArith Ascii Floats Reals Lra.
From Stdlib.Strings Require Import Byte.

Local Open Scope Z_scope.

(** ** Bytes and strings *)

Abbreviation bytes := (list byte).

Definition byte_to_Z (b : byte) : Z := Z.of_N (Byte.to_N b).

Definition byte_of_Z (z : Z) : byte :=
  default x00 (Byte.of_N (Z.to_N (z mod 256))).

Definition code_point (c : ascii) : Z := Z.of_N (N_of_ascii c).

Definition chr (z : Z) : ascii := ascii_of_N (Z.to_N z).

(** [str.encode('utf-8')] on code points below 256: one byte below 128,
    two bytes from 128 on. *)
Definition utf8_char (c : ascii) : bytes :=
  let n := code_point c in
  if n <? 128 then [byte_of_Z n]
  else [byte_of_Z (Z.lor 192 (Z.shiftr n 6));
        byte_of_Z (Z.lor 128 (Z.land n 63))].

Fixpoint encode_utf8 (s : string) : bytes :=
  match s with
  | EmptyString => []
  | String c s' => utf8_char c ++ encode_utf8 s'
  end.

(** A bytes literal such as [b"empty"]: every character is one byte. *)
Definition bytes_literal (s : string) : bytes :=
  byte_of_ascii <$> String.list_ascii_of_string s.

Definition hex_digit (n : Z) : ascii :=
  if n <? 10 then chr (48 + n) else chr (87 + n).

(** ** hashlib.sha256 (FIPS 180-4), on 32-bit words held in [Z] *)

Module Sha256.

Definition mask32 : Z := 4294967295.

Definition add32 (x y : Z) : Z := Z.land (x + y) mask32.

Definition rotr (n x : Z) : Z :=
  Z.lor (Z.shiftr x n) (Z.land (Z.shiftl x (32 - n)) mask32).

Definition not32 (x : Z) : Z := Z.lxor x mask32.

Definition choose (x y z : Z) : Z :=
  Z.lxor (Z.land x y) (Z.land (not32 x) z).

Definition majority (x y z : Z) : Z :=
  Z.lxor (Z.lxor (Z.land x y) (Z.land x z)) (Z.land y z).

Definition big_sigma0 (x : Z) : Z :=
  Z.lxor (Z.lxor (rotr 2 x) (rotr 13 x)) (rotr 22 x).

Definition big_sigma1 (x : Z) : Z :=
  Z.lxor (Z.lxor (rotr 6 x) (rotr 11 x)) (rotr 25 x).

Definition small_sigma0 (x : Z) : Z :=
  Z.lxor (Z.lxor (rotr 7 x) (rotr 18 x)) (Z.shiftr x 3).

Definition small_sigma1 (x : Z) : Z :=
  Z.lxor (Z.lxor (rotr 17 x) (rotr 19 x)) (Z.shiftr x 10).

(** The round constants: the first 32 bits of the fractional parts of
    the cube roots of the first 64 primes. *)
Definition round_constants : list Z :=
  [ 1116352408; 1899447441; 3049323471; 3921009573;
    961987163;  1508970993; 2453635748; 2870763221;
    3624381080; 310598401;  607225278;  1426881987;
    1925078388; 2162078206; 2614888103; 3248222580;
    3835390401; 4022224774; 264347078;  604807628;
    770255983;  1249150122; 1555081692; 1996064986;
    2554220882; 2821834349; 2952996808; 3210313671;
    3336571891; 3584528711; 113926993;  338241895;
    666307205;  773529912;  1294757372; 1396182291;
    1695183700; 1986661051; 2177026350; 2456956037;
    2730485921; 2820302411; 3259730800; 3345764771;
    3516065817; 3600352804; 4094571909; 275423344;
    430227734;  506948616;  659060556;  883997877;
    958139571;  1322822218; 1537002063; 1747873779;
    1955562222; 2024104815; 2227730452; 2361852424;
    2428436474; 2756734187; 3204031479; 3329325298 ].

(** The eight working words, [a] to [h]. *)
Record state := State {
  sa : Z; sb : Z; sc : Z; sd : Z; se : Z; sf : Z; sg : Z; sh : Z
}.

(** The first 32 bits of the fractional parts of the square roots of
    the first 8 primes. *)
Definition initial_state : state :=
  State 1779033703 3144134277 1013904242 2773480762
        1359893119 2600822924 528734635 1541459225.

(** Big-endian bytes of [x], [n] of them. *)
Fixpoint be_bytes (n : nat) (x : Z) : list Z :=
  match n with
  | O => []
  | S n' => Z.land (Z.shiftr x (8 * Z.of_nat n')) 255 :: be_bytes n' x
  end.

Definition be_word (b0 b1 b2 b3 : Z) : Z :=
  Z.lor (Z.lor (Z.shiftl b0 24) (Z.shiftl b1 16))
        (Z.lor (Z.shiftl b2 8) b3).

(** Padding: a [1] bit, zeros up to 56 modulo 64, the bit length on 8
    bytes. *)
Definition pad (msg : list Z) : list Z :=
  let l := Z.of_nat (length msg) in
  msg ++ [128] ++ replicate (Z.to_nat ((55 - l) mod 64)) 0
      ++ be_bytes 8 (8 * l).

Fixpoint words (n : nat) (bs : list Z) : list Z :=
  match n, bs with
  | S n', b0 :: b1 :: b2 :: b3 :: bs' =>
      be_word b0 b1 b2 b3 :: words n' bs'
  | _, _ => []
  end.

(** The message schedule, most recent word first: [rev_w] holds
    [W(t-1), W(t-2), ...]. *)
Fixpoint schedule (n : nat) (rev_w : list Z) : list Z :=
  match n with
  | O => rev_w
  | S n' =>
      let w2 := nth 1 rev_w 0 in
      let w7 := nth 6 rev_w 0 in
      let w15 := nth 14 rev_w 0 in
      let w16 := nth 15 rev_w 0 in
      schedule n'
        (add32 (add32 (small_sigma1 w2) w7)
               (add32 (small_sigma0 w15) w16) :: rev_w)
  end.

Definition round (s : state) (kw : Z * Z) : state :=
  let t1 := add32 (add32 (add32 (sh s) (big_sigma1 (se s)))
                         (choose (se s) (sf s) (sg s)))
                  (add32 kw.1 kw.2) in
  let t2 := add32 (big_sigma0 (sa s)) (majority (sa s) (sb s) (sc s)) in
  State (add32 t1 t2) (sa s) (sb s) (sc s)
        (add32 (sd s) t1) (se s) (sf s) (sg s).

Definition compress (s : state) (block : list Z) : state :=
  let w := rev (schedule 48 (rev (words 16 block))) in
  let s' := foldl round s (zip round_constants w) in
  State (add32 (sa s) (sa s')) (add32 (sb s) (sb s'))
        (add32 (sc s) (sc s')) (add32 (sd s) (sd s'))
        (add32 (se s) (se s')) (add32 (sf s) (sf s'))
        (add32 (sg s) (sg s')) (add32 (sh s) (sh s')).

Fixpoint blocks (n : nat) (s : state) (bs : list Z) : state :=
  match n with
  | O => s
  | S n' => blocks n' (compress s (take 64 bs)) (drop 64 bs)
  end.

Definition digest_words (data : bytes) : list Z :=
  let padded := pad (byte_to_Z <$> data) in
  let s := blocks (length padded / 64)%nat initial_state padded in
  [sa s; sb s; sc s; sd s; se s; sf s; sg s; sh s].

(** The eight lowercase hexadecimal digits of a 32-bit word. *)
Definition hex_word (w : Z) : list ascii :=
  (λ i, hex_digit (Z.land (Z.shiftr w (4 * i)) 15)) <$> [7; 6; 5; 4; 3; 2; 1; 0].

(** [hashlib.sha256(data).hexdigest()] *)
Definition hexdigest (data : bytes) : string :=
  String.string_of_list_ascii (digest_words data ≫= hex_word).

End Sha256.

(** ** Python values, exceptions and results *)

#[local] Set Warnings "-register-all".

(** The values [json.dumps] serialises. A [JFloat] holds the text Python
    prints for the float (its [repr]); dictionary keys are strings. *)
Inductive json :=
  | JNull
  | JBool (b : bool)
  | JInt (z : Z)
  | JFloat (repr : string)
  | JStr (s : string)
  | JList (l : list json)
  | JDict (m : gmap string json).

Abbreviation dict := (gmap string json).

(** The exceptions of the embedded code. [OutOfFuel] is not a Python
    exception: it marks a [while] loop of the model that was given too few
    iterations ([merkle_total] and [generate_merkle_proof_total] show that
    the fuel passed is always enough). *)
Inductive exn :=
  | StopRule (message metric action : string)
  | KeyError (key : string)
  | IndexError
  | ZeroDivisionError
  | OutOfFuel.

Inductive res (A : Type) :=
  | Ok (a : A)
  | Raise (e : exn).
Arguments Ok {A} a.
Arguments Raise {A} e.

#[global] Instance res_ret : MRet res := λ A a, Ok a.
#[global] Instance res_bind : MBind res := λ A B f r,
  match r with Ok a => f a | Raise e => Raise e end.
#[global] Instance res_fmap : FMap res := λ A B f r,
  match r with Ok a => Ok (f a) | Raise e => Raise e end.

(** [l[i]]: negative indices count from the end, anything outside the
    list raises [IndexError]. *)
Definition py_index {A} (l : list A) (i : Z) : res A :=
  let i' := if i <? 0 then i + Z.of_nat (length l) else i in
  if i' <? 0 then Raise IndexError
  else match l !! Z.to_nat i' with
       | Some x => Ok x
       | None => Raise IndexError
       end.

(** [range(0, stop, 2)] *)
Definition range_by_two (stop : nat) : list Z :=
  (λ k : nat, 2 * Z.of_nat k) <$> seq 0 ((stop + 1) / 2).

(** [sep.join(l)] *)
Fixpoint join (sep : string) (l : list string) : string :=
  match l with
  | [] => EmptyString
  | [x] => x
  | x :: l' => x +:+ sep +:+ join sep l'
  end.

(** [for x in l: s = body(s, x)] *)
Fixpoint for_each {A S : Type} (l : list A) (body : S → A → res S)
    (s : S) : res S :=
  match l with
  | [] => Ok s
  | x :: l' => s' ← body s x; for_each l' body s'
  end.

(** [while cond(s): s = body(s)], with at most [fuel] iterations. *)
Fixpoint while {S : Type} (fuel : nat) (cond : S → bool)
    (body : S → res S) (s : S) : res S :=
  if cond s then
    match fuel with
    | O => Raise OutOfFuel
    | Datatypes.S fuel' => s' ← body s; while fuel' cond body s'
    end
  else Ok s.

(** ** json.dumps(obj, sort_keys=True) *)

Module Json.

(** The escapes of [ensure_ascii=True]: the quote, the backslash and the
    five short escapes; everything else outside [' '..'~'] as [\uXXXX]. *)
Definition escape_char (c : ascii) : list ascii :=
  let n := code_point c in
  let bs := chr 92 in
  if n =? 34 then [bs; chr 34]
  else if n =? 92 then [bs; bs]
  else if n =? 10 then [bs; chr 110]
  else if n =? 13 then [bs; chr 114]
  else if n =? 9 then [bs; chr 116]
  else if n =? 12 then [bs; chr 102]
  else if n =? 8 then [bs; chr 98]
  else if (32 <=? n) && (n <=? 126) then [c]
  else [bs; chr 117; chr 48; chr 48;
        hex_digit (Z.shiftr n 4); hex_digit (Z.land n 15)].

Definition quote (s : string) : string :=
  String.string_of_list_ascii
    ([chr 34] ++ (String.list_ascii_of_string s ≫= escape_char) ++ [chr 34]).

(** Dictionary items are written in the order of their keys, compared
    code point by code point. *)
Definition key_le (x y : string * string) : Prop := String.leb x.1 y.1.

#[global] Instance key_le_dec x y : Decision (key_le x y) := _.

Definition item (kv : string * string) : string :=
  quote kv.1 +:+ ": " +:+ kv.2.

Fixpoint dumps (j : json) : string :=
  match j with
  | JNull => "null"
  | JBool b => if b then "true" else "false"
  | JInt z => pretty z
  | JFloat r => r
  | JStr s => quote s
  | JList l => "[" +:+ join ", " (dumps <$> l) +:+ "]"
  | JDict m =>
      "{" +:+ join ", " (item <$> merge_sort key_le (map_to_list (dumps <$> m)))
          +:+ "}"
  end.

End Json.


(** ** The world the code runs in *)

(** Dict objects live in a heap and are passed by reference; the clock is
    read by [datetime.now]; [print] appends to [stdout]; the ledger is the
    file [receipts.jsonl], which may refuse to be opened for appending. *)
Abbreviation loc := positive.

Record world := World {
  heap : gmap loc dict;
  clock : nat → string;
  ticks : nat;
  stdout : list string;
  ledger_writable : bool;
  ledger : list string
}.

(** The dict a reference points to. Every reference a Python program
    holds is in the heap; outside it the model reads the empty dict. *)
Definition deref (w : world) (l : loc) : dict := default ∅ (heap w !! l).

Definition store (l : loc) (d : dict) (w : world) : world :=
  World (<[l := d]> (heap w)) (clock w) (ticks w) (stdout w)
        (ledger_writable w) (ledger w).

(** A dict display [{...}] creates a new object. *)
Definition alloc (d : dict) (w : world) : loc * world :=
  let l := fresh (dom (heap w)) in (l, store l d w).

(** [datetime.now(timezone.utc).isoformat().replace("+00:00", "Z")] *)
Definition utc_now (w : world) : string * world :=
  (clock w (ticks w),
   World (heap w) (clock w) (S (ticks w)) (stdout w)
         (ledger_writable w) (ledger w)).

(** [print(line, flush=True)] *)
Definition print (line : string) (w : world) : world :=
  World (heap w) (clock w) (ticks w) (stdout w ++ [line])
        (ledger_writable w) (ledger w).

Definition newline : string := String (chr 10) EmptyString.

(** [with open(RECEIPTS_FILE, "a") as f: f.write(text)] under
    [try ... except IOError: pass]. *)
Definition append_ledger (text : string) (w : world) : world :=
  if ledger_writable w then
    World (heap w) (clock w) (ticks w) (stdout w)
          (ledger_writable w) (ledger w ++ [text])
  else w.

(** [{**base, **extra}]: the keys of [extra] win. *)
Definition dict_update (base extra : dict) : dict := extra ∪ base.

(** ** src/core.py *)

(** The argument of [dual_hash], [bytes | str]. *)
Inductive hash_input :=
  | PyStr (s : string)
  | PyBytes (b : bytes).

Section Core.

(** [blake3.blake3(data).hexdigest()] when the optional package [blake3]
    was imported, [None] when the import failed ([HAS_BLAKE3 = False]). *)
Variable blake3 : option (bytes → string).

Definition HAS_BLAKE3 : bool := bool_decide (is_Some blake3).

Definition TENANT_ID : string := "illinoisproof".

Definition dual_hash (data : hash_input) : string :=
  let data := match data with
              | PyStr s => encode_utf8 s
              | PyBytes b => b
              end in
  let sha := Sha256.hexdigest data in
  let b3 := match blake3 with
            | Some hexdigest => hexdigest data
            | None => sha
            end in
  sha +:+ ":" +:+ b3.

Definition emit_receipt (receipt_type : string) (data : loc)
    (to_file : bool) (w : world) : dict * world :=
  let w := match deref w data !! "tenant_id" with
           | None => store data (<["tenant_id" := JStr TENANT_ID]> (deref w data)) w
           | Some _ => w
           end in
  let d := deref w data in
  let '(ts, w) := utc_now w in
  let receipt :=
    dict_update
      (<["payload_hash" := JStr (dual_hash (PyStr (Json.dumps (JDict d))))]>
       (<["tenant_id" := default (JStr TENANT_ID) (d !! "tenant_id")]>
        (<["ts" := JStr ts]>
         (<["receipt_type" := JStr receipt_type]> ∅))))
      d in
  let receipt_json := Json.dumps (JDict receipt) in
  let w := print receipt_json w in
  let w := if to_file then append_ledger (receipt_json +:+ newline) w
           else w in
  (receipt, w).

(** One level of the tree: [hashes[i] + hashes[i + 1]] for every even
    [i]. *)
Definition combine_pairs (hashes : list string) : res (list string) :=
  mapM (λ i, l ← py_index hashes i;
             r ← py_index hashes (i + 1);
             mret (dual_hash (PyStr (l +:+ r))))
       (range_by_two (length hashes)).

Definition merkle_level (hashes : list string) : res (list string) :=
  hashes ← (if (length hashes mod 2 =? 0)%nat then mret hashes
            else x ← py_index hashes (-1); mret (hashes ++ [x]));
  combine_pairs hashes.

Definition merkle (items : list json) : res string :=
  match items with
  | [] => mret (dual_hash (PyBytes (bytes_literal "empty")))
  | _ =>
      let hashes := (λ i, dual_hash (PyStr (Json.dumps i))) <$> items in
      hashes ← while (length hashes) (λ hs, (1 <? length hs)%nat)
                     merkle_level hashes;
      py_index hashes 0
  end.

Definition verify_step (current_hash : string) (step : string * string) : string :=
  let '(sibling_hash, position) := step in
  if String.eqb position "left"
  then dual_hash (PyStr (sibling_hash +:+ current_hash))
  else dual_hash (PyStr (current_hash +:+ sibling_hash)).

Definition verify_merkle_proof (item : json) (proof : list (string * string))
    (root : string) : bool :=
  let current_hash := dual_hash (PyStr (Json.dumps item)) in
  String.eqb (foldl verify_step current_hash proof) root.

(** [stoprule_halt], [stoprule_escalate] and [stoprule_alert] take
    [baseline] and [delta] as they are given (the default of both is
    [0.0]) and put them into the payload. *)
Definition anomaly_payload (metric : string) (baseline delta : json)
    (classification action : string) : dict :=
  <["tenant_id" := JStr TENANT_ID]>
  (<["action" := JStr action]>
   (<["classification" := JStr classification]>
    (<["delta" := delta]>
     (<["baseline" := baseline]>
      (<["metric" := JStr metric]> ∅))))).

Definition stoprule_halt (metric message : string) (baseline delta : json)
    (w : world) : res unit * world :=
  let '(data, w) := alloc (anomaly_payload metric baseline delta "violation" "halt") w in
  let '(_, w) := emit_receipt "anomaly" data false w in
  (Raise (StopRule message metric "halt"), w).

Definition stoprule_escalate (metric message : string) (baseline delta : json)
    (w : world) : res unit * world :=
  let '(data, w) := alloc (anomaly_payload metric baseline delta "degradation" "escalate") w in
  let '(_, w) := emit_receipt "anomaly" data false w in
  (Raise (StopRule message metric "escalate"), w).

Definition stoprule_alert (metric message : string) (baseline delta : json)
    (w : world) : res dict * world :=
  let '(data, w) := alloc (anomaly_payload metric baseline delta "drift" "alert") w in
  let '(receipt, w) := emit_receipt "anomaly" data false w in
  (Ok receipt, w).

(** ** src/prove.py *)

Record validation_error := ValidationError {
  error_index : nat;
  error_text : string;
  error_receipt_type : json
}.

(** The dict [validate_receipt_chain] returns; [merkle_root] is [None]
    where the dict has no such key (the empty chain). *)
Record validation := Validation {
  valid : bool;
  receipt_count : nat;
  errors : list validation_error;
  merkle_root : option string
}.

Definition required : list string :=
  ["receipt_type"; "ts"; "tenant_id"; "payload_hash"].

Definition check_field (i : nat) (receipt : dict)
    (errors : list validation_error) (field : string) : list validation_error :=
  match receipt !! field with
  | None =>
      errors ++ [ValidationError i ("missing_field:" +:+ field)
                   (default (JStr "unknown") (receipt !! "receipt_type"))]
  | Some _ => errors
  end.

(** The body of the loop over [enumerate(receipts)]. [expected_hash] is
    computed and never read. *)
Definition check_receipt (errors : list validation_error)
    (ir : nat * dict) : list validation_error :=
  let '(i, receipt) := ir in
  let errors := foldl (check_field i receipt) errors required in
  let payload : dict :=
    filter (λ kv, kv.1 ∉ ["receipt_type"; "ts"; "payload_hash"]) receipt in
  let expected_hash := dual_hash (PyStr (Json.dumps (JDict payload))) in
  errors.

Definition validate_receipt_chain (receipts : list dict) : res validation :=
  match receipts with
  | [] => mret (Validation true 0 [] None)
  | _ =>
      let errors := foldl check_receipt [] (zip (seq 0 (length receipts)) receipts) in
      root ← merkle (JDict <$> receipts);
      mret (Validation (bool_decide (length errors = 0%nat))
                       (length receipts) errors (Some root))
  end.

(** The body of the padding loop: [hashes.append(hashes[-1])]. *)
Definition pad_step (hashes : list string) : res (list string) :=
  x ← py_index hashes (-1); mret (hashes ++ [x]).

(** [len(hashes) & (len(hashes) - 1)] is non-zero. *)
Definition not_power_of_two (hashes : list string) : bool :=
  let n := Z.of_nat (length hashes) in
  negb (Z.land n (n - 1) =? 0).

(** The body of [for i in range(0, len(hashes), 2)]; the state is
    [(proof, next_level)]. *)
Definition proof_pair (hashes : list string) (index : Z)
    (st : list (string * string) * list string) (i : Z)
    : res (list (string * string) * list string) :=
  let '(proof, next_level) := st in
  left ← py_index hashes i;
  right ← (if i + 1 <? Z.of_nat (length hashes)
           then py_index hashes (i + 1) else py_index hashes i);
  let proof :=
    if i / 2 =? index / 2 then
      if index mod 2 =? 0 then proof ++ [(right, "right")]
      else proof ++ [(left, "left")]
    else proof in
  mret (proof, next_level ++ [dual_hash (PyStr (left +:+ right))]).

(** The body of [while len(hashes) > 1]; the state is
    [(hashes, proof, index)]. *)
Definition proof_level (st : list string * list (string * string) * Z)
    : res (list string * list (string * string) * Z) :=
  let '(hashes, proof, index) := st in
  '(proof, next_level) ←
     for_each (range_by_two (length hashes)) (proof_pair hashes index) (proof, []);
  mret (next_level, proof, index / 2).

Definition generate_merkle_proof (receipts : list json) (target_index : Z)
    : res (list (string * string)) :=
  if bool_decide (receipts = []) || (Z.of_nat (length receipts) <=? target_index)
  then mret []
  else
    let hashes := (λ r, dual_hash (PyStr (Json.dumps r))) <$> receipts in
    hashes ← while (length hashes) not_power_of_two pad_step hashes;
    '(_, proof, _) ←
       while (length hashes) (λ st, (1 <? length st.1.1)%nat) proof_level
             (hashes, [], target_index);
    mret proof.

Definition verify_receipt_inclusion (receipt : json)
    (proof : list (string * string)) (root : string) : bool :=
  verify_merkle_proof receipt proof root.

End Core.

(** ** The gzip container (RFC 1952) around a DEFLATE stream *)

Module Gzip.

(** CRC-32, bit by bit: the reflected polynomial is [0xEDB88320]. *)
Definition crc32_bit (c : Z) : Z :=
  if Z.testbit c 0 then Z.lxor (Z.shiftr c 1) 3988292384 else Z.shiftr c 1.

Definition crc32_byte (c : Z) (b : byte) : Z :=
  Nat.iter 8 crc32_bit (Z.lxor c (byte_to_Z b)).

Definition crc32 (data : bytes) : Z :=
  Z.lxor (foldl crc32_byte 4294967295 data) 4294967295.

(** [struct.pack("<L", x)] *)
Definition le32 (x : Z) : bytes :=
  (λ i, byte_of_Z (Z.shiftr x (8 * i))) <$> [0; 1; 2; 3].

Section Compress.

(** zlib's raw DEFLATE encoder at level 9, and the time stamp the header
    takes from the system clock: both are outside the repository. *)
Variable deflate : bytes → bytes.
Variable mtime : Z.

(** [gzip.compress(data, compresslevel=9)]: the ten header bytes (magic
    number, method 8, no flags, time stamp, extra flags 2 for the best
    compression, unknown operating system), the DEFLATE stream, and the
    trailer of CRC-32 and length modulo [2^32]. *)
Definition compress (data : bytes) : bytes :=
  [x1f; x8b; x08; x00] ++ le32 mtime ++ [x02; xff]
  ++ deflate data
  ++ le32 (crc32 data) ++ le32 (Z.of_nat (length data)).

End Compress.

End Gzip.

(** ** src/core.py: compression metrics *)

Section Compression.

Variable deflate : bytes → bytes.
Variable mtime : Z.

(** The quotient of two lengths is a rational number; the Python float is
    that number rounded, and rounding keeps its order with [0] and [1]. *)
Definition compute_compression_ratio (data : bytes) : Q :=
  match data with
  | [] => 1%Q
  | _ =>
      let compressed := Gzip.compress deflate mtime data in
      (inject_Z (Z.of_nat (length compressed))
       / inject_Z (Z.of_nat (length data)))%Q
  end.

End Compression.

(** ** src/detect/entropy.py *)

(** [d[key]] on a dict of floats. *)
Definition py_getitem (d : gmap string float) (key : string) : res float :=
  match d !! key with
  | Some v => Ok v
  | None => Raise (KeyError key)
  end.

(** [a / b] on floats: Python raises where IEEE 754 would return an
    infinity or a NaN. *)
Definition py_truediv (a b : float) : res float :=
  if (b =? 0)%float then Raise ZeroDivisionError else Ok (a / b)%float.

Definition compute_z_score (ratio : float) (baseline : gmap string float)
    : res float :=
  std ← py_getitem baseline "std";
  if (std =? 0)%float then mret 0%float
  else
    mean ← py_getitem baseline "mean";
    std ← py_getitem baseline "std";
    py_truediv (ratio - mean)%float std.

(** ** src/detect/benford.py *)

(** Floating-point arithmetic is taken as real arithmetic followed by a
    rounding: [fdiv], [fadd] and [flog10] stand for [/], [+] and
    [math.log10] on floats. What is known of them (a bound on the relative
    error of each) is stated where it is used. *)
Section Benford.

Variables fdiv fadd : R → R → R.
Variable flog10 : R → R.

(** [sum(xs)], accumulated from the left. *)
Definition fsum (xs : list R) : R := foldl fadd 0%R xs.

(** The dict of [benford_expected], in the order it is filled. *)
Definition benford_expected (digit_position : Z) : list (Z * R) :=
  if digit_position =? 1 then
    (λ d, (d, flog10 (fadd 1 (fdiv 1 (IZR d)))))
      <$> [1; 2; 3; 4; 5; 6; 7; 8; 9]
  else
    (λ d, (d, fsum ((λ k, flog10 (fadd 1 (fdiv 1 (IZR (10 * k + d)))))
                      <$> [1; 2; 3; 4; 5; 6; 7; 8; 9])))
      <$> [0; 1; 2; 3; 4; 5; 6; 7; 8; 9].

End Benford.

(** ** src/core.py: the normalised compression distance *)

(** [a / b] on ints: the exact quotient, of which the Python float is the
    rounding. *)
Definition py_int_truediv (a b : Z) : res Q :=
  if b =? 0 then Raise ZeroDivisionError
  else Ok (inject_Z a / inject_Z b)%Q.

Section Distance.

(** Each of the three calls of [gzip.compress] reads the clock for the
    time stamp of its header; the lengths do not depend on it, and one
    value stands for the three. *)
Variable deflate : bytes → bytes.
Variable mtime : Z.

Definition compute_ncd (data1 data2 : bytes) : res Q :=
  if bool_decide (data1 = []) || bool_decide (data2 = []) then mret 1%Q
  else
    let c1 := Z.of_nat (length (Gzip.compress deflate mtime data1)) in
    let c2 := Z.of_nat (length (Gzip.compress deflate mtime data2)) in
    let c12 := Z.of_nat (length (Gzip.compress deflate mtime (data1 ++ data2))) in
    py_int_truediv (c12 - Z.min c1 c2) (Z.max c1 c2).

End Distance.

(** ** src/detect/entropy.py: baselines and the anomaly check *)

#[local] Set Warnings "-inexact-float".

(** A baseline dict [{"mean": ..., "std": ..., "sample_size": ...}]. The
    dicts of baselines hold floats: the sample size, an [int], is the
    float of the same value. *)
Definition baseline_dict (mean std sample_size : float) : gmap string float :=
  {[ "mean" := mean; "std" := std; "sample_size" := sample_size ]}.

(** The table [defaults] of [entropy_baseline]. *)
Definition defaults : gmap string (gmap string float) :=
  {[ "municipality" := baseline_dict 0.45 0.08 100;
     "state_agency" := baseline_dict 0.42 0.06 200;
     "pac" := baseline_dict 0.55 0.10 150;
     "contractor" := baseline_dict 0.50 0.09 80;
     "default" := baseline_dict 0.48 0.10 50 ]}.

(** [f"{entity_type}:{period}"] *)
Definition cache_key (entity_type period : string) : string :=
  entity_type +:+ ":" +:+ period.

(** The module-level [_baseline_cache] is threaded through the calls:
    [entropy_baseline] returns the baseline and the cache as it leaves
    it. *)
Definition entropy_baseline (entity_type period : string)
    (_baseline_cache : gmap string (gmap string float))
    : gmap string float * gmap string (gmap string float) :=
  match _baseline_cache !! cache_key entity_type period with
  | Some baseline => (baseline, _baseline_cache)
  | None =>
      let baseline := default (defaults !!! "default") (defaults !! entity_type) in
      (baseline, <[cache_key entity_type period := baseline]> _baseline_cache)
  end.

Definition set_baseline (entity_type period : string)
    (mean std sample_size : float)
    (_baseline_cache : gmap string (gmap string float))
    : gmap string (gmap string float) :=
  <[cache_key entity_type period := baseline_dict mean std sample_size]>
    _baseline_cache.

(** The dict [entropy_anomaly_check] returns. *)
Record anomaly := Anomaly {
  z_score : float;
  is_anomaly : bool;
  severity : string;
  baseline_mean : float;
  baseline_std : float
}.

Definition entropy_anomaly_check (current : float)
    (baseline : gmap string float) : res anomaly :=
  z_score ← compute_z_score current baseline;
  let '(is_anomaly, severity) :=
    if (3 <? abs z_score)%float then (true, "critical")
    else if (2 <? abs z_score)%float then (true, "high")
    else if (1.5 <? abs z_score)%float then (true, "medium")
    else (false, "normal") in
  baseline_mean ← py_getitem baseline "mean";
  baseline_std ← py_getitem baseline "std";
  mret (Anomaly z_score is_anomaly severity baseline_mean baseline_std).

(** ** Exceptions of the callers *)

(** The exceptions the callers of the core can raise beyond the core's
    own: [ValueError] from a sealed chain and from [int] of a NaN,
    [OverflowError] from [int] of an infinity, [TypeError] and
    [AttributeError] where a receipt is not a dict. *)
Inductive py_exn :=
  | Core (e : exn)
  | ValueError (message : string)
  | OverflowError
  | TypeError
  | AttributeError.

Inductive outcome (A : Type) :=
  | Return (a : A)
  | Throw (e : py_exn).
Arguments Return {A} a.
Arguments Throw {A} e.

Definition lift {A} (r : res A) : outcome A :=
  match r with
  | Ok a => Return a
  | Raise e => Throw (Core e)
  end.

(** ** src/detect/benford.py: digits and observed frequencies *)

(** [int(v)] on a float: the integer part, towards zero. *)
Definition py_int (v : float) : outcome Z :=
  match Prim2SF v with
  | S754_zero _ => Return 0
  | S754_infinity _ => Throw OverflowError
  | S754_nan => Throw (ValueError "cannot convert float NaN to integer")
  | S754_finite s m e =>
      let magnitude :=
        if 0 <=? e then Z.shiftl (Z.pos m) e else Z.shiftr (Z.pos m) (- e) in
      Return (if s then - magnitude else magnitude)
  end.

(** The body of the loop of [extract_first_digit] for a value that is
    not zero; each of its two loops is given [fuel] iterations. *)
Definition first_digit (fuel : nat) (v : float) : outcome Z :=
  let v := abs v in
  match while fuel (λ v, (10 <=? v)%float) (λ v, Ok (v / 10)%float) v with
  | Raise e => Throw (Core e)
  | Ok v =>
      match while fuel (λ v, (v <? 1)%float) (λ v, Ok (v * 10)%float) v with
      | Raise e => Throw (Core e)
      | Ok v => py_int v
      end
  end.

Fixpoint extract_first_digit (fuel : nat) (values : list float)
    : outcome (list Z) :=
  match values with
  | [] => Return []
  | v :: values =>
      if (v =? 0)%float then extract_first_digit fuel values
      else
        match first_digit fuel v with
        | Throw e => Throw e
        | Return digit =>
            match extract_first_digit fuel values with
            | Throw e => Throw e
            | Return digits => Return (digit :: digits)
            end
        end
  end.

Definition second_digit (fuel : nat) (v : float) : outcome Z :=
  let v := abs v in
  match while fuel (λ v, (100 <=? v)%float) (λ v, Ok (v / 10)%float) v with
  | Raise e => Throw (Core e)
  | Ok v =>
      match while fuel (λ v, (v <? 10)%float) (λ v, Ok (v * 10)%float) v with
      | Raise e => Throw (Core e)
      | Ok v =>
          match py_int v with
          | Throw e => Throw e
          | Return n => Return (n `mod` 10)
          end
      end
  end.

Fixpoint extract_second_digit (fuel : nat) (values : list float)
    : outcome (list Z) :=
  match values with
  | [] => Return []
  | v :: values =>
      if (v =? 0)%float then extract_second_digit fuel values
      else
        match second_digit fuel v with
        | Throw e => Throw e
        | Return digit =>
            match extract_second_digit fuel values with
            | Throw e => Throw e
            | Return digits => Return (digit :: digits)
            end
        end
  end.



(** [if digit in counts: counts[digit] += 1], on the dict [counts] in the
    order of its keys. *)
Definition count_digit (counts : list (Z * Z)) (digit : Z) : list (Z * Z) :=
  (λ '(d, count), if d =? digit then (d, count + 1) else (d, count)) <$> counts.

(** The frequencies are the exact quotients [count / total]; the Python
    floats are their roundings. *)
Definition compute_observed_frequencies (digits : list Z) (digit_position : Z)
    : list (Z * Q) :=
  match digits with
  | [] =>
      if digit_position =? 1
      then (λ d, (d, 0%Q)) <$> [1; 2; 3; 4; 5; 6; 7; 8; 9]
      else (λ d, (d, 0%Q)) <$> [0; 1; 2; 3; 4; 5; 6; 7; 8; 9]
  | _ =>
      let digit_range :=
        if digit_position =? 1 then [1; 2; 3; 4; 5; 6; 7; 8; 9]
        else [0; 1; 2; 3; 4; 5; 6; 7; 8; 9] in
      let counts := (λ d, (d, 0)) <$> digit_range in
      let counts := foldl count_digit counts digits in
      let total := Z.of_nat (length digits) in
      (λ '(d, count), (d, (inject_Z count / inject_Z total)%Q)) <$> counts
  end.

(** ** src/prove.py: chains, anchors, bundles and findings *)

Module ReceiptChain.

(** The dataclass: its fields, and [ReceiptChain(chain_id)] with the
    defaults of the others. *)
Record t := Make {
  chain_id : string;
  receipts : list json;
  merkle_root : string;
  anchor_hash : string;
  is_sealed : bool
}.

Definition new (chain_id : string) : t :=
  Make chain_id [] EmptyString EmptyString false.

Section Methods.

Variable blake3 : option (bytes → string).

(** A method returns its outcome and the object as it leaves it. The
    receipt is appended before [merkle] is called. *)
Definition add_receipt (self : t) (receipt : json) : outcome unit * t :=
  if is_sealed self then (Throw (ValueError "Cannot add to sealed chain"), self)
  else
    let self := Make (chain_id self) (receipts self ++ [receipt])
                     (merkle_root self) (anchor_hash self) (is_sealed self) in
    match merkle blake3 (receipts self) with
    | Raise e => (Throw (Core e), self)
    | Ok root =>
        (Return (),
         Make (chain_id self) (receipts self) root (anchor_hash self)
              (is_sealed self))
    end.

Definition seal (self : t) : outcome unit * t :=
  match merkle blake3 (receipts self) with
  | Raise e => (Throw (Core e), self)
  | Ok root =>
      let self := Make (chain_id self) (receipts self) root (anchor_hash self)
                       (is_sealed self) in
      let self := Make (chain_id self) (receipts self) (merkle_root self)
                       (dual_hash blake3 (PyBytes (encode_utf8 (merkle_root self))))
                       (is_sealed self) in
      (Return (),
       Make (chain_id self) (receipts self) (merkle_root self)
            (anchor_hash self) true)
  end.

End Methods.

End ReceiptChain.

Section Prove.

Variable blake3 : option (bytes → string).

Definition create_anchor (receipts : list json) (anchor_type : string)
    (w : world) : res dict * world :=
  match merkle blake3 receipts with
  | Raise e => (Raise e, w)
  | Ok root =>
      let anchor_hash := dual_hash blake3 (PyBytes (encode_utf8 root)) in
      let '(timestamp, w) := utc_now w in
      let anchor : dict :=
        <["timestamp" := JStr timestamp]>
        (<["anchor_hash" := JStr anchor_hash]>
         (<["receipt_count" := JInt (Z.of_nat (length receipts))]>
          (<["merkle_root" := JStr root]>
           (<["anchor_type" := JStr anchor_type]> ∅)))) in
      let '(data, w) :=
        alloc (<["anchor_hash" := JStr anchor_hash]>
               (<["batch_size" := JInt (Z.of_nat (length receipts))]>
                (<["hash_algos" := JList [JStr "SHA256"; JStr "BLAKE3"]]>
                 (<["merkle_root" := JStr root]>
                  (<["tenant_id" := JStr TENANT_ID]> ∅))))) w in
      let '(_, w) := emit_receipt blake3 "anchor" data false w in
      (Ok anchor, w)
  end.

(** What [validate_receipt_chain] does with a receipt that is not a dict:
    [field not in receipt] raises [TypeError] on [None], a bool or a
    number; on a string or a list it is evaluated, and the first of
    [receipt.get] and [receipt.items] raises [AttributeError]. *)
Definition as_dict (receipt : json) : outcome dict :=
  match receipt with
  | JDict m => Return m
  | JStr _ | JList _ => Throw AttributeError
  | JNull | JBool _ | JInt _ | JFloat _ => Throw TypeError
  end.

Fixpoint as_dicts (receipts : list json) : outcome (list dict) :=
  match receipts with
  | [] => Return []
  | receipt :: rest =>
      match as_dict receipt with
      | Throw e => Throw e
      | Return m =>
          match as_dicts rest with
          | Throw e => Throw e
          | Return ms => Return (m :: ms)
          end
      end
  end.

(** An entry of [validation["errors"]] and a proof as JSON values. *)
Definition error_json (e : validation_error) : json :=
  JDict {[ "index" := JInt (Z.of_nat (error_index e));
           "error" := JStr (error_text e);
           "receipt_type" := error_receipt_type e ]}.

Definition proof_json (proof : list (string * string)) : json :=
  JList ((λ step, JList [JStr step.1; JStr step.2]) <$> proof).

(** The body of the loop over [enumerate(receipts)] that fills [proofs]. *)
Definition prove_receipt (receipts : list json) (proofs : list json)
    (ir : nat * dict) : res (list json) :=
  let '(i, receipt) := ir in
  proof ← generate_merkle_proof blake3 receipts (Z.of_nat i);
  mret (proofs ++ [JDict {[ "receipt_index" := JInt (Z.of_nat i);
                            "receipt_type" := default JNull (receipt !! "receipt_type");
                            "proof" := proof_json proof ]}]).

Definition build_proof_chain (findings : list dict) (w : world)
    : outcome dict * world :=
  let receipts := omap (λ finding : dict, finding !! "receipt") findings in
  match receipts with
  | [] => (Return {[ "chain_valid" := JBool false; "error" := JStr "no_receipts" ]}, w)
  | _ =>
      match as_dicts receipts with
      | Throw e => (Throw e, w)
      | Return dicts =>
      match validate_receipt_chain blake3 dicts with
      | Raise e => (Throw (Core e), w)
      | Ok validation =>
      match for_each (zip (seq 0 (length dicts)) dicts) (prove_receipt receipts) [] with
      | Raise e => (Throw (Core e), w)
      | Ok proofs =>
      match create_anchor receipts "merkle" w with
      | (Raise e, w) => (Throw (Core e), w)
      | (Ok anchor, w) =>
      match merkle_root validation with
      | None => (Throw (Core (KeyError "merkle_root")), w)
      | Some root =>
          (Return (<["validation_errors" := JList (error_json <$> errors validation)]>
                   (<["proofs" := JList proofs]>
                    (<["anchor" := JDict anchor]>
                     (<["merkle_root" := JStr root]>
                      (<["receipt_count" := JInt (Z.of_nat (length receipts))]>
                       (<["chain_valid" := JBool (valid validation)]> ∅)))))),
           w)
      end end end end end
  end.

Definition verification_instructions : dict :=
  {[ "1" := JStr "Compute Merkle root from receipts";
     "2" := JStr "Verify root matches anchor.merkle_root";
     "3" := JStr "For each finding, verify Merkle proof";
     "4" := JStr "Verify anchor_hash = dual_hash(merkle_root)" ]}.

Definition export_proof_bundle (findings : list dict) (bundle_id : string)
    (w : world) : outcome dict * world :=
  match build_proof_chain findings w with
  | (Throw e, w) => (Throw e, w)
  | (Return chain, w) =>
      let '(created_at, w) := utc_now w in
      let bundle_hash :=
        dual_hash blake3 (PyBytes (encode_utf8 (Json.dumps (JDict chain)))) in
      let bundle : dict :=
        <["bundle_hash" := JStr bundle_hash]>
        (<["verification_instructions" := JDict verification_instructions]>
         (<["findings_count" := JInt (Z.of_nat (length findings))]>
          (<["chain" := JDict chain]>
           (<["created_at" := JStr created_at]>
            (<["format_version" := JStr "1.0"]>
             (<["bundle_id" := JStr bundle_id]> ∅)))))) in
      match chain !! "chain_valid" with
      | None => (Throw (Core (KeyError "chain_valid")), w)
      | Some chain_valid =>
          let '(data, w) :=
            alloc (<["bundle_hash" := JStr bundle_hash]>
                   (<["merkle_root" := default JNull (chain !! "merkle_root")]>
                    (<["chain_valid" := chain_valid]>
                     (<["findings_count" := JInt (Z.of_nat (length findings))]>
                      (<["bundle_id" := JStr bundle_id]>
                       (<["tenant_id" := JStr TENANT_ID]> ∅)))))) w in
          let '(_, w) := emit_receipt blake3 "proof_bundle" data false w in
          (Return bundle, w)
      end
  end.

Definition prove_finding (finding : dict) (all_receipts : list json)
    : res dict :=
  match finding !! "receipt" with
  | None => mret {[ "provable" := JBool false; "error" := JStr "no_receipt" ]}
  | Some receipt =>
      let receipt_str := Json.dumps receipt in
      match list_find (λ r, Json.dumps r = receipt_str) all_receipts with
      | None =>
          mret {[ "provable" := JBool false;
                  "error" := JStr "receipt_not_in_chain" ]}
      | Some (index, _) =>
          proof ← generate_merkle_proof blake3 all_receipts (Z.of_nat index);
          root ← merkle blake3 all_receipts;
          let is_valid := verify_receipt_inclusion blake3 receipt proof root in
          mret (<["verified" := JBool is_valid]>
                (<["proof" := proof_json proof]>
                 (<["merkle_root" := JStr root]>
                  (<["receipt_index" := JInt (Z.of_nat index)]>
                   (<["finding_type" := default JNull (finding !! "finding_type")]>
                    (<["provable" := JBool true]> ∅))))))
      end
  end.

End Prove.

(** * Vocabulary of the properties *)

(** ** Shapes of hash strings *)

Definition is_hex_digit (c : ascii) : bool :=
  let n := code_point c in
  ((48 <=? n) && (n <=? 57)) || ((97 <=? n) && (n <=? 102)).

(** A hexadecimal digest of 256 bits: 64 lowercase digits. *)
Definition is_hexdigest (cs : list ascii) : bool :=
  (length cs =? 64)%nat && forallb is_hex_digit cs.

(** The form ["<hex>:<hex>"] of a dual hash, and nothing else: no prefix,
    suffix or marker. *)
Definition plain_dual_form (s : string) : bool :=
  let cs := String.list_ascii_of_string s in
  is_hexdigest (take 64 cs)
  && bool_decide (cs !! 64%nat = Some ":"%char)
  && is_hexdigest (drop 65 cs).

(** ** Receipts *)

(** The payload as [emit_receipt] leaves it: with the default tenant when
    it had none. *)
Definition with_tenant (d : dict) : dict :=
  match d !! "tenant_id" with
  | None => <["tenant_id" := JStr TENANT_ID]> d
  | Some _ => d
  end.

Section ReservedEntries.

Variable blake3 : option (bytes → string).

(** The four reserved entries of a receipt, as the dict display of
    [emit_receipt] computes them from the payload [d] it hashes. *)
Definition reserved_entries (receipt_type ts : string) (d : dict) : dict :=
  <["payload_hash" := JStr (dual_hash blake3 (PyStr (Json.dumps (JDict d))))]>
  (<["tenant_id" := default (JStr TENANT_ID) (d !! "tenant_id")]>
   (<["ts" := JStr ts]>
    (<["receipt_type" := JStr receipt_type]> ∅))).

End ReservedEntries.

(** ** Stop rules *)

(** What one call of a stop rule leaves behind: exactly one more line on
    the output stream, the serialisation of an ["anomaly"] receipt with
    the given classification and action; the ledger file is not touched. *)
Definition emitted_anomaly (w w' : world) (receipt : dict)
    (metric classification action : string) : Prop :=
  stdout w' = stdout w ++ [Json.dumps (JDict receipt)]
  ∧ ledger w' = ledger w
  ∧ receipt !! "receipt_type" = Some (JStr "anomaly")
  ∧ receipt !! "metric" = Some (JStr metric)
  ∧ receipt !! "classification" = Some (JStr classification)
  ∧ receipt !! "action" = Some (JStr action).

(** ** Chain validation *)

(** The required fields a receipt lacks, in the order they are checked. *)
Definition missing_fields (receipt : dict) : list string :=
  filter (λ field, receipt !! field = None) required.

Definition missing_field_error (i : nat) (receipt : dict) (field : string)
    : validation_error :=
  ValidationError i ("missing_field:" +:+ field)
    (default (JStr "unknown") (receipt !! "receipt_type")).

(** One entry per missing field of every receipt, receipt by receipt,
    for receipts numbered from [i]. *)
Fixpoint expected_errors (i : nat) (receipts : list dict)
    : list validation_error :=
  match receipts with
  | [] => []
  | receipt :: rest =>
      (missing_field_error i receipt <$> missing_fields receipt)
      ++ expected_errors (S i) rest
  end.

Definition has_required_fields (receipt : dict) : Prop :=
  ∀ field, field ∈ required → is_Some (receipt !! field).

(** ** Merkle trees of [2^k] leaves *)

Section Tree.

Variable blake3 : option (bytes → string).

(** The next level of a tree, pair by pair. *)
Fixpoint level (hashes : list string) : list string :=
  match hashes with
  | a :: b :: rest => dual_hash blake3 (PyStr (a +:+ b)) :: level rest
  | _ => []
  end.

(** The entry the loop over the pairs of one level appends to the proof:
    the sibling of [index], from the pair that starts at [i]. *)
Fixpoint sibling_from (i : Z) (hashes : list string) (index : Z)
    : list (string * string) :=
  match hashes with
  | a :: b :: rest =>
      (if i / 2 =? index / 2 then
         if index mod 2 =? 0 then [(b, "right")] else [(a, "left")]
       else [])
      ++ sibling_from (i + 2) rest index
  | _ => []
  end.

(** The whole proof, level by level, and what is left of the tree after
    [k] levels. *)
Fixpoint path (k : nat) (hashes : list string) (index : Z)
    : list (string * string) :=
  match k with
  | O => []
  | S k' => sibling_from 0 hashes index ++ path k' (level hashes) (index / 2)
  end.

Fixpoint top (k : nat) (hashes : list string) : list string :=
  match k with
  | O => hashes
  | S k' => top k' (level hashes)
  end.

End Tree.

(** ** Real numbers *)

Section RealVocabulary.

Local Open Scope R_scope.

(** The exact decimal logarithm. *)
Definition log10 (x : R) : R := ln x / ln 10.

(** The sum of a list of reals, exactly. *)
Definition Rsum (xs : list R) : R := foldr Rplus 0 xs.

Definition first_digit_law : list R :=
  (λ d, log10 (1 + 1 / IZR d)) <$> [1; 2; 3; 4; 5; 6; 7; 8; 9]%Z.

End RealVocabulary.

(** ** Sample inputs *)

(** A world to run examples in: nothing printed yet, a clock that starts
    on New Year's Day, a writable ledger. *)
Definition sample_clock (n : nat) : string :=
  "2025-01-01T00:00:0" +:+ pretty (Z.of_nat n `mod` 10) +:+ ".000000Z".

Definition sample_world (h : gmap loc dict) : world :=
  World h sample_clock 0 [] true [].

Definition spoofed_payload : dict := {[ "receipt_type" := JStr "spoofed" ]}.

(** A receipt with the four fields whose [payload_hash] is not the hash
    of anything: the chain it forms is valid. *)
Definition forged_receipt : dict :=
  {[ "receipt_type" := JStr "ingest"; "ts" := JStr "2025-01-01T00:00:00Z";
     "tenant_id" := JStr "illinoisproof"; "payload_hash" := JStr "forged";
     "amount" := JInt 1000000 ]}.

(** Six receipts, [{"n": 0}] to [{"n": 5}]. *)
Definition six_receipts : list json :=
  (λ i : nat, JDict {[ "n" := JInt (Z.of_nat i) ]}) <$> seq 0 6.

(** The baseline of the specification's edge case: mean [0.5], standard
    deviation [0]. *)
Definition flat_baseline : gmap string float :=
  {[ "mean" := 0.5%float; "std" := 0%float; "sample_size" := 100%float ]}.

(** A baseline with a standard deviation: [0.75] is one deviation above
    its mean. *)
Definition sharp_baseline : gmap string float :=
  {[ "mean" := 0.5%float; "std" := 0.25%float; "sample_size" := 100%float ]}.

(** ** Shapes of Merkle proofs *)

(** The positions of a proof of [k] levels for the leaf at [index]: level
    by level, the sibling is on the left exactly where the bit of [index]
    is set. *)
Definition positions (k : nat) (index : Z) : list string :=
  (λ j : nat, if Z.testbit index (Z.of_nat j) then "left" else "right")
    <$> seq 0 k.

(** ** Digit counts *)

(** The keys of the dicts of digit frequencies. *)
Definition digit_range (digit_position : Z) : list Z :=
  if digit_position =? 1 then [1; 2; 3; 4; 5; 6; 7; 8; 9]
  else [0; 1; 2; 3; 4; 5; 6; 7; 8; 9].

(** How often [d] is in [digits], and how many of [digits] are keys. *)
Definition occurrences (d : Z) (digits : list Z) : Z :=
  Z.of_nat (length (filter (λ digit, digit = d) digits)).

Definition in_range (digit_position : Z) (digits : list Z) : Z :=
  Z.of_nat (length (filter (λ digit, digit ∈ digit_range digit_position) digits)).

(** The sum of a list of rationals. *)
Definition Qsum (xs : list Q) : Q := foldr Qplus 0%Q xs.

(** ** Calls on a receipt chain *)

(** A client of a [ReceiptChain] calls its methods one after the other
    and goes on after an exception. *)
Inductive call :=
  | AddReceipt (receipt : json)
  | Seal.

Section Calls.

Variable blake3 : option (bytes → string).

Definition run_call (self : ReceiptChain.t) (c : call) : ReceiptChain.t :=
  match c with
  | AddReceipt receipt => (ReceiptChain.add_receipt blake3 self receipt).2
  | Seal => (ReceiptChain.seal blake3 self).2
  end.

Definition run (calls : list call) (self : ReceiptChain.t) : ReceiptChain.t :=
  foldl run_call self calls.

End Calls.

(** ** Emissions *)

(** What the emission of one receipt of a given type leaves behind: one
    more line on the output stream, the serialisation of the receipt; the
    ledger file is not touched. *)
Definition emitted (w w' : world) (receipt : dict) (receipt_type : string)
    : Prop :=
  stdout w' = stdout w ++ [Json.dumps (JDict receipt)]
  ∧ ledger w' = ledger w
  ∧ receipt !! "receipt_type" = Some (JStr receipt_type)
  ∧ receipt !! "tenant_id" = Some (JStr TENANT_ID).

(** ** More sample inputs *)

(** A finding that carries the receipt [{"n": 2}] and no type. *)
Definition sample_finding : dict :=
  {[ "receipt" := JDict {[ "n" := JInt 2 ]} ]}.

(** ** The second-digit law *)

Section SecondDigitLaw.

Local Open Scope R_scope.

(** The exact frequency of [d] as a second digit: the sum over the
    first digits [k] of the frequency of the two leading digits [k d]. *)
Definition second_digit_law : list R :=
  (λ d, Rsum ((λ k, log10 (1 + 1 / IZR (10 * k + d)))
                <$> [1; 2; 3; 4; 5; 6; 7; 8; 9]%Z))
    <$> [0; 1; 2; 3; 4; 5; 6; 7; 8; 9]%Z.

End SecondDigitLaw.

(** * Properties *)

(** ** SHA-256 and dual hashes *)

Example sha256_empty :
  Sha256.hexdigest [] =
  "e3b0c44298fc1c149afbf4c8996fb92427ae41e4649b934ca495991b7852b855"%string.
Proof. vm_compute. reflexivity. Qed.

Example sha256_abc :
  Sha256.hexdigest (bytes_literal "abc") =
  "ba7816bf8f01cfea414140de5dae2223b00361a396177a9cb410ff61f20015ad"%string.
Proof. vm_compute. reflexivity. Qed.

Example sha256_four_blocks :
  Sha256.hexdigest (replicate 200 "a"%byte) =
  "c2a908d98f5df987ade41b5fce213067efbcc21ef2240212a41e54b5e7c28ae5"%string.
Proof. vm_compute. reflexivity. Qed.

Lemma hex_digit_is_hex (n : Z) : 0 <= n < 16 → is_hex_digit (hex_digit n) = true.
Proof.
  intros Hn.
  assert (n = 0 ∨ n = 1 ∨ n = 2 ∨ n = 3 ∨ n = 4 ∨ n = 5 ∨ n = 6 ∨ n = 7
          ∨ n = 8 ∨ n = 9 ∨ n = 10 ∨ n = 11 ∨ n = 12 ∨ n = 13 ∨ n = 14
          ∨ n = 15) as Hcases by lia.
  repeat (destruct Hcases as [-> | Hcases]; [reflexivity |]).
  subst n. reflexivity.
Qed.

Lemma nibble_bounds (w i : Z) : 0 <= Z.land (Z.shiftr w i) 15 < 16.
Proof.
  change 15 with (Z.ones 4). rewrite Z.land_ones by lia.
  apply Z.mod_pos_bound. lia.
Qed.

Lemma hex_word_is_hex (w : Z) :
  length (Sha256.hex_word w) = 8%nat
  ∧ forallb is_hex_digit (Sha256.hex_word w) = true.
Proof.
  split; [reflexivity |].
  unfold Sha256.hex_word. cbn [fmap list_fmap forallb].
  rewrite !hex_digit_is_hex by apply nibble_bounds. reflexivity.
Qed.

Lemma hexdigest_is_hexdigest (data : bytes) :
  is_hexdigest (String.list_ascii_of_string (Sha256.hexdigest data)) = true.
Proof.
  unfold Sha256.hexdigest, Sha256.digest_words.
  rewrite String.list_ascii_of_string_of_list_ascii.
  set (s := Sha256.blocks _ _ _).
  unfold is_hexdigest. cbn [mbind list_bind].
  rewrite !forallb_app, !length_app.
  rewrite !(proj1 (hex_word_is_hex _)), !(proj2 (hex_word_is_hex _)).
  reflexivity.
Qed.

Lemma chars_app (a b : string) :
  String.list_ascii_of_string (a +:+ b)
  = String.list_ascii_of_string a ++ String.list_ascii_of_string b.
Proof. induction a as [| c a IH]; [done |]. simpl. by f_equal. Qed.

Section DualHash.

Variable blake3 : option (bytes → string).

Lemma dual_hash_chars (data : hash_input) :
  ∃ sha b3 : list ascii,
    String.list_ascii_of_string (dual_hash blake3 data) = sha ++ ":"%char :: b3
    ∧ is_hexdigest sha = true
    ∧ (blake3 = None → b3 = sha).
Proof.
  unfold dual_hash.
  set (raw := match data with PyStr s => encode_utf8 s | PyBytes b => b end).
  exists (String.list_ascii_of_string (Sha256.hexdigest raw)).
  eexists. split; [| split; [apply hexdigest_is_hexdigest |]].
  - rewrite !chars_app. reflexivity.
  - by intros ->.
Qed.

End DualHash.

Lemma plain_dual_form_chars (s : string) (sha b3 : list ascii) :
  String.list_ascii_of_string s = sha ++ ":"%char :: b3 →
  is_hexdigest sha = true → is_hexdigest b3 = true →
  plain_dual_form s = true.
Proof.
  intros Hs Hsha Hb3. unfold plain_dual_form. rewrite Hs.
  assert (length sha = 64%nat) as Hlen.
  { unfold is_hexdigest in Hsha. apply andb_prop in Hsha as [Hl _].
    by apply Nat.eqb_eq in Hl. }
  rewrite take_app_length' by done.
  replace 65%nat with (length sha + 1)%nat by lia.
  rewrite drop_app_add'; [| done].
  rewrite list_lookup_middle by done.
  rewrite Hsha. change (drop 1 (":"%char :: b3)) with b3.
  rewrite Hb3. by rewrite bool_decide_eq_true_2.
Qed.

(** ** The degraded dual hash *)

(** C3, as the specification states it, fails: without [blake3] the
    dual hash of ["test"] has the plain form ["<hex>:<hex>"]. *)
Lemma degraded_hash_unmarked :
  ¬ (HAS_BLAKE3 None = false →
     plain_dual_form (dual_hash None (PyStr "test")) = false).
Proof. intros H. specialize (H eq_refl). vm_compute in H. discriminate H. Qed.

(** C3, amended. Without [blake3] the dual hash is the SHA-256 digest
    twice, joined by a colon, and this is the plain form of a dual hash:
    nothing in the output marks it as degraded. *)
Theorem degraded_hash_is_sha_twice (data : hash_input) :
  let raw := match data with PyStr s => encode_utf8 s | PyBytes b => b end in
  dual_hash None data = Sha256.hexdigest raw +:+ ":" +:+ Sha256.hexdigest raw
  ∧ plain_dual_form (dual_hash None data) = true.
Proof.
  split; [reflexivity |].
  destruct (dual_hash_chars None data) as (sha & b3 & Hs & Hsha & Hb3).
  rewrite (Hb3 eq_refl) in Hs.
  by apply (plain_dual_form_chars _ sha sha).
Qed.

(** ** Receipts *)

Section Receipts.

Variable blake3 : option (bytes → string).

Lemma deref_lookup (w : world) (l : loc) (d : dict) :
  heap w !! l = Some d → deref w l = d.
Proof. unfold deref. by intros ->. Qed.

Lemma emit_receipt_receipt rt data to_file w d :
  heap w !! data = Some d →
  (emit_receipt blake3 rt data to_file w).1
  = dict_update (reserved_entries blake3 rt (clock w (ticks w)) (with_tenant d))
                (with_tenant d).
Proof.
  intros Hd. unfold emit_receipt, with_tenant.
  rewrite (deref_lookup w data d Hd).
  destruct (d !! "tenant_id") as [t |] eqn:Ht; cbn.
  - by rewrite (deref_lookup w data d Hd).
  - unfold deref, store; cbn. by rewrite lookup_insert_eq.
Qed.

Lemma emit_receipt_heap rt data to_file w d :
  heap w !! data = Some d →
  heap (emit_receipt blake3 rt data to_file w).2
  = <[data := with_tenant d]> (heap w).
Proof.
  intros Hd. unfold emit_receipt, with_tenant.
  rewrite (deref_lookup w data d Hd).
  destruct (d !! "tenant_id") as [t |] eqn:Ht; cbn.
  - destruct to_file; unfold append_ledger; cbn;
      [destruct (ledger_writable w) |]; cbn; by rewrite insert_id.
  - destruct to_file; unfold append_ledger; cbn;
      [destruct (ledger_writable w) |]; done.
Qed.

Lemma emit_receipt_stdout rt data to_file w :
  stdout (emit_receipt blake3 rt data to_file w).2
  = stdout w ++ [Json.dumps (JDict (emit_receipt blake3 rt data to_file w).1)].
Proof.
  unfold emit_receipt.
  destruct (deref w data !! "tenant_id"); cbn;
    destruct to_file; unfold append_ledger; cbn;
    try destruct (ledger_writable w); done.
Qed.

Lemma emit_receipt_ledger rt data w :
  ledger (emit_receipt blake3 rt data false w).2 = ledger w.
Proof.
  unfold emit_receipt. by destruct (deref w data !! "tenant_id").
Qed.

Lemma receipt_lookup_payload rt ts (d : dict) k v :
  d !! k = Some v → dict_update (reserved_entries blake3 rt ts d) d !! k = Some v.
Proof. intros Hk. unfold dict_update. by apply lookup_union_Some_l. Qed.

Lemma receipt_lookup_reserved rt ts (d : dict) k :
  d !! k = None →
  dict_update (reserved_entries blake3 rt ts d) d !! k = reserved_entries blake3 rt ts d !! k.
Proof. intros Hk. unfold dict_update. by apply lookup_union_r. Qed.

Lemma with_tenant_lookup_ne (d : dict) k :
  k ≠ "tenant_id" → with_tenant d !! k = d !! k.
Proof.
  intros Hk. unfold with_tenant.
  destruct (d !! "tenant_id"); [done |]. by rewrite lookup_insert_ne.
Qed.

Lemma with_tenant_lookup_tenant (d : dict) :
  with_tenant d !! "tenant_id"
  = Some (default (JStr TENANT_ID) (d !! "tenant_id")).
Proof.
  unfold with_tenant. destruct (d !! "tenant_id") eqn:Ht; [done |].
  by rewrite lookup_insert_eq.
Qed.

Lemma with_tenant_lookup_Some (d : dict) k v :
  d !! k = Some v → with_tenant d !! k = Some v.
Proof.
  intros Hk. destruct (decide (k = "tenant_id")) as [-> | Hne].
  - by rewrite with_tenant_lookup_tenant, Hk.
  - by rewrite with_tenant_lookup_ne.
Qed.

Lemma emit_receipt_payload_hash rt data to_file w (d : dict) :
  heap w !! data = Some d → d !! "payload_hash" = None →
  (emit_receipt blake3 rt data to_file w).1 !! "payload_hash"
  = Some (JStr (dual_hash blake3 (PyStr (Json.dumps (JDict (with_tenant d)))))).
Proof.
  intros Hd Hk. rewrite (emit_receipt_receipt rt data to_file w d Hd).
  rewrite receipt_lookup_reserved by (by rewrite with_tenant_lookup_ne).
  unfold reserved_entries. by simplify_map_eq.
Qed.

(** C2, amended. At every key of the payload, reserved or not, the
    receipt holds the payload's value: [**data] comes last in the dict
    display, so the payload overwrites the reserved entries. A reserved
    entry is in the receipt only where the payload has no such key. *)
Theorem emit_receipt_payload_wins rt data to_file w (d : dict) :
  heap w !! data = Some d →
  let receipt := (emit_receipt blake3 rt data to_file w).1 in
  (∀ k v, d !! k = Some v → receipt !! k = Some v)
  ∧ (d !! "receipt_type" = None → receipt !! "receipt_type" = Some (JStr rt))
  ∧ (d !! "ts" = None → receipt !! "ts" = Some (JStr (clock w (ticks w))))
  ∧ (d !! "tenant_id" = None → receipt !! "tenant_id" = Some (JStr TENANT_ID))
  ∧ (d !! "payload_hash" = None →
     receipt !! "payload_hash"
     = Some (JStr (dual_hash blake3
                     (PyStr (Json.dumps (JDict (with_tenant d))))))).
Proof.
  intros Hd receipt. subst receipt.
  rewrite (emit_receipt_receipt rt data to_file w d Hd).
  split; [| split; [| split; [| split]]].
  - intros k v Hk. by apply receipt_lookup_payload, with_tenant_lookup_Some.
  - intros Hk. rewrite receipt_lookup_reserved
      by (by rewrite with_tenant_lookup_ne).
    unfold reserved_entries. by simplify_map_eq.
  - intros Hk. rewrite receipt_lookup_reserved
      by (by rewrite with_tenant_lookup_ne).
    unfold reserved_entries. by simplify_map_eq.
  - intros Hk. apply receipt_lookup_payload.
    by rewrite with_tenant_lookup_tenant, Hk.
  - intros Hk. rewrite <- (emit_receipt_receipt rt data to_file w d Hd).
    by apply emit_receipt_payload_hash.
Qed.

(** C9. [emit_receipt] writes into the dict it is given: afterwards the
    caller's dict has a ["tenant_id"] entry, the default one when it had
    none, and is otherwise what it was; the hash is taken over the dict
    after the insertion; no other object changes. *)
Theorem emit_receipt_mutates_payload rt data to_file w (d : dict) :
  heap w !! data = Some d →
  let receipt := (emit_receipt blake3 rt data to_file w).1 in
  let w' := (emit_receipt blake3 rt data to_file w).2 in
  ∃ d' : dict,
    heap w' !! data = Some d'
    ∧ is_Some (d' !! "tenant_id")
    ∧ (d !! "tenant_id" = None → d' !! "tenant_id" = Some (JStr TENANT_ID))
    ∧ (is_Some (d !! "tenant_id") → d' = d)
    ∧ (∀ k, k ≠ "tenant_id" → d' !! k = d !! k)
    ∧ (d !! "payload_hash" = None →
       receipt !! "payload_hash"
       = Some (JStr (dual_hash blake3 (PyStr (Json.dumps (JDict d'))))))
    ∧ (∀ l, l ≠ data → heap w' !! l = heap w !! l).
Proof.
  intros Hd receipt w'. subst receipt w'.
  exists (with_tenant d).
  rewrite (emit_receipt_heap rt data to_file w d Hd).
  split; [by rewrite lookup_insert_eq |].
  split; [by rewrite with_tenant_lookup_tenant |].
  split; [intros Ht; by rewrite with_tenant_lookup_tenant, Ht |].
  split; [intros [t Ht]; unfold with_tenant; by rewrite Ht |].
  split; [apply with_tenant_lookup_ne |].
  split; [by apply emit_receipt_payload_hash |].
  intros l Hl. by rewrite lookup_insert_ne.
Qed.

End Receipts.

(** C2, as the specification states it, fails: a payload with a
    ["receipt_type"] key overwrites the receipt type passed to
    [emit_receipt]. *)
Lemma reserved_value_overwritten :
  ¬ ((emit_receipt None "test" 1%positive false
        (sample_world {[ 1%positive := spoofed_payload ]})).1 !! "receipt_type"
     = Some (JStr "test")).
Proof. vm_compute. discriminate. Qed.

(** The amended C2 on the spoofed payload: its receipt type is in the
    receipt, and the time stamp, which it does not have, is the clock's. *)
Lemma emit_receipt_payload_wins_witness :
  (emit_receipt None "test" 1%positive false
     (sample_world {[ 1%positive := spoofed_payload ]})).1 !! "receipt_type"
  = Some (JStr "spoofed")
  ∧ (emit_receipt None "test" 1%positive false
       (sample_world {[ 1%positive := spoofed_payload ]})).1 !! "ts"
    = Some (JStr "2025-01-01T00:00:00.000000Z").
Proof.
  assert (heap (sample_world {[ 1%positive := spoofed_payload ]}) !! 1%positive
          = Some spoofed_payload) as Hd by apply lookup_singleton_eq.
  pose proof (emit_receipt_payload_wins None "test" 1%positive false
                (sample_world {[ 1%positive := spoofed_payload ]})
                spoofed_payload Hd) as (Hpayload & _ & Hts & _).
  split.
  - apply Hpayload. reflexivity.
  - apply Hts. reflexivity.
Defined.

(** C9 on the spoofed payload, which has no tenant: after the call the
    caller's dict has the default tenant and its own receipt type. *)
Lemma emit_receipt_mutates_payload_witness :
  ∃ d' : dict,
    heap (emit_receipt None "test" 1%positive false
            (sample_world {[ 1%positive := spoofed_payload ]})).2 !! 1%positive
    = Some d'
    ∧ d' !! "tenant_id" = Some (JStr "illinoisproof")
    ∧ d' !! "receipt_type" = Some (JStr "spoofed").
Proof.
  assert (heap (sample_world {[ 1%positive := spoofed_payload ]}) !! 1%positive
          = Some spoofed_payload) as Hd by apply lookup_singleton_eq.
  destruct (emit_receipt_mutates_payload None "test" 1%positive false
              (sample_world {[ 1%positive := spoofed_payload ]})
              spoofed_payload Hd)
    as (d' & Hheap & _ & Hdefault & _ & Hframe & _).
  exists d'. split; [exact Hheap |]. split.
  - apply Hdefault. reflexivity.
  - rewrite Hframe by discriminate. reflexivity.
Defined.

(** ** Stop rules *)

Section StopRules.

Variable blake3 : option (bytes → string).

Lemma alloc_lookup (d : dict) (w : world) :
  heap (alloc d w).2 !! (alloc d w).1 = Some d.
Proof. unfold alloc, store; cbn. by rewrite lookup_insert_eq. Qed.

Lemma alloc_outputs (d : dict) (w : world) :
  stdout (alloc d w).2 = stdout w ∧ ledger (alloc d w).2 = ledger w.
Proof. done. Qed.

Lemma with_tenant_anomaly metric baseline delta classification action :
  with_tenant (anomaly_payload metric baseline delta classification action)
  = anomaly_payload metric baseline delta classification action.
Proof.
  unfold with_tenant, anomaly_payload. by rewrite lookup_insert_eq.
Qed.

(** The receipt a stop rule emits, and the world after the emission. *)
Lemma anomaly_emission metric baseline delta classification action w :
  let payload := anomaly_payload metric baseline delta classification action in
  let emitted := emit_receipt blake3 "anomaly" (alloc payload w).1 false
                   (alloc payload w).2 in
  emitted_anomaly w emitted.2 emitted.1 metric classification action.
Proof.
  intros payload emitted. subst emitted.
  pose proof (alloc_lookup payload w) as Hd.
  destruct (alloc_outputs payload w) as [Hout Hled].
  unfold emitted_anomaly.
  rewrite emit_receipt_stdout, emit_receipt_ledger, Hout, Hled.
  rewrite (emit_receipt_receipt blake3 _ _ _ _ payload Hd).
  subst payload. rewrite with_tenant_anomaly.
  split; [done |]. split; [done |]. split.
  - rewrite receipt_lookup_reserved by done.
    unfold reserved_entries. by simplify_map_eq.
  - split; [| split]; by apply receipt_lookup_payload.
Qed.

(** A stop rule allocates its payload, emits, and takes its effect: name
    the location, the receipt and the two worlds, and conclude from [H],
    the fact about the emission. *)
Ltac emitted_then_effect H :=
  cbv zeta in H;
  match goal with
  | |- context [alloc ?payload ?w] =>
      let data := fresh "data" in
      let w1 := fresh "w1" in
      destruct (alloc payload w) as [data w1]; cbn [fst snd] in H;
      let receipt := fresh "receipt" in
      let w2 := fresh "w2" in
      destruct (emit_receipt _ _ data false w1) as [receipt w2];
      by exists receipt, w2
  end.

(** C6. Each stop rule emits exactly one ["anomaly"] receipt and only
    then takes its control-flow effect: [stoprule_halt] and
    [stoprule_escalate] raise [StopRule] in a world that already holds
    the receipt (classification ["violation"] and action ["halt"], or
    ["degradation"] and ["escalate"]); [stoprule_alert] emits
    ["drift"]/["alert"] and returns the receipt. *)
Theorem stoprules_emit_before_effect metric message baseline delta w :
  (∃ receipt w',
      stoprule_halt blake3 metric message baseline delta w
      = (Raise (StopRule message metric "halt"), w')
      ∧ emitted_anomaly w w' receipt metric "violation" "halt")
  ∧ (∃ receipt w',
      stoprule_escalate blake3 metric message baseline delta w
      = (Raise (StopRule message metric "escalate"), w')
      ∧ emitted_anomaly w w' receipt metric "degradation" "escalate")
  ∧ (∃ receipt w',
      stoprule_alert blake3 metric message baseline delta w
      = (Ok receipt, w')
      ∧ emitted_anomaly w w' receipt metric "drift" "alert").
Proof.
  split; [| split].
  - pose proof (anomaly_emission metric baseline delta "violation" "halt" w) as H.
    unfold stoprule_halt. emitted_then_effect H.
  - pose proof (anomaly_emission metric baseline delta "degradation" "escalate" w) as H.
    unfold stoprule_escalate. emitted_then_effect H.
  - pose proof (anomaly_emission metric baseline delta "drift" "alert" w) as H.
    unfold stoprule_alert. emitted_then_effect H.
Qed.

End StopRules.

(** ** Results of list operations *)

Lemma py_index_in_range {A} (l : list A) (i : Z) :
  0 <= i < Z.of_nat (length l) →
  ∃ x, py_index l i = Ok x ∧ l !! Z.to_nat i = Some x.
Proof.
  intros Hi. unfold py_index.
  assert ((i <? 0) = false) as Hneg by (apply Z.ltb_ge; lia).
  rewrite Hneg. cbv zeta. rewrite Hneg.
  destruct (l !! Z.to_nat i) as [x |] eqn:Hx; [by exists x |].
  apply lookup_ge_None in Hx. lia.
Qed.

Lemma mapM_res_ok {A B} (f : A → res B) (l : list A) :
  Forall (λ x, ∃ y, f x = Ok y) l →
  ∃ k, mapM f l = Ok k ∧ length k = length l.
Proof.
  induction 1 as [| x l [y Hy] _ (k & Hk & Hlen)]; [by exists [] |].
  exists (y :: k). cbn. rewrite Hy; cbn. fold (mapM f l). rewrite Hk; cbn.
  split; [done | by rewrite Hlen].
Qed.

Lemma range_by_two_length (n : nat) :
  length (range_by_two n) = ((n + 1) / 2)%nat.
Proof. unfold range_by_two. by rewrite length_fmap, length_seq. Qed.

Lemma range_by_two_elem (n : nat) (i : Z) :
  i ∈ range_by_two n → ∃ k : nat, i = 2 * Z.of_nat k ∧ (2 * k < n)%nat.
Proof.
  unfold range_by_two. intros (k & -> & Hk)%list_elem_of_fmap.
  apply elem_of_seq in Hk. exists k. split; [done |].
  pose proof (Nat.div_mod_eq (n + 1) 2).
  pose proof (Nat.mod_upper_bound (n + 1) 2). lia.
Qed.

Lemma py_index_from_end {A} (l : list A) (i : Z) :
  - Z.of_nat (length l) <= i < 0 → ∃ x, py_index l i = Ok x.
Proof.
  intros Hi. unfold py_index.
  assert ((i <? 0) = true) as -> by (apply Z.ltb_lt; lia). cbv zeta.
  assert ((i + Z.of_nat (length l) <? 0) = false) as ->
    by (apply Z.ltb_ge; lia).
  destruct (l !! Z.to_nat (i + Z.of_nat (length l))) as [x |] eqn:Hx;
    [by exists x |].
  apply lookup_ge_None in Hx. lia.
Qed.

Lemma bind_Ok {A B} (a : A) (f : A → res B) : (Ok a ≫= f) = f a.
Proof. reflexivity. Qed.

Lemma ret_Ok {A} (a : A) : mret (M := res) a = Ok a.
Proof. reflexivity. Qed.

Lemma while_unfold {S : Type} fuel (cond : S → bool) (body : S → res S) s :
  cond s = true →
  while (Datatypes.S fuel) cond body s = (s' ← body s; while fuel cond body s').
Proof. intros H. cbn. by rewrite H. Qed.

Lemma while_exit {S : Type} fuel (cond : S → bool) (body : S → res S) s :
  cond s = false → while fuel cond body s = Ok s.
Proof. intros H. destruct fuel; cbn; by rewrite H. Qed.

(** ** The Merkle root is always computed *)

Section MerkleTotal.

Variable blake3 : option (bytes → string).

Lemma combine_pairs_ok (hashes : list string) :
  (length hashes mod 2 = 0)%nat →
  ∃ l, combine_pairs blake3 hashes = Ok l
       ∧ length l = (length hashes / 2)%nat.
Proof.
  intros Heven. unfold combine_pairs.
  match goal with
  | |- context [mapM ?f ?l] =>
      destruct (mapM_res_ok f l) as (l' & Hl & Hlen); last first
  end.
  - exists l'. split; [exact Hl |].
    rewrite Hlen, range_by_two_length.
    pose proof (Nat.div_mod_eq (length hashes) 2).
    pose proof (Nat.div_mod_eq (length hashes + 1) 2).
    pose proof (Nat.mod_upper_bound (length hashes + 1) 2). lia.
  - apply Forall_forall. intros i (k & -> & Hk)%range_by_two_elem.
    pose proof (Nat.div_mod_eq (length hashes) 2).
    destruct (py_index_in_range hashes (2 * Z.of_nat k)) as (x & -> & _);
      [lia |].
    destruct (py_index_in_range hashes (2 * Z.of_nat k + 1)) as (y & -> & _);
      [lia |].
    by eexists.
Qed.

Lemma merkle_level_ok (hashes : list string) :
  (0 < length hashes)%nat →
  ∃ l, merkle_level blake3 hashes = Ok l
       ∧ length l = ((length hashes + 1) / 2)%nat.
Proof.
  intros Hpos. unfold merkle_level.
  pose proof (Nat.div_mod_eq (length hashes) 2) as Hdm.
  pose proof (Nat.mod_upper_bound (length hashes) 2) as Hmod.
  destruct (Nat.eqb_spec (length hashes mod 2) 0) as [Heven | Hodd].
  - rewrite ret_Ok, bind_Ok.
    destruct (combine_pairs_ok hashes Heven) as (l & Hl & Hlen).
    exists l. split; [done |]. rewrite Hlen.
    pose proof (Nat.div_mod_eq (length hashes + 1) 2).
    pose proof (Nat.mod_upper_bound (length hashes + 1) 2). lia.
  - destruct (py_index_from_end hashes (-1)) as [x ->]; [lia |].
    rewrite ?bind_Ok, ?ret_Ok, ?bind_Ok.
    destruct (combine_pairs_ok (hashes ++ [x])) as (l & Hl & Hlen).
    + rewrite length_app; cbn [length].
      pose proof (Nat.div_mod_eq (length hashes + 1) 2).
      pose proof (Nat.mod_upper_bound (length hashes + 1) 2). lia.
    + exists l. split; [done |].
      by rewrite Hlen, length_app.
Qed.

Lemma merkle_loop_ok (fuel : nat) (hashes : list string) :
  (0 < length hashes ≤ fuel)%nat →
  ∃ h, while fuel (λ hs, (1 <? length hs)%nat) (merkle_level blake3) hashes
       = Ok [h].
Proof.
  revert hashes. induction fuel as [| fuel IH]; intros hashes Hlen; [lia |].
  destruct (Nat.ltb_spec 1 (length hashes)) as [Hmany | Hone].
  - rewrite while_unfold by (by apply Nat.ltb_lt).
    destruct (merkle_level_ok hashes) as (l & -> & Hl); [lia |].
    rewrite bind_Ok. apply IH. rewrite Hl.
    pose proof (Nat.div_mod_eq (length hashes + 1) 2).
    pose proof (Nat.mod_upper_bound (length hashes + 1) 2). lia.
  - rewrite while_exit by (by apply Nat.ltb_ge).
    destruct hashes as [| h [| ? ?]]; cbn in *; [lia | by exists h | lia].
Qed.

(** [merkle] returns a root for every list: its loop ends within the
    iterations the model allows it, and no index is out of range. *)
Lemma merkle_total (items : list json) : ∃ root, merkle blake3 items = Ok root.
Proof.
  destruct items as [| x items]; [by eexists |].
  unfold merkle.
  set (hashes := (λ i, dual_hash blake3 (PyStr (Json.dumps i))) <$> x :: items).
  destruct (merkle_loop_ok (length hashes) hashes) as [h ->];
    [subst hashes; rewrite length_fmap; cbn; lia |].
  by exists h.
Qed.

End MerkleTotal.

Section MerkleRoot.

Variable blake3 : option (bytes → string).

(** C10. The Merkle root of a one-element list is the leaf hash of its
    element, the dual hash of the element's sorted-key JSON text: the
    loop body (padding and pairing) is never entered. *)
Theorem merkle_singleton (x : json) :
  merkle blake3 [x] = Ok (dual_hash blake3 (PyStr (Json.dumps x))).
Proof.
  unfold merkle. cbn [fmap list_fmap length].
  rewrite while_exit by reflexivity. reflexivity.
Qed.

End MerkleRoot.

(** ** Chain validation *)

Section Validation.

Variable blake3 : option (bytes → string).

Lemma check_fields_spec i (receipt : dict) (fields : list string) acc :
  foldl (check_field i receipt) acc fields
  = acc ++ (missing_field_error i receipt
              <$> filter (λ field, receipt !! field = None) fields).
Proof.
  revert acc. induction fields as [| f fields IH]; intros acc.
  - by rewrite app_nil_r.
  - cbn [foldl]. rewrite IH, filter_cons. unfold check_field.
    destruct (receipt !! f) eqn:Hf.
    + by rewrite decide_False.
    + rewrite decide_True by done. by rewrite <- app_assoc.
Qed.

Lemma check_receipts_spec i (receipts : list dict) acc :
  foldl (check_receipt blake3) acc (zip (seq i (length receipts)) receipts)
  = acc ++ expected_errors i receipts.
Proof.
  revert i acc. induction receipts as [| r receipts IH]; intros i acc.
  - by rewrite app_nil_r.
  - cbn [length seq zip zip_with foldl expected_errors].
    rewrite IH. unfold check_receipt.
    rewrite check_fields_spec. by rewrite <- app_assoc.
Qed.

Lemma missing_fields_nil (receipt : dict) :
  missing_fields receipt = [] ↔ has_required_fields receipt.
Proof.
  unfold missing_fields, has_required_fields. split.
  - intros Hnil f Hf.
    destruct (receipt !! f) eqn:Hlook; [by eexists |].
    by destruct (filter_nil_not_elem_of _ _ f Hnil Hlook).
  - intros Hall. induction required as [| f fields IH]; [done |].
    rewrite filter_cons. destruct (Hall f) as [v Hv]; [by left |].
    rewrite decide_False by (by rewrite Hv).
    apply IH. intros g Hg. apply Hall. by right.
Qed.

Lemma expected_errors_nil i (receipts : list dict) :
  expected_errors i receipts = [] ↔ Forall has_required_fields receipts.
Proof.
  revert i. induction receipts as [| r receipts IH]; intros i; [done |].
  cbn [expected_errors]. rewrite app_nil, Forall_cons, <- IH.
  rewrite <- missing_fields_nil. split.
  - intros [Hr ?]. split; [by apply fmap_nil_inv in Hr | done].
  - intros [-> ?]. done.
Qed.

(** C5. [validate_receipt_chain] returns a result for every list of
    receipts. Its error list has one entry per required field a receipt
    lacks, for every receipt of the list (no receipt is skipped after an
    error); [valid] holds exactly when that list is empty, which is
    exactly when every receipt has the four fields. The values of the
    fields play no part: [payload_hash] is never compared with anything. *)
Theorem validate_receipt_chain_structural (receipts : list dict) :
  ∃ v, validate_receipt_chain blake3 receipts = Ok v
       ∧ receipt_count v = length receipts
       ∧ errors v = expected_errors 0 receipts
       ∧ (valid v = true ↔ errors v = [])
       ∧ (valid v = true ↔ Forall has_required_fields receipts).
Proof.
  destruct receipts as [| r receipts].
  { eexists. split; [reflexivity |]. repeat split; auto. }
  unfold validate_receipt_chain.
  destruct (merkle_total blake3 (JDict <$> r :: receipts)) as [root ->].
  rewrite bind_Ok, ret_Ok. eexists. split; [reflexivity |].
  cbn [receipt_count errors valid].
  rewrite (check_receipts_spec 0 (r :: receipts) []), app_nil_l.
  split; [done |]. split; [done |].
  assert (bool_decide (length (expected_errors 0 (r :: receipts)) = 0%nat) = true
          ↔ expected_errors 0 (r :: receipts) = []) as Hvalid.
  { rewrite bool_decide_eq_true. apply length_zero_iff_nil. }
  split; [exact Hvalid |].
  by rewrite Hvalid, expected_errors_nil.
Qed.

End Validation.

Example forged_receipt_validates :
  valid <$> validate_receipt_chain None [forged_receipt] = Ok true.
Proof. vm_compute. reflexivity. Qed.

Example incomplete_receipts_all_reported :
  (λ v, (error_index <$> errors v, error_text <$> errors v))
    <$> validate_receipt_chain None
          [ {[ "ts" := JStr "t0" ]}; forged_receipt;
            {[ "receipt_type" := JStr "ingest"; "payload_hash" := JStr "h" ]} ]
  = Ok ([0; 0; 0; 2; 2]%nat,
        ["missing_field:receipt_type"; "missing_field:tenant_id";
         "missing_field:payload_hash"; "missing_field:ts";
         "missing_field:tenant_id"]).
Proof. vm_compute. reflexivity. Qed.

(** ** Merkle proofs in trees of [2^k] leaves *)

Section PowerOfTwo.

Variable blake3 : option (bytes → string).

Lemma level_length (m : nat) (hashes : list string) :
  length hashes = (2 * m)%nat → length (level blake3 hashes) = m.
Proof.
  revert hashes. induction m as [| m IH]; intros hashes Hlen.
  - by destruct hashes.
  - destruct hashes as [| a [| b rest]]; cbn in Hlen; try lia.
    cbn. rewrite IH; [done | lia].
Qed.

Lemma py_index_app_pair (pre rest : list string) (a b : string) :
  py_index (pre ++ a :: b :: rest) (Z.of_nat (length pre)) = Ok a
  ∧ py_index (pre ++ a :: b :: rest) (Z.of_nat (length pre) + 1) = Ok b.
Proof.
  split.
  - destruct (py_index_in_range (pre ++ a :: b :: rest) (Z.of_nat (length pre)))
      as (x & -> & Hx); [rewrite length_app; cbn; lia |].
    rewrite Nat2Z.id, list_lookup_middle in Hx by done. congruence.
  - destruct (py_index_in_range (pre ++ a :: b :: rest)
                (Z.of_nat (length pre) + 1))
      as (x & -> & Hx); [rewrite length_app; cbn; lia |].
    replace (Z.to_nat (Z.of_nat (length pre) + 1)) with (length pre + 1)%nat
      in Hx by lia.
    rewrite lookup_app_r, Nat.add_sub' in Hx by lia. cbn in Hx. congruence.
Qed.

Lemma mapM_res_cons {A B} (f : A → res B) (x : A) (l : list A) (y : B) (k : list B) :
  f x = Ok y → mapM f l = Ok k → mapM f (x :: l) = Ok (y :: k).
Proof. intros Hx Hl. cbn. rewrite Hx. cbn. fold (mapM f l). by rewrite Hl. Qed.

Lemma combine_pairs_from (m : nat) (pre rest : list string) :
  length rest = (2 * m)%nat →
  mapM (λ i, l ← py_index (pre ++ rest) i;
             r ← py_index (pre ++ rest) (i + 1);
             mret (dual_hash blake3 (PyStr (l +:+ r))))
       ((λ k : nat, Z.of_nat (length pre) + 2 * Z.of_nat k) <$> seq 0 m)
  = Ok (level blake3 rest).
Proof.
  revert pre rest. induction m as [| m IH]; intros pre rest Hlen.
  - by destruct rest.
  - destruct rest as [| a [| b rest]]; cbn in Hlen; try lia.
    cbn [seq fmap list_fmap level].
    apply mapM_res_cons.
    + replace (Z.of_nat (length pre) + 2 * Z.of_nat 0)
        with (Z.of_nat (length pre)) by lia.
      destruct (py_index_app_pair pre rest a b) as [-> ->]. reflexivity.
    + rewrite <- seq_shift, <- list_fmap_compose.
      specialize (IH (pre ++ [a; b]) rest ltac:(lia)).
      rewrite <- !app_assoc in IH. cbn [app] in IH.
      rewrite length_app in IH. cbn [length] in IH.
      rewrite <- IH. f_equal. apply list_fmap_ext.
      intros i x _. cbn. lia.
Qed.

Lemma combine_pairs_level (m : nat) (hashes : list string) :
  length hashes = (2 * m)%nat → combine_pairs blake3 hashes = Ok (level blake3 hashes).
Proof.
  intros Hlen. unfold combine_pairs, range_by_two.
  pose proof (combine_pairs_from m [] hashes Hlen) as H.
  cbn [app length] in H. rewrite <- H. f_equal.
  replace ((length hashes + 1) / 2)%nat with m.
  - apply list_fmap_ext. intros i x _. lia.
  - rewrite Hlen.
    pose proof (Nat.div_mod_eq (2 * m + 1) 2).
    pose proof (Nat.mod_upper_bound (2 * m + 1) 2). lia.
Qed.

Lemma proof_pair_step (pre rest : list string) (a b : string) index proof acc :
  proof_pair blake3 (pre ++ a :: b :: rest) index (proof, acc)
    (Z.of_nat (length pre))
  = Ok (proof ++ (if Z.of_nat (length pre) / 2 =? index / 2 then
                    if index mod 2 =? 0 then [(b, "right")] else [(a, "left")]
                  else []),
        acc ++ [dual_hash blake3 (PyStr (a +:+ b))]).
Proof.
  unfold proof_pair.
  destruct (py_index_app_pair pre rest a b) as [-> ->].
  assert ((Z.of_nat (length pre) + 1
           <? Z.of_nat (length (pre ++ a :: b :: rest))) = true) as ->.
  { apply Z.ltb_lt. rewrite length_app. cbn [length]. lia. }
  rewrite !bind_Ok, ret_Ok.
  destruct (_ =? _); [destruct (_ =? _) |]; by rewrite ?app_nil_r.
Qed.

Lemma proof_pairs_from (m : nat) (pre rest : list string) index proof acc :
  length rest = (2 * m)%nat →
  for_each ((λ k : nat, Z.of_nat (length pre) + 2 * Z.of_nat k) <$> seq 0 m)
           (proof_pair blake3 (pre ++ rest) index) (proof, acc)
  = Ok (proof ++ sibling_from (Z.of_nat (length pre)) rest index,
        acc ++ level blake3 rest).
Proof.
  revert pre rest proof acc. induction m as [| m IH]; intros pre rest proof acc Hlen.
  - destruct rest; [| done]. cbn. by rewrite !app_nil_r.
  - destruct rest as [| a [| b rest]]; cbn in Hlen; try lia.
    cbn [seq fmap list_fmap for_each sibling_from level].
    replace (Z.of_nat (length pre) + 2 * Z.of_nat 0)
      with (Z.of_nat (length pre)) by lia.
    rewrite proof_pair_step, bind_Ok.
    rewrite <- seq_shift, <- list_fmap_compose.
    specialize (IH (pre ++ [a; b]) rest).
    rewrite <- !app_assoc in IH. cbn [app] in IH.
    rewrite length_app in IH. cbn [length] in IH.
    match goal with
    | |- context [?f <$> seq 0 m] =>
        replace (f <$> seq 0 m)
          with ((λ k : nat, Z.of_nat (length pre + 2) + 2 * Z.of_nat k)
                  <$> seq 0 m)
          by (apply list_fmap_ext; intros; cbn; lia)
    end.
    rewrite IH by lia. rewrite <- !app_assoc.
    replace (Z.of_nat (length pre + 2)) with (Z.of_nat (length pre) + 2) by lia.
    reflexivity.
Qed.

(** Linear arithmetic with divisions and remainders by constants. *)
Ltac div_lia := Z.to_euclidean_division_equations; lia.

Lemma pair_ind {A} (P : list A → Prop) :
  P [] → (∀ a, P [a]) → (∀ a b l, P l → P (a :: b :: l)) → ∀ l, P l.
Proof.
  intros Hnil Hone Hpair l.
  assert (P l ∧ ∀ a, P (a :: l)) as [H _]; [| exact H].
  induction l as [| b l [IH1 IH2]]; split; auto.
Qed.

Lemma sibling_from_before (j : Z) (rest : list string) index :
  0 <= index < 2 * j → sibling_from (2 * j) rest index = [].
Proof.
  revert j. induction rest as [| a | a b rest IH] using pair_ind;
    intros j Hindex; [done | done |].
  cbn [sibling_from].
  assert ((2 * j / 2 =? index / 2) = false) as -> by (apply Z.eqb_neq; div_lia).
  replace (2 * j + 2) with (2 * (j + 1)) by lia.
  apply IH. lia.
Qed.

Lemma sibling_from_spec (m : nat) (j : Z) (rest : list string) (i : nat) x :
  length rest = (2 * m)%nat → 0 <= j →
  rest !! i = Some x →
  ∃ sib y,
    sibling_from (2 * j) rest (2 * j + Z.of_nat i) = [sib]
    ∧ level blake3 rest !! (i / 2)%nat = Some y
    ∧ verify_step blake3 x sib = y.
Proof.
  revert j rest i. induction m as [| m IH]; intros j rest i Hlen Hj Hx.
  - destruct rest; [done | cbn in Hlen; lia].
  - destruct rest as [| a [| b rest]]; cbn in Hlen; try lia.
    cbn [sibling_from level].
    destruct i as [| [| i]].
    + cbn in Hx. injection Hx as <-.
      exists (b, "right"), (dual_hash blake3 (PyStr (a +:+ b))).
      assert ((2 * j / 2 =? (2 * j + Z.of_nat 0) / 2) = true) as ->
        by (apply Z.eqb_eq; div_lia).
      assert (((2 * j + Z.of_nat 0) mod 2 =? 0) = true) as ->
        by (apply Z.eqb_eq; div_lia).
      replace (2 * j + 2) with (2 * (j + 1)) by lia.
      rewrite sibling_from_before by lia. done.
    + cbn in Hx. injection Hx as <-.
      exists (a, "left"), (dual_hash blake3 (PyStr (a +:+ b))).
      assert ((2 * j / 2 =? (2 * j + Z.of_nat 1) / 2) = true) as ->
        by (apply Z.eqb_eq; div_lia).
      assert (((2 * j + Z.of_nat 1) mod 2 =? 0) = false) as ->
        by (apply Z.eqb_neq; div_lia).
      replace (2 * j + 2) with (2 * (j + 1)) by lia.
      rewrite sibling_from_before by lia. done.
    + cbn in Hx.
      assert ((2 * j / 2 =? (2 * j + Z.of_nat (S (S i))) / 2) = false) as ->
        by (apply Z.eqb_neq; div_lia).
      destruct (IH (j + 1) rest i) as (sib & y & Hsib & Hy & Hv); [lia | lia | done |].
      exists sib, y. cbn [app].
      replace (2 * j + 2) with (2 * (j + 1)) by lia.
      replace (2 * j + Z.of_nat (S (S i))) with (2 * (j + 1) + Z.of_nat i) by lia.
      split; [done |]. split; [| done].
      replace (S (S i) / 2)%nat with (S (i / 2)).
      * done.
      * pose proof (Nat.div_mod_eq (S (S i)) 2). pose proof (Nat.div_mod_eq i 2).
        pose proof (Nat.mod_upper_bound (S (S i)) 2).
        pose proof (Nat.mod_upper_bound i 2). lia.
Qed.

Lemma range_by_two_even (m : nat) :
  range_by_two (2 * m) = (λ k : nat, Z.of_nat 0 + 2 * Z.of_nat k) <$> seq 0 m.
Proof.
  unfold range_by_two. replace ((2 * m + 1) / 2)%nat with m; [done |].
  pose proof (Nat.div_mod_eq (2 * m + 1) 2).
  pose proof (Nat.mod_upper_bound (2 * m + 1) 2). lia.
Qed.

Lemma proof_level_step (m : nat) (hashes : list string) proof index :
  length hashes = (2 * m)%nat →
  proof_level blake3 (hashes, proof, index)
  = Ok (level blake3 hashes, proof ++ sibling_from 0 hashes index, index / 2).
Proof.
  intros Hlen. unfold proof_level. rewrite Hlen, range_by_two_even.
  pose proof (proof_pairs_from m [] hashes index proof [] Hlen) as H.
  cbn [app length] in H. by rewrite H.
Qed.

Lemma merkle_level_step (m : nat) (hashes : list string) :
  length hashes = (2 * m)%nat → merkle_level blake3 hashes = Ok (level blake3 hashes).
Proof.
  intros Hlen. unfold merkle_level. rewrite Hlen.
  replace (2 * m mod 2 =? 0)%nat with true.
  - rewrite ret_Ok, bind_Ok. by apply (combine_pairs_level m).
  - symmetry. apply Nat.eqb_eq.
    pose proof (Nat.div_mod_eq (2 * m) 2).
    pose proof (Nat.mod_upper_bound (2 * m) 2). lia.
Qed.

Lemma pow2_pos (k : nat) : (0 < 2 ^ k)%nat.
Proof. induction k; cbn; lia. Qed.

Lemma proof_loop (k : nat) fuel (hashes : list string) proof index :
  length hashes = (2 ^ k)%nat → (k ≤ fuel)%nat →
  ∃ index',
    while fuel (λ st, (1 <? length st.1.1)%nat) (proof_level blake3)
          (hashes, proof, index)
    = Ok (top blake3 k hashes, proof ++ path blake3 k hashes index, index').
Proof.
  revert fuel hashes proof index.
  induction k as [| k IH]; intros fuel hashes proof index Hlen Hfuel.
  - exists index. rewrite while_exit; [by rewrite app_nil_r |].
    cbn [fst]. rewrite Hlen. reflexivity.
  - destruct fuel as [| fuel]; [lia |].
    pose proof (pow2_pos k) as Hpos.
    rewrite Nat.pow_succ_r' in Hlen.
    rewrite while_unfold by (cbn [fst]; apply Nat.ltb_lt; lia).
    rewrite (proof_level_step (2 ^ k) hashes proof index Hlen), bind_Ok.
    destruct (IH fuel (level blake3 hashes) (proof ++ sibling_from 0 hashes index)
                (index / 2)) as [index' ->];
      [by apply level_length | lia |].
    exists index'. cbn [top path]. by rewrite app_assoc.
Qed.

Lemma merkle_loop_top (k : nat) fuel (hashes : list string) :
  length hashes = (2 ^ k)%nat → (k ≤ fuel)%nat →
  while fuel (λ hs, (1 <? length hs)%nat) (merkle_level blake3) hashes
  = Ok (top blake3 k hashes).
Proof.
  revert fuel hashes.
  induction k as [| k IH]; intros fuel hashes Hlen Hfuel.
  - rewrite while_exit; [done |]. rewrite Hlen. reflexivity.
  - destruct fuel as [| fuel]; [lia |].
    pose proof (pow2_pos k) as Hpos.
    rewrite Nat.pow_succ_r' in Hlen.
    rewrite while_unfold by (apply Nat.ltb_lt; lia).
    rewrite (merkle_level_step (2 ^ k) hashes Hlen), bind_Ok.
    apply IH; [by apply level_length | lia].
Qed.

Lemma verify_path (k : nat) (hashes : list string) (i : nat) x :
  length hashes = (2 ^ k)%nat → hashes !! i = Some x →
  ∃ r, top blake3 k hashes = [r]
       ∧ foldl (verify_step blake3) x (path blake3 k hashes (Z.of_nat i)) = r.
Proof.
  revert hashes i x. induction k as [| k IH]; intros hashes i x Hlen Hx.
  - destruct hashes as [| h [| ? ?]]; cbn in Hlen; try lia.
    destruct i; cbn in Hx; [| done]. injection Hx as <-. by exists h.
  - rewrite Nat.pow_succ_r' in Hlen.
    destruct (sibling_from_spec (2 ^ k) 0 hashes i x Hlen) as (sib & y & Hsib & Hy & Hv);
      [lia | done |].
    change (2 * 0 + Z.of_nat i) with (Z.of_nat i) in Hsib.
    change (2 * 0) with 0 in Hsib.
    destruct (IH (level blake3 hashes) (i / 2)%nat y) as (r & Htop & Hfold);
      [by apply level_length | done |].
    exists r. cbn [top path]. split; [done |].
    rewrite Hsib. cbn [app foldl]. rewrite Hv.
    change 2 with (Z.of_nat 2). by rewrite <- (Nat2Z.inj_div i 2).
Qed.

Lemma power_of_two_land (k : nat) :
  Z.land (Z.of_nat (2 ^ k)) (Z.of_nat (2 ^ k) - 1) = 0.
Proof.
  rewrite Nat2Z.inj_pow. change (Z.of_nat 2) with 2.
  replace (2 ^ Z.of_nat k - 1) with (Z.ones (Z.of_nat k))
    by (rewrite Z.ones_equiv; lia).
  rewrite Z.land_ones by lia.
  apply Z.mod_same. apply Z.pow_nonzero; lia.
Qed.

(** X1. In a tree of [2^k] receipts both paddings do nothing, and the proof
    of every receipt verifies against the root. *)
Theorem merkle_proof_sound_power_of_two (receipts : list json) (k i : nat)
    (r : json) :
  length receipts = (2 ^ k)%nat → receipts !! i = Some r →
  ∃ proof root,
    generate_merkle_proof blake3 receipts (Z.of_nat i) = Ok proof
    ∧ merkle blake3 receipts = Ok root
    ∧ verify_merkle_proof blake3 r proof root = true.
Proof.
  intros Hlen Hr.
  pose proof (pow2_pos k) as Hpos.
  pose proof (lookup_lt_Some _ _ _ Hr) as Hi.
  set (hashes := (λ r, dual_hash blake3 (PyStr (Json.dumps r))) <$> receipts).
  assert (length hashes = (2 ^ k)%nat) as Hhashes
    by (subst hashes; by rewrite length_fmap).
  assert (hashes !! i = Some (dual_hash blake3 (PyStr (Json.dumps r)))) as Hleaf
    by (subst hashes; by rewrite list_lookup_fmap, Hr).
  assert (k ≤ 2 ^ k)%nat as Hfuel
    by (apply Nat.lt_le_incl, Nat.pow_gt_lin_r; lia).
  destruct (verify_path k hashes i _ Hhashes Hleaf) as (root & Htop & Hfold).
  destruct (proof_loop k (2 ^ k) hashes [] (Z.of_nat i) Hhashes Hfuel)
    as [index' Hloop].
  exists (path blake3 k hashes (Z.of_nat i)), root. split; [| split].
  - unfold generate_merkle_proof.
    destruct receipts as [| r0 receipts]; [cbn in Hlen; lia |].
    rewrite bool_decide_eq_false_2 by done.
    assert ((Z.of_nat (length (r0 :: receipts)) <=? Z.of_nat i) = false) as ->
      by (apply Z.leb_gt; lia).
    cbn [orb]. fold hashes.
    rewrite while_exit.
    2:{ unfold not_power_of_two. rewrite Hhashes, power_of_two_land. done. }
    rewrite bind_Ok, Hhashes, Hloop, bind_Ok. reflexivity.
  - unfold merkle.
    destruct receipts as [| r0 receipts]; [cbn in Hlen; lia |].
    fold hashes. rewrite Hhashes, (merkle_loop_top k) by done.
    rewrite bind_Ok, Htop. reflexivity.
  - unfold verify_merkle_proof. rewrite Hfold. apply String.eqb_refl.
Qed.

End PowerOfTwo.

(** ** A Merkle proof is always computed *)

Lemma land_pred_power_of_two (n : Z) :
  0 < n → Z.land n (n - 1) = 0 → ∃ k : nat, n = 2 ^ Z.of_nat k.
Proof.
  intros Hpos Hland.
  pose proof (Z.log2_nonneg n) as Hk.
  destruct (Z.log2_spec n Hpos) as [Hlow Hhigh].
  exists (Z.to_nat (Z.log2 n)). rewrite Z2Nat.id by done.
  destruct (decide (n = 2 ^ Z.log2 n)) as [| Hne]; [done |]. exfalso.
  assert (Z.log2 (n - 1) = Z.log2 n) as Hlog.
  { apply Z.log2_unique; [done |]. rewrite <- Z.add_1_r in Hhigh. lia. }
  assert (Z.testbit (Z.land n (n - 1)) (Z.log2 n) = true) as Hbit.
  { rewrite Z.land_spec, (Z.bit_log2 n) by done.
    rewrite <- Hlog. rewrite Z.bit_log2 by lia. done. }
  rewrite Hland, Z.bits_0 in Hbit. done.
Qed.

Section ProofTotal.

Variable blake3 : option (bytes → string).

Lemma pad_step_ok (hashes : list string) :
  hashes ≠ [] →
  ∃ x, pad_step hashes = Ok (hashes ++ [x]).
Proof.
  intros Hne. unfold pad_step.
  destruct (py_index_from_end hashes (-1)) as [x ->].
  - destruct hashes; [done | cbn [length]; lia].
  - by exists x.
Qed.

Lemma pad_loop_ok (k d fuel : nat) (hashes : list string) :
  hashes ≠ [] → (length hashes + d = 2 ^ k)%nat → (d ≤ fuel)%nat →
  ∃ hashes' (k' : nat),
    while fuel not_power_of_two pad_step hashes = Ok hashes'
    ∧ length hashes' = (2 ^ k')%nat.
Proof.
  revert fuel hashes. induction d as [| d IH]; intros fuel hashes Hne Hlen Hfuel.
  - exists hashes, k. rewrite while_exit; [split; [done | lia] |].
    unfold not_power_of_two.
    replace (length hashes) with (2 ^ k)%nat by lia.
    by rewrite power_of_two_land.
  - destruct (not_power_of_two hashes) eqn:Hcond.
    + destruct fuel as [| fuel]; [lia |].
      rewrite while_unfold by done.
      destruct (pad_step_ok hashes Hne) as [x ->]. rewrite bind_Ok.
      apply IH; [by destruct hashes | rewrite length_app; cbn; lia | lia].
    + unfold not_power_of_two in Hcond.
      apply negb_false_iff, Z.eqb_eq in Hcond.
      assert (0 < Z.of_nat (length hashes)) as Hpos
        by (destruct hashes; [done | cbn [length]; lia]).
      destruct (land_pred_power_of_two _ Hpos Hcond) as [k' Hk'].
      exists hashes, k'. rewrite while_exit.
      * split; [done |].
        apply Nat2Z.inj. rewrite Hk', Nat2Z.inj_pow. done.
      * unfold not_power_of_two. apply negb_false_iff, Z.eqb_eq. done.
Qed.

Lemma next_power_of_two (n : nat) :
  (0 < n)%nat → ∃ k d : nat, (n + d = 2 ^ k)%nat ∧ (d ≤ n)%nat.
Proof.
  induction n as [| n IH]; [lia |]. intros _.
  destruct n as [| n]; [exists 0%nat, 0%nat; cbn; lia |].
  destruct IH as (k & d & Hk & Hd); [lia |].
  destruct d as [| d].
  - exists (S k), n. rewrite Nat.pow_succ_r'. lia.
  - exists k, d. lia.
Qed.

(** [generate_merkle_proof] returns a proof for every list of receipts
    and every index. *)
Lemma generate_merkle_proof_total (receipts : list json) (target_index : Z) :
  ∃ proof, generate_merkle_proof blake3 receipts target_index = Ok proof.
Proof.
  unfold generate_merkle_proof.
  destruct (_ || _) eqn:Hguard; [by eexists |].
  apply orb_false_iff in Hguard as [Hne _].
  apply bool_decide_eq_false in Hne.
  set (hashes := (λ r, dual_hash blake3 (PyStr (Json.dumps r))) <$> receipts).
  assert (hashes ≠ []) as Hhashes by (subst hashes; by destruct receipts).
  destruct (next_power_of_two (length hashes)) as (k & d & Hk & Hd);
    [destruct hashes; [done | cbn; lia] |].
  destruct (pad_loop_ok k d (length hashes) hashes Hhashes Hk Hd)
    as (padded & k' & -> & Hpadded).
  rewrite bind_Ok.
  destruct (proof_loop blake3 k' (length padded) padded [] target_index Hpadded)
    as [index' ->].
  - rewrite Hpadded. apply Nat.lt_le_incl, Nat.pow_gt_lin_r. lia.
  - by eexists.
Qed.

End ProofTotal.

(** ** Merkle proofs against Merkle roots *)

(** C1 fails on the code: for six receipts, [generate_merkle_proof] and
    [merkle] both return, and the proof of the first receipt does not
    verify against the root. The proof is a path in a tree whose leaves
    are padded to eight before the first level; the root is that of a tree
    padded level by level. The fourth node above the leaves is the hash of
    the sixth leaf with itself in the first tree, and a copy of the third
    node (the hash of leaves five and six) in the second. Where the two
    paddings agree, as on [2^k] receipts, the proof verifies
    ([merkle_proof_sound_power_of_two]). *)
Theorem six_receipts_proof_rejected :
  ∃ proof root,
    generate_merkle_proof None six_receipts 0 = Ok proof
    ∧ merkle None six_receipts = Ok root
    ∧ six_receipts !! 0%nat = Some (JDict {[ "n" := JInt 0 ]})
    ∧ verify_merkle_proof None (JDict {[ "n" := JInt 0 ]}) proof root = false.
Proof.
  eexists. eexists.
  split; [vm_compute; reflexivity |].
  split; [vm_compute; reflexivity |].
  split; vm_compute; reflexivity.
Qed.

(** ** Compression ratio *)

Section CompressionRatio.

Variable deflate : bytes → bytes.
Variable mtime : Z.

Lemma gzip_length (data : bytes) :
  length (Gzip.compress deflate mtime data)
  = (18 + length (deflate data))%nat.
Proof.
  unfold Gzip.compress. rewrite !length_app. cbn [length Gzip.le32 fmap list_fmap].
  lia.
Qed.

Lemma ratio_nonempty (data : bytes) :
  data ≠ [] →
  compute_compression_ratio deflate mtime data
  = (inject_Z (Z.of_nat (18 + length (deflate data)))
     / inject_Z (Z.of_nat (length data)))%Q.
Proof.
  intros Hne. destruct data as [| b data]; [done |].
  unfold compute_compression_ratio. by rewrite gzip_length.
Qed.

Lemma Qdiv_nat_gt_1 (a b : nat) :
  (0 < b < a)%nat →
  (1 < inject_Z (Z.of_nat a) / inject_Z (Z.of_nat b))%Q.
Proof.
  intros Hab. apply Qlt_shift_div_l.
  - change 0%Q with (inject_Z 0). rewrite <- Zlt_Qlt. lia.
  - rewrite Qmult_1_l, <- Zlt_Qlt. lia.
Qed.

Lemma Qdiv_nat_pos (a b : nat) :
  (0 < b)%nat → (0 < a)%nat →
  (0 < inject_Z (Z.of_nat a) / inject_Z (Z.of_nat b))%Q.
Proof.
  intros Hb Ha. apply Qlt_shift_div_l.
  - change 0%Q with (inject_Z 0). rewrite <- Zlt_Qlt. lia.
  - rewrite Qmult_0_l. change 0%Q with (inject_Z 0). rewrite <- Zlt_Qlt. lia.
Qed.

(** C4, amended. The ratio is positive for every input and exactly [1]
    for the empty one, and it is not bounded by [1]: for a non-empty input
    it is the length of the gzip member, 18 bytes of header and trailer
    around the DEFLATE stream, over the length of the input, which is
    above [1] for every input shorter than 18 bytes. *)
Theorem compression_ratio_positive_unbounded (data : bytes) :
  (0 < compute_compression_ratio deflate mtime data)%Q
  ∧ compute_compression_ratio deflate mtime [] = 1%Q
  ∧ (data ≠ [] →
     compute_compression_ratio deflate mtime data
     = (inject_Z (Z.of_nat (18 + length (deflate data)))
        / inject_Z (Z.of_nat (length data)))%Q)
  ∧ ((0 < length data < 18)%nat →
     (1 < compute_compression_ratio deflate mtime data)%Q).
Proof.
  split; [| split; [reflexivity | split; [apply ratio_nonempty |]]].
  - destruct data as [| b data]; [reflexivity |].
    rewrite ratio_nonempty by done.
    apply Qdiv_nat_pos; cbn [length]; lia.
  - intros Hlen. rewrite ratio_nonempty by (intros ->; cbn in Hlen; lia).
    apply Qdiv_nat_gt_1. lia.
Qed.

End CompressionRatio.

(** C4, as the specification states it, fails: whatever the DEFLATE
    encoder and the time stamp, the ratio of the one-byte input [b"a"] is
    not in the interval from 0 to 1. *)
Lemma compression_ratio_above_one :
  ¬ (∃ (deflate : bytes → bytes) (mtime : Z),
       (0 < compute_compression_ratio deflate mtime (bytes_literal "a")
        ∧ compute_compression_ratio deflate mtime (bytes_literal "a") <= 1)%Q).
Proof.
  intros (deflate & mtime & _ & Hle).
  apply Qle_not_lt in Hle. apply Hle.
  change (bytes_literal "a") with ["a"%byte].
  rewrite ratio_nonempty by done.
  apply Qdiv_nat_gt_1. cbn [length]. lia.
Qed.

(** ** The z-score *)

(** C8. Whenever the baseline has a [std], [compute_z_score] returns
    [0.0] when it is zero and [(ratio - mean) / std] otherwise (when the
    baseline has a [mean] too); a division by zero is never attempted. *)
Theorem compute_z_score_guarded (ratio : float) (baseline : gmap string float)
    (std : float) :
  baseline !! "std" = Some std →
  ((std =? 0)%float = true → compute_z_score ratio baseline = Ok 0%float)
  ∧ ((std =? 0)%float = false →
     ∀ mean, baseline !! "mean" = Some mean →
       compute_z_score ratio baseline = Ok ((ratio - mean) / std)%float)
  ∧ compute_z_score ratio baseline ≠ Raise ZeroDivisionError.
Proof.
  intros Hstd. unfold compute_z_score, py_getitem. rewrite Hstd, bind_Ok.
  split; [by intros -> |]. split.
  - intros Hnz mean Hmean. rewrite Hnz, Hmean, !bind_Ok.
    unfold py_truediv. by rewrite Hnz.
  - destruct (std =? 0)%float eqn:Hnz; [done |].
    destruct (baseline !! "mean") as [mean |]; [| done].
    rewrite !bind_Ok. unfold py_truediv. by rewrite Hnz.
Qed.

(** C8 on both baselines: a zero deviation gives [0.0], a deviation of
    [0.25] gives [(0.75 - 0.5) / 0.25 = 1.0]. *)
Lemma compute_z_score_guarded_witness :
  compute_z_score 0.75 flat_baseline = Ok 0%float
  ∧ compute_z_score 0.75 sharp_baseline = Ok 1%float.
Proof.
  split.
  - assert (flat_baseline !! "std" = Some 0%float) as Hstd
      by (vm_compute; reflexivity).
    apply (compute_z_score_guarded 0.75 flat_baseline 0 Hstd).
    reflexivity.
  - assert (sharp_baseline !! "std" = Some 0.25%float) as Hstd
      by (vm_compute; reflexivity).
    assert (sharp_baseline !! "mean" = Some 0.5%float) as Hmean
      by (vm_compute; reflexivity).
    destruct (compute_z_score_guarded 0.75 sharp_baseline 0.25 Hstd)
      as (_ & Hscore & _).
    rewrite (Hscore eq_refl _ Hmean). reflexivity.
Defined.

(** ** The Benford sum *)

Section RealLogarithm.

Local Open Scope R_scope.

Lemma Rabs_le_iff (a b : R) : Rabs a <= b ↔ - b <= a <= b.
Proof. unfold Rabs. destruct (Rcase_abs a); lra. Qed.

Lemma Rabs_sub_le_iff (a c b : R) : Rabs (a - c) <= b ↔ c - b <= a <= c + b.
Proof. rewrite Rabs_le_iff. lra. Qed.

Lemma ln_le_mono (x y : R) : 0 < x → x <= y → ln x <= ln y.
Proof.
  intros Hx [Hlt | ->]; [| lra]. left. by apply ln_increasing.
Qed.

Lemma ln_10_ge_1 : 1 <= ln 10.
Proof.
  rewrite <- (ln_exp 1). apply ln_le_mono; [apply exp_pos |].
  pose proof exp_le_3. lra.
Qed.

Lemma ln_1p_upper (x : R) : -1 < x → ln (1 + x) <= x.
Proof.
  intros Hx. rewrite <- (ln_exp x) at 2.
  apply ln_le_mono; [lra | apply exp_ineq1_le].
Qed.

Lemma ln_1p_lower (x : R) : - (1 / 2) <= x → x <= 0 → 2 * x <= ln (1 + x).
Proof.
  intros Hx Hneg.
  assert (0 < 1 + x) as Hpos by lra.
  pose proof (Rinv_0_lt_compat _ Hpos) as Hinv.
  assert (/ (1 + x) <= 2) as Hinv2.
  { rewrite <- (Rinv_inv 2). apply Rinv_le_contravar; lra. }
  assert (ln (/ (1 + x)) <= - x * / (1 + x)) as H.
  { replace (/ (1 + x)) with (1 + - x * / (1 + x)) at 1 by (field; lra).
    apply ln_1p_upper. nra. }
  rewrite ln_Rinv in H by done. nra.
Qed.

Lemma ln_near_1 (y e : R) :
  0 <= e <= 1 / 2 → 1 - e <= y <= 1 + e → Rabs (ln y) <= 2 * e.
Proof.
  intros He Hy. apply Rabs_le_iff. split.
  - apply Rle_trans with (ln (1 + - e)).
    + pose proof (ln_1p_lower (- e)). lra.
    + apply ln_le_mono; lra.
  - apply Rle_trans with (ln (1 + e)).
    + apply ln_le_mono; lra.
    + pose proof (ln_1p_upper e). lra.
Qed.

Lemma log10_mult (x y : R) : 0 < x → 0 < y → log10 (x * y) = log10 x + log10 y.
Proof. intros Hx Hy. unfold log10. rewrite ln_mult by done. pose proof ln_10_ge_1. field. lra. Qed.

Lemma log10_le_mono (x y : R) : 0 < x → x <= y → log10 x <= log10 y.
Proof.
  intros Hx Hxy. unfold log10. pose proof ln_10_ge_1.
  apply Rmult_le_compat_r; [left; apply Rinv_0_lt_compat; lra |].
  by apply ln_le_mono.
Qed.

Lemma log10_1 : log10 1 = 0.
Proof. unfold log10. rewrite ln_1. pose proof ln_10_ge_1. field. lra. Qed.

Lemma log10_10 : log10 10 = 1.
Proof. unfold log10. pose proof ln_10_ge_1. field. lra. Qed.

Lemma log10_near (t s e : R) :
  1 <= t → 0 <= e <= 1 / 2 → Rabs (s - t) <= e →
  0 < s ∧ Rabs (log10 s - log10 t) <= 2 * e.
Proof.
  intros Ht He Hs. apply Rabs_sub_le_iff in Hs.
  assert (0 < s) as Hpos by lra. split; [done |].
  assert (0 < / t <= 1) as Hinv.
  { split; [apply Rinv_0_lt_compat; lra |].
    rewrite <- Rinv_1. apply Rinv_le_contravar; lra. }
  replace s with (t * (s * / t)) at 1 by (field; lra).
  rewrite log10_mult; [| lra | nra].
  replace (log10 t + log10 (s * / t) - log10 t) with (log10 (s * / t)) by lra.
  unfold log10. pose proof ln_10_ge_1 as H10.
  assert (Rabs (ln (s * / t)) <= 2 * e) as Hln.
  { apply ln_near_1; [done |].
    assert (s * / t - 1 = (s - t) * / t) as Heq by (field; lra).
    nra. }
  apply Rabs_le_iff in Hln. apply Rabs_le_iff.
  assert (0 < / ln 10 <= 1) as Hinv10.
  { split; [apply Rinv_0_lt_compat; lra |].
    rewrite <- Rinv_1. apply Rinv_le_contravar; lra. }
  unfold Rdiv. nra.
Qed.

Lemma log10_ratio (d : R) : 0 < d → log10 (1 + 1 / d) = log10 (d + 1) - log10 d.
Proof.
  intros Hd.
  assert (0 < 1 + 1 / d) as Hpos.
  { pose proof (Rinv_0_lt_compat _ Hd). lra. }
  replace (d + 1) with (d * (1 + 1 / d)) by (field; lra).
  rewrite log10_mult by done. lra.
Qed.

Lemma log10_ratio_bounds (d : R) : 1 <= d → 0 <= log10 (1 + 1 / d) <= 1.
Proof.
  intros Hd.
  assert (0 < / d <= 1) as Hinv.
  { split; [apply Rinv_0_lt_compat; lra |].
    rewrite <- Rinv_1. apply Rinv_le_contravar; lra. }
  split.
  - apply Rle_trans with (log10 1); [rewrite log10_1; lra |].
    apply log10_le_mono; lra.
  - apply Rle_trans with (log10 10); [| rewrite log10_10; lra].
    apply log10_le_mono; lra.
Qed.

Lemma first_digit_law_sum : Rsum first_digit_law = 1.
Proof.
  unfold Rsum, first_digit_law. cbn [fmap list_fmap foldr].
  rewrite !log10_ratio by lra.
  replace (1 + 1) with 2 by lra. replace (2 + 1) with 3 by lra.
  replace (3 + 1) with 4 by lra. replace (4 + 1) with 5 by lra.
  replace (5 + 1) with 6 by lra. replace (6 + 1) with 7 by lra.
  replace (7 + 1) with 8 by lra. replace (8 + 1) with 9 by lra.
  replace (9 + 1) with 10 by lra.
  rewrite log10_1, log10_10. lra.
Qed.

End RealLogarithm.

Section BenfordSum.

Local Open Scope R_scope.

Variables fdiv fadd : R → R → R.
Variable flog10 : R → R.
Variable u : R.

Hypothesis u_small : 0 <= u <= 1 / 100000.
Hypothesis fdiv_rounds :
  ∀ x y, y ≠ 0 → Rabs (fdiv x y - x / y) <= u * Rabs (x / y).
Hypothesis fadd_rounds :
  ∀ x y, Rabs (fadd x y - (x + y)) <= u * Rabs (x + y).
Hypothesis flog10_rounds :
  ∀ x, 0 < x → Rabs (flog10 x - log10 x) <= u * Rabs (log10 x).

Lemma entry_error (d : R) :
  1 <= d →
  Rabs (flog10 (fadd 1 (fdiv 1 d)) - log10 (1 + 1 / d)) <= 10 * u.
Proof.
  intros Hd.
  assert (0 < / d <= 1) as Hinv.
  { split; [apply Rinv_0_lt_compat; lra |].
    rewrite <- Rinv_1. apply Rinv_le_contravar; lra. }
  pose proof (fdiv_rounds 1 d ltac:(lra)) as Hq.
  rewrite (Rabs_pos_eq (1 / d)) in Hq by lra.
  apply Rabs_sub_le_iff in Hq.
  set (q := fdiv 1 d) in *.
  pose proof (fadd_rounds 1 q) as Hs.
  rewrite (Rabs_pos_eq (1 + q)) in Hs by nra.
  apply Rabs_sub_le_iff in Hs.
  set (s := fadd 1 q) in *.
  destruct (log10_near (1 + 1 / d) s (4 * u)) as [Hpos Hlog]; [lra | lra | |].
  { apply Rabs_sub_le_iff. nra. }
  pose proof (log10_ratio_bounds d Hd) as Ht.
  apply Rabs_sub_le_iff in Hlog.
  pose proof (flog10_rounds s Hpos) as Hl.
  assert (Rabs (log10 s) <= 2) as Habs by (apply Rabs_le_iff; lra).
  apply Rabs_sub_le_iff in Hl. apply Rabs_sub_le_iff. nra.
Qed.

Lemma Rsum_nonneg (ls ps : list R) (e : R) :
  Forall2 (λ l p, Rabs (l - p) <= e ∧ 0 <= p) ls ps → 0 <= Rsum ps.
Proof.
  induction 1 as [| l p ls ps [_ Hp] _ IH]; cbn; [lra |].
  fold (Rsum ps). lra.
Qed.

Lemma fsum_error (ls ps : list R) (e acc P E : R) :
  Forall2 (λ l p, Rabs (l - p) <= e ∧ 0 <= p) ls ps →
  0 <= e → 0 <= P → P + Rsum ps <= 1 →
  Rabs (acc - P) <= E →
  E + INR (length ls) * (e + 2 * u) <= 1 →
  Rabs (foldl fadd acc ls - (P + Rsum ps))
  <= E + INR (length ls) * (e + 2 * u).
Proof.
  intros Hall He. revert acc P E.
  induction Hall as [| l p ls ps [Hl Hp] Hrest IH]; intros acc P E HP Hsum Hacc Hbound.
  - cbn. cbn in Hbound. rewrite Rmult_0_l, !Rplus_0_r. exact Hacc.
  - cbn [foldl length] in *. rewrite S_INR in *.
    unfold Rsum in *. cbn [foldr] in *. fold (Rsum ps) in *.
    pose proof (Rsum_nonneg ls ps e Hrest) as Hnn.
    assert (0 <= INR (length ls) * (e + 2 * u)) as Hlen
      by (apply Rmult_le_pos; [apply pos_INR | lra]).
    apply Rabs_sub_le_iff in Hl, Hacc.
    pose proof (fadd_rounds acc l) as Hadd.
    assert (Rabs (acc + l) <= 2) as Habs by (apply Rabs_le_iff; lra).
    apply Rabs_sub_le_iff in Hadd.
    replace (P + (p + Rsum ps)) with ((P + p) + Rsum ps) by lra.
    replace (E + (INR (length ls) + 1) * (e + 2 * u))
      with ((E + e + 2 * u) + INR (length ls) * (e + 2 * u)) by lra.
    apply IH; [lra | lra | | lra].
    apply Rabs_sub_le_iff. nra.
Qed.

Lemma Rsum_error (ls ps : list R) (e : R) :
  Forall2 (λ l p, Rabs (l - p) <= e ∧ 0 <= p) ls ps →
  Rabs (Rsum ls - Rsum ps) <= INR (length ls) * e.
Proof.
  induction 1 as [| l p ls ps [Hl _] _ IH].
  - cbn. apply Rabs_le_iff. lra.
  - cbn [length]. rewrite S_INR.
    unfold Rsum in *. cbn [foldr]. fold (Rsum ls) (Rsum ps) in *.
    apply Rabs_sub_le_iff in Hl, IH. apply Rabs_sub_le_iff. lra.
Qed.

Lemma first_digit_entries_close :
  Forall2 (λ l p, Rabs (l - p) <= 10 * u ∧ 0 <= p)
    ((benford_expected fdiv fadd flog10 1).*2) first_digit_law.
Proof.
  unfold benford_expected, first_digit_law.
  cbn [Z.eqb Pos.eqb fmap list_fmap snd].
  repeat (constructor; [split; [apply entry_error; lra
                               | apply log10_ratio_bounds; lra] |]).
  constructor.
Qed.

Lemma INR_9 : INR 9 = 9.
Proof. change 9%nat with (Z.to_nat 9). rewrite INR_IZR_INZ. reflexivity. Qed.

(** C7. The first-digit frequencies of [benford_expected(1)] sum to [1]
    within [1e-2]. In any arithmetic whose division, addition and [log10]
    have a relative error of at most [u], for any [u] up to [1e-5]
    (binary64 has [u = 2^-53]): every frequency is within [10 * u] of
    [log10 (1 + 1/d)]; these exact values sum to [log10 10 = 1]; so the
    frequencies are within [1e-2] of [1] when they are summed exactly,
    and also when they are summed from the left in the same arithmetic. *)
Theorem benford_first_digit_sum :
  let frequencies := (benford_expected fdiv fadd flog10 1).*2 in
  (benford_expected fdiv fadd flog10 1).*1 = [1; 2; 3; 4; 5; 6; 7; 8; 9]%Z
  ∧ Forall2 (λ l p, Rabs (l - p) <= 10 * u) frequencies first_digit_law
  ∧ Rsum first_digit_law = 1
  ∧ Rabs (Rsum frequencies - 1) < 1 / 100
  ∧ Rabs (fsum fadd frequencies - 1) < 1 / 100.
Proof.
  intros frequencies. subst frequencies.
  pose proof first_digit_entries_close as Hall.
  assert (length ((benford_expected fdiv fadd flog10 1).*2) = 9%nat) as Hlen
    by reflexivity.
  split; [reflexivity |].
  split; [eapply Forall2_impl; [exact Hall | by intros l p [? _]] |].
  split; [apply first_digit_law_sum |]. split.
  - pose proof (Rsum_error _ _ _ Hall) as H.
    rewrite first_digit_law_sum, Hlen, INR_9 in H.
    eapply Rle_lt_trans; [exact H | lra].
  - unfold fsum.
    pose proof (fsum_error _ _ (10 * u) 0 0 0 Hall) as H.
    rewrite first_digit_law_sum, Hlen, INR_9 in H.
    replace (0 + 1) with 1 in H by lra.
    eapply Rle_lt_trans; [apply H |]; try lra.
    apply Rabs_le_iff. lra.
Qed.

End BenfordSum.

Section ExactArithmetic.

Local Open Scope R_scope.

Lemma exact_arithmetic_rounds (x y : R) : Rabs (x - x) <= 0 * Rabs y.
Proof. apply Rabs_le_iff. lra. Qed.

(** In exact arithmetic nothing is rounded: [u = 0]. *)
Lemma benford_first_digit_sum_witness :
  Rabs (fsum Rplus ((benford_expected Rdiv Rplus log10 1).*2) - 1) < 1 / 100.
Proof.
  apply (benford_first_digit_sum Rdiv Rplus log10 0).
  - lra.
  - intros x y _. apply exact_arithmetic_rounds.
  - intros x y. apply exact_arithmetic_rounds.
  - intros x _. apply exact_arithmetic_rounds.
Defined.

End ExactArithmetic.

(** ** Roots and proofs of arbitrary lists *)

Lemma while_fuel_mono {S : Type} fuel fuel' (cond : S → bool)
    (body : S → res S) (s r : S) :
  while fuel cond body s = Ok r → (fuel ≤ fuel')%nat →
  while fuel' cond body s = Ok r.
Proof.
  revert fuel' s. induction fuel as [| fuel IH]; intros fuel' s Hrun Hle.
  - destruct (cond s) eqn:Hcond.
    + cbn in Hrun. by rewrite Hcond in Hrun.
    + rewrite while_exit in Hrun by done. by rewrite while_exit.
  - destruct (cond s) eqn:Hcond.
    + destruct fuel' as [| fuel']; [lia |].
      rewrite while_unfold in Hrun by done. rewrite while_unfold by done.
      destruct (body s) as [s' | e]; [| done].
      rewrite bind_Ok in Hrun. rewrite bind_Ok. apply IH; [done | lia].
    + rewrite while_exit in Hrun by done. by rewrite while_exit.
Qed.

Lemma while_invariant {S : Type} (P : S → Prop) fuel (cond : S → bool)
    (body : S → res S) (s r : S) :
  P s → (∀ s s', P s → cond s = true → body s = Ok s' → P s') →
  while fuel cond body s = Ok r → P r.
Proof.
  intros Hs Hstep. revert s Hs. induction fuel as [| fuel IH]; intros s Hs Hrun.
  - destruct (cond s) eqn:Hcond.
    + cbn in Hrun. by rewrite Hcond in Hrun.
    + rewrite while_exit in Hrun by done. by injection Hrun as <-.
  - destruct (cond s) eqn:Hcond.
    + rewrite while_unfold in Hrun by done.
      destruct (body s) as [s' | e] eqn:Hbody; [| done].
      rewrite bind_Ok in Hrun. by apply (IH s'); [apply (Hstep s) |].
    + rewrite while_exit in Hrun by done. by injection Hrun as <-.
Qed.

Lemma py_index_last {A} (l : list A) (x : A) : py_index (l ++ [x]) (-1) = Ok x.
Proof.
  unfold py_index. rewrite length_app. cbn [length].
  replace (-1 <? 0) with true by done.
  replace (-1 + Z.of_nat (length l + 1)) with (Z.of_nat (length l)) by lia.
  replace (Z.of_nat (length l) <? 0) with false by (symmetry; apply Z.ltb_ge; lia).
  by rewrite Nat2Z.id, list_lookup_middle.
Qed.

Lemma mapM_res_Forall {A B} (f : A → res B) (P : B → Prop) (l : list A) k :
  (∀ x y, f x = Ok y → P y) → mapM f l = Ok k → Forall P k.
Proof.
  intros Hf. revert k. induction l as [| x l IH]; intros k Hk.
  - cbn in Hk. injection Hk as <-. constructor.
  - cbn in Hk. destruct (f x) as [y | e] eqn:Hx; [| done]. cbn in Hk.
    fold (mapM f l) in Hk. destruct (mapM f l) as [k' | e]; [| done].
    cbn in Hk. injection Hk as <-. constructor; [by apply (Hf x) | by apply IH].
Qed.

Section MerkleShape.

Variable blake3 : option (bytes → string).

Ltac div_lia := Z.to_euclidean_division_equations; lia.

Lemma merkle_level_hashes (hashes l : list string) :
  merkle_level blake3 hashes = Ok l →
  Forall (λ h, ∃ data, h = dual_hash blake3 data) l.
Proof.
  unfold merkle_level. intros Hl.
  destruct (if (length hashes mod 2 =? 0)%nat then _ else _) as [padded | e];
    [| done].
  rewrite bind_Ok in Hl. unfold combine_pairs in Hl.
  eapply mapM_res_Forall; [| exact Hl].
  intros i y Hy. cbn beta in Hy.
  destruct (py_index padded i) as [a |]; [| done]. rewrite bind_Ok in Hy.
  destruct (py_index padded (i + 1)) as [b |]; [| done]. rewrite bind_Ok in Hy.
  injection Hy as <-. by eexists.
Qed.

Lemma merkle_dual_hash (items : list json) :
  ∃ root data,
    merkle blake3 items = Ok root ∧ root = dual_hash blake3 data.
Proof.
  destruct (merkle_total blake3 items) as [root Hroot]. exists root.
  destruct items as [| item items]; [eexists; split; [done |]; by injection Hroot as <- |].
  cut (∃ data, root = dual_hash blake3 data); [intros [data ->]; by exists data |].
  unfold merkle in Hroot.
  set (hashes := (λ i, dual_hash blake3 (PyStr (Json.dumps i))) <$> item :: items)
    in Hroot.
  destruct (while _ _ _ _) as [final | e] eqn:Hloop; [| done].
  rewrite bind_Ok in Hroot.
  assert (Forall (λ h, ∃ data, h = dual_hash blake3 data) final) as Hfinal.
  { eapply while_invariant; [| | exact Hloop].
    - subst hashes. apply Forall_fmap, Forall_true. intros i. by eexists.
    - intros s s' _ _ Hs. by apply (merkle_level_hashes s). }
  destruct final as [| h final]; [done |].
  apply Forall_cons in Hfinal as [Hh _].
  unfold py_index in Hroot. cbn in Hroot. by injection Hroot as <-.
Qed.

(** X2. [merkle] returns for every list, and what it returns is a dual hash:
    every index it reads is inside the list it reads from, and the loop
    ends within the iterations it is given. *)
Theorem merkle_returns_dual_hash (items : list json) :
  ∃ root data,
    merkle blake3 items = Ok root ∧ root = dual_hash blake3 data.
Proof. apply merkle_dual_hash. Qed.

(** X3. Appending a second copy of the last item to a list of odd length (of
    three items or more) does not change the root: the padding [merkle]
    does on an odd level is that very copy. *)
Theorem merkle_duplicate_last (items : list json) (x : json) :
  items ≠ [] → (length items mod 2 = 0)%nat →
  merkle blake3 (items ++ [x; x]) = merkle blake3 (items ++ [x]).
Proof.
  intros Hne Heven.
  destruct items as [| item items]; [done |].
  unfold merkle. cbn [app].
  change (item :: items ++ [x; x]) with ((item :: items) ++ [x; x]).
  change (item :: items ++ [x]) with ((item :: items) ++ [x]).
  set (leaf := λ i : json, dual_hash blake3 (PyStr (Json.dumps i))).
  rewrite !fmap_app.
  change (leaf <$> [x; x]) with [leaf x; leaf x].
  change (leaf <$> [x]) with [leaf x].
  set (hashes := leaf <$> item :: items).
  set (hx := leaf x).
  assert (∃ m, length hashes = (2 * S m)%nat) as [m Hlen].
  { subst hashes. rewrite length_fmap.
    pose proof (Nat.div_mod_eq (length (item :: items)) 2) as Hdiv.
    rewrite Heven in Hdiv. cbn [length] in *.
    exists (S (length items) / 2 - 1)%nat. lia. }
  assert (length (hashes ++ [hx; hx]) = (2 * S (S m))%nat) as HlenL
    by (rewrite length_app; cbn [length]; lia).
  assert (length (hashes ++ [hx]) = S (2 * S m)) as HlenR
    by (rewrite length_app; cbn [length]; lia).
  assert (merkle_level blake3 (hashes ++ [hx; hx])
          = Ok (level blake3 (hashes ++ [hx; hx]))) as HstepL
    by (by apply (merkle_level_step blake3 (S (S m)))).
  assert (merkle_level blake3 (hashes ++ [hx])
          = Ok (level blake3 (hashes ++ [hx; hx]))) as HstepR.
  { unfold merkle_level. rewrite HlenR.
    replace (S (2 * S m) mod 2 =? 0)%nat with false.
    - rewrite py_index_last, !bind_Ok, <- app_assoc. cbn [app].
      by apply (combine_pairs_level blake3 (S (S m))).
    - symmetry. apply Nat.eqb_neq.
      pose proof (Nat.div_mod_eq (S (2 * S m)) 2).
      pose proof (Nat.mod_upper_bound (S (2 * S m)) 2). lia. }
  destruct (merkle_loop_ok blake3 (2 * S m) (level blake3 (hashes ++ [hx; hx])))
    as [root Hroot].
  { rewrite (level_length blake3 (S (S m))) by done. lia. }
  rewrite HlenL, HlenR.
  rewrite (while_unfold (2 * S m)) by (apply Nat.ltb_lt; lia).
  rewrite HstepR, bind_Ok, Hroot.
  replace (2 * S (S m))%nat with (S (S (2 * S m))) by lia.
  rewrite (while_unfold (S (2 * S m))) by (apply Nat.ltb_lt; lia).
  rewrite HstepL, bind_Ok.
  by rewrite (while_fuel_mono _ (S (2 * S m)) _ _ _ _ Hroot) by lia.
Qed.

Lemma sibling_from_negative (i : Z) (hashes : list string) index :
  0 <= i → index < 0 → sibling_from i hashes index = [].
Proof.
  revert i. induction hashes as [| a | a b rest IH] using pair_ind;
    intros i Hi Hindex; [done | done |].
  cbn [sibling_from].
  assert ((i / 2 =? index / 2) = false) as -> by (apply Z.eqb_neq; div_lia).
  apply IH; lia.
Qed.

Lemma path_negative (k : nat) (hashes : list string) index :
  index < 0 → path blake3 k hashes index = [].
Proof.
  revert hashes index. induction k as [| k IH]; intros hashes index Hindex;
    [done |].
  cbn [path]. rewrite sibling_from_negative by lia.
  apply IH. div_lia.
Qed.

(** X4. Outside the list there is nothing to prove: for an index at or beyond
    the length, and also for a negative one (which does not count from the
    end), [generate_merkle_proof] returns the empty proof. *)
Theorem generate_merkle_proof_out_of_range (receipts : list json)
    (target_index : Z) :
  target_index < 0 ∨ Z.of_nat (length receipts) <= target_index →
  generate_merkle_proof blake3 receipts target_index = Ok [].
Proof.
  intros Hout. unfold generate_merkle_proof.
  destruct (_ || _) eqn:Hguard; [done |].
  apply orb_false_iff in Hguard as [Hne Hlt].
  apply bool_decide_eq_false in Hne. apply Z.leb_gt in Hlt.
  destruct Hout as [Hneg | Hge]; [| lia].
  set (hashes := (λ r, dual_hash blake3 (PyStr (Json.dumps r))) <$> receipts).
  assert (hashes ≠ []) as Hhashes by (subst hashes; by destruct receipts).
  destruct (next_power_of_two (length hashes)) as (k & d & Hk & Hd);
    [destruct hashes; [done | cbn; lia] |].
  destruct (pad_loop_ok k d (length hashes) hashes Hhashes Hk Hd)
    as (padded & k' & -> & Hpadded).
  rewrite bind_Ok.
  destruct (proof_loop blake3 k' (length padded) padded [] target_index Hpadded)
    as [index' ->].
  - rewrite Hpadded. apply Nat.lt_le_incl, Nat.pow_gt_lin_r. lia.
  - rewrite bind_Ok, path_negative by done. reflexivity.
Qed.

Lemma sibling_from_position (m : nat) (j : Z) (rest : list string) (i : nat) :
  length rest = (2 * m)%nat → 0 <= j → (i < 2 * m)%nat →
  ∃ h, sibling_from (2 * j) rest (2 * j + Z.of_nat i)
       = [(h, if Z.testbit (2 * j + Z.of_nat i) 0 then "left" else "right")].
Proof.
  revert j rest i. induction m as [| m IH]; intros j rest i Hlen Hj Hi; [lia |].
  destruct rest as [| a [| b rest]]; cbn in Hlen; try lia.
  cbn [sibling_from]. rewrite Z.bit0_odd.
  destruct i as [| [| i]].
  - exists b.
    assert ((2 * j / 2 =? (2 * j + Z.of_nat 0) / 2) = true) as ->
      by (apply Z.eqb_eq; div_lia).
    assert (((2 * j + Z.of_nat 0) mod 2 =? 0) = true) as ->
      by (apply Z.eqb_eq; div_lia).
    replace (Z.odd (2 * j + Z.of_nat 0)) with false
      by (rewrite Z.odd_add, Z.odd_mul; done).
    replace (2 * j + 2) with (2 * (j + 1)) by lia.
    rewrite sibling_from_before by lia. done.
  - exists a.
    assert ((2 * j / 2 =? (2 * j + Z.of_nat 1) / 2) = true) as ->
      by (apply Z.eqb_eq; div_lia).
    assert (((2 * j + Z.of_nat 1) mod 2 =? 0) = false) as ->
      by (apply Z.eqb_neq; div_lia).
    replace (Z.odd (2 * j + Z.of_nat 1)) with true
      by (rewrite Z.odd_add, Z.odd_mul; done).
    replace (2 * j + 2) with (2 * (j + 1)) by lia.
    rewrite sibling_from_before by lia. done.
  - assert ((2 * j / 2 =? (2 * j + Z.of_nat (S (S i))) / 2) = false) as ->
      by (apply Z.eqb_neq; div_lia).
    destruct (IH (j + 1) rest i) as [h Hh]; [lia | lia | lia |].
    exists h. cbn [app].
    replace (2 * j + 2) with (2 * (j + 1)) by lia.
    replace (2 * j + Z.of_nat (S (S i))) with (2 * (j + 1) + Z.of_nat i) by lia.
    by rewrite Hh, Z.bit0_odd.
Qed.

Lemma path_positions (k : nat) (hashes : list string) (i : nat) :
  length hashes = (2 ^ k)%nat → (i < 2 ^ k)%nat →
  (path blake3 k hashes (Z.of_nat i)).*2 = positions k (Z.of_nat i).
Proof.
  revert hashes i. induction k as [| k IH]; intros hashes i Hlen Hi; [done |].
  rewrite Nat.pow_succ_r' in Hlen, Hi.
  destruct (sibling_from_position (2 ^ k) 0 hashes i Hlen) as [h Hh]; [lia | lia |].
  change (2 * 0 + Z.of_nat i) with (Z.of_nat i) in Hh.
  change (2 * 0) with 0 in Hh.
  cbn [path]. rewrite Hh, fmap_app. cbn [fmap list_fmap app snd].
  unfold positions. cbn [seq fmap list_fmap]. f_equal.
  change 2 with (Z.of_nat 2). rewrite <- (Nat2Z.inj_div i 2).
  rewrite IH.
  - unfold positions. rewrite <- seq_shift, <- list_fmap_compose.
    apply list_fmap_ext. intros _ j _. cbn beta. unfold compose.
    rewrite Nat2Z.inj_div. change (Z.of_nat 2) with 2.
    rewrite <- Z.div2_div, Z.div2_spec, Z.shiftr_spec by lia.
    by replace (Z.of_nat j + 1) with (Z.of_nat (S j)) by lia.
  - by apply level_length.
  - pose proof (Nat.div_mod_eq i 2). pose proof (Nat.mod_upper_bound i 2). lia.
Qed.

Lemma least_power_of_two (n : nat) :
  (0 < n)%nat → ∃ k d : nat, (n + d = 2 ^ k)%nat ∧ (d < n)%nat.
Proof.
  induction n as [| n IH]; [lia |]. intros _.
  destruct n as [| n]; [exists 0%nat, 0%nat; cbn; lia |].
  destruct IH as (k & d & Hk & Hd); [lia |].
  destruct d as [| d].
  - exists (S k), n. rewrite Nat.pow_succ_r'. lia.
  - exists k, d. lia.
Qed.

Lemma pow2_lt_inj (j k : nat) : (2 ^ j < 2 ^ k)%nat → (j < k)%nat.
Proof.
  intros Hlt. destruct (decide (j < k)%nat) as [| Hge]; [done |].
  pose proof (Nat.pow_le_mono_r 2 k j). lia.
Qed.

Lemma pad_loop_exact (k d fuel : nat) (hashes : list string) (x : string) :
  (length (hashes ++ [x]) + d = 2 ^ k)%nat → (d < length (hashes ++ [x]))%nat →
  (d ≤ fuel)%nat →
  while fuel not_power_of_two pad_step (hashes ++ [x])
  = Ok (hashes ++ [x] ++ replicate d x).
Proof.
  revert fuel hashes. induction d as [| d IH]; intros fuel hashes Hlen Hd Hfuel.
  - rewrite while_exit; [done |].
    unfold not_power_of_two.
    replace (length (hashes ++ [x])) with (2 ^ k)%nat by lia.
    by rewrite power_of_two_land.
  - destruct fuel as [| fuel]; [lia |].
    rewrite while_unfold.
    + assert (pad_step (hashes ++ [x]) = Ok ((hashes ++ [x]) ++ [x])) as ->
        by (unfold pad_step; by rewrite py_index_last, !bind_Ok).
      rewrite bind_Ok, (IH fuel (hashes ++ [x])).
      * rewrite <- !app_assoc. cbn [app replicate]. done.
      * rewrite !length_app in *. cbn [length] in *. lia.
      * rewrite !length_app in *. cbn [length] in *. lia.
      * lia.
    + unfold not_power_of_two. apply negb_true_iff, Z.eqb_neq. intros Hland.
      assert (0 < Z.of_nat (length (hashes ++ [x]))) as Hpos
        by (rewrite length_app; cbn [length]; lia).
      destruct (land_pred_power_of_two _ Hpos Hland) as [j Hj].
      assert (length (hashes ++ [x]) = 2 ^ j)%nat as Hj'
        by (apply Nat2Z.inj; rewrite Hj, Nat2Z.inj_pow; done).
      assert (j < k)%nat as Hjk by (apply pow2_lt_inj; lia).
      assert (k < S j)%nat as Hkj
        by (apply pow2_lt_inj; rewrite Nat.pow_succ_r'; lia).
      lia.
Qed.

(** X5. The proof of a receipt that is in the list has one entry per level
    of the tree over the leaves padded to the next power of two, [k]
    entries where [2^k] is the least power of two that is no less than the
    number of receipts; the sibling of each level is on the left exactly
    where the bit of the index is set. *)
Theorem generate_merkle_proof_shape (receipts : list json) (i : nat) :
  (i < length receipts)%nat →
  ∃ (k : nat) proof,
    generate_merkle_proof blake3 receipts (Z.of_nat i) = Ok proof
    ∧ (length receipts ≤ 2 ^ k < 2 * length receipts)%nat
    ∧ length proof = k
    ∧ proof.*2 = positions k (Z.of_nat i).
Proof.
  intros Hi.
  set (hashes := (λ r, dual_hash blake3 (PyStr (Json.dumps r))) <$> receipts).
  assert (length hashes = length receipts) as Hhashes
    by (subst hashes; by rewrite length_fmap).
  destruct (least_power_of_two (length hashes)) as (k & d & Hk & Hd); [lia |].
  destruct (exists_last (l := hashes)) as (pre & x & Hlast);
    [intros Hnil; rewrite Hnil in Hhashes; cbn in Hhashes; lia |].
  set (padded := pre ++ [x] ++ replicate d x).
  assert (length padded = (2 ^ k)%nat) as Hpadded.
  { subst padded. rewrite app_assoc, length_app, length_replicate, <- Hlast. lia. }
  assert (k ≤ 2 ^ k)%nat as Hfuel
    by (apply Nat.lt_le_incl, Nat.pow_gt_lin_r; lia).
  destruct (proof_loop blake3 k (2 ^ k) padded [] (Z.of_nat i) Hpadded Hfuel)
    as [index' Hloop].
  exists k, (path blake3 k padded (Z.of_nat i)).
  assert ((path blake3 k padded (Z.of_nat i)).*2 = positions k (Z.of_nat i))
    as Hpos by (apply path_positions; [done | lia]).
  split; [| split; [lia | split; [| done]]].
  - unfold generate_merkle_proof.
    rewrite bool_decide_eq_false_2
      by (intros ->; cbn in Hi; lia).
    replace (Z.of_nat (length receipts) <=? Z.of_nat i) with false
      by (symmetry; apply Z.leb_gt; lia).
    cbn [orb]. fold hashes. rewrite Hlast.
    rewrite (pad_loop_exact k d) by (rewrite <- ?Hlast; lia).
    fold padded. rewrite bind_Ok, Hpadded, Hloop, bind_Ok. reflexivity.
  - rewrite <- (length_fmap snd), Hpos. unfold positions.
    by rewrite length_fmap, length_seq.
Qed.

End MerkleShape.

(** The proof of the third of four receipts verifies against their
    root. *)
Lemma merkle_proof_sound_power_of_two_witness :
  ∃ proof root,
    generate_merkle_proof None (take 4 six_receipts) 2 = Ok proof
    ∧ merkle None (take 4 six_receipts) = Ok root
    ∧ verify_merkle_proof None (JDict {[ "n" := JInt 2 ]}) proof root = true.
Proof.
  apply (merkle_proof_sound_power_of_two None (take 4 six_receipts) 2 2);
    reflexivity.
Defined.

(** Three receipts and four, the fourth a copy of the third, have the
    same root. *)
Lemma merkle_duplicate_last_witness :
  merkle None (take 2 six_receipts ++ [JNull; JNull])
  = merkle None (take 2 six_receipts ++ [JNull]).
Proof.
  apply (merkle_duplicate_last None (take 2 six_receipts) JNull);
    [done | reflexivity].
Defined.

(** Index [-1] does not reach the last of six receipts, and index [6] is
    past it. *)
Lemma generate_merkle_proof_out_of_range_witness :
  generate_merkle_proof None six_receipts (-1) = Ok []
  ∧ generate_merkle_proof None six_receipts 6 = Ok [].
Proof.
  split; apply generate_merkle_proof_out_of_range; [left | right]; cbn; lia.
Defined.

(** The proof of the sixth of six receipts has three entries, all three
    for the index [5 = 0b101]: left, right, left. *)
Lemma generate_merkle_proof_shape_witness :
  ∃ (k : nat) proof,
    generate_merkle_proof None six_receipts (Z.of_nat 5) = Ok proof
    ∧ (length six_receipts ≤ 2 ^ k < 2 * length six_receipts)%nat
    ∧ length proof = k
    ∧ proof.*2 = positions k (Z.of_nat 5).
Proof.
  apply (generate_merkle_proof_shape None six_receipts 5). cbn. lia.
Defined.

(** ** Receipt chains *)

Section Chains.

Variable blake3 : option (bytes → string).

Lemma add_receipt_unsealed (self : ReceiptChain.t) (receipt : json) :
  ReceiptChain.is_sealed self = false →
  ∃ root,
    merkle blake3 (ReceiptChain.receipts self ++ [receipt]) = Ok root
    ∧ ReceiptChain.add_receipt blake3 self receipt
      = (Return (),
         ReceiptChain.Make (ReceiptChain.chain_id self)
           (ReceiptChain.receipts self ++ [receipt]) root
           (ReceiptChain.anchor_hash self) false).
Proof.
  intros Hopen. unfold ReceiptChain.add_receipt. rewrite Hopen. cbn.
  destruct (merkle_total blake3 (ReceiptChain.receipts self ++ [receipt]))
    as [root Hroot].
  exists root. by rewrite Hroot.
Qed.

Lemma seal_spec (self : ReceiptChain.t) :
  ∃ root,
    merkle blake3 (ReceiptChain.receipts self) = Ok root
    ∧ ReceiptChain.seal blake3 self
      = (Return (),
         ReceiptChain.Make (ReceiptChain.chain_id self)
           (ReceiptChain.receipts self) root
           (dual_hash blake3 (PyBytes (encode_utf8 root))) true).
Proof.
  unfold ReceiptChain.seal.
  destruct (merkle_total blake3 (ReceiptChain.receipts self)) as [root Hroot].
  exists root. by rewrite Hroot.
Qed.

Lemma dual_hash_not_empty (data : hash_input) :
  dual_hash blake3 data ≠ EmptyString.
Proof.
  destruct (dual_hash_chars blake3 data) as (sha & b3 & Hchars & _).
  intros Hempty. rewrite Hempty in Hchars. by destruct sha.
Qed.

(** X6. A sealed chain is frozen. [seal] returns on every chain and leaves it
    sealed, with the root of its receipts and the dual hash of that root
    as its anchor hash; from then on [add_receipt] raises [ValueError] and
    changes nothing, [seal] changes nothing, and so does every sequence of
    calls. *)
Theorem sealed_chain_frozen (self : ReceiptChain.t) (calls : list call)
    (receipt : json) :
  let sealed := (ReceiptChain.seal blake3 self).2 in
  (ReceiptChain.seal blake3 self).1 = Return ()
  ∧ ReceiptChain.is_sealed sealed = true
  ∧ ReceiptChain.receipts sealed = ReceiptChain.receipts self
  ∧ merkle blake3 (ReceiptChain.receipts self)
    = Ok (ReceiptChain.merkle_root sealed)
  ∧ ReceiptChain.anchor_hash sealed
    = dual_hash blake3 (PyBytes (encode_utf8 (ReceiptChain.merkle_root sealed)))
  ∧ ReceiptChain.add_receipt blake3 sealed receipt
    = (Throw (ValueError "Cannot add to sealed chain"), sealed)
  ∧ ReceiptChain.seal blake3 sealed = (Return (), sealed)
  ∧ run blake3 calls sealed = sealed.
Proof.
  destruct (seal_spec self) as (root & Hroot & Hseal).
  rewrite Hseal. cbn [fst snd]. cbv zeta.
  set (sealed := ReceiptChain.Make _ _ _ _ _).
  assert (ReceiptChain.seal blake3 sealed = (Return (), sealed)) as Hagain.
  { destruct (seal_spec sealed) as (root' & Hroot' & ->).
    cbn in Hroot'. rewrite Hroot in Hroot'. by injection Hroot' as <-. }
  assert (∀ r, ReceiptChain.add_receipt blake3 sealed r
               = (Throw (ValueError "Cannot add to sealed chain"), sealed))
    as Hadd by done.
  repeat split; try done.
  induction calls as [| [r |] calls IH]; [done | |];
    unfold run in *; cbn [foldl run_call].
  - by rewrite Hadd.
  - by rewrite Hagain.
Qed.

(** X7. On a chain that is not sealed every [add_receipt] returns and appends:
    after any number of them the chain holds the receipts it had and the
    added ones in order, it is still not sealed, and after the first its
    [merkle_root] is the root of all its receipts. *)
Theorem unsealed_chain_grows (self : ReceiptChain.t) (added : list json) :
  ReceiptChain.is_sealed self = false →
  let self' := run blake3 (AddReceipt <$> added) self in
  ReceiptChain.receipts self' = ReceiptChain.receipts self ++ added
  ∧ ReceiptChain.is_sealed self' = false
  ∧ ReceiptChain.chain_id self' = ReceiptChain.chain_id self
  ∧ ReceiptChain.anchor_hash self' = ReceiptChain.anchor_hash self
  ∧ (added ≠ [] →
     merkle blake3 (ReceiptChain.receipts self')
     = Ok (ReceiptChain.merkle_root self')).
Proof.
  intros Hopen. cbv zeta. revert self Hopen.
  induction added as [| receipt added IH] using rev_ind; intros self Hopen.
  - cbn. by rewrite app_nil_r.
  - rewrite fmap_app. unfold run in *. rewrite foldl_app. cbn [fmap list_fmap foldl].
    destruct (IH self Hopen) as (Hreceipts & Hopen' & Hid & Hanchor & _).
    set (self' := foldl (run_call blake3) self (AddReceipt <$> added)) in *.
    cbn [run_call].
    destruct (add_receipt_unsealed self' receipt Hopen') as (root & Hroot & ->).
    cbn [snd ReceiptChain.receipts ReceiptChain.is_sealed ReceiptChain.chain_id
         ReceiptChain.anchor_hash ReceiptChain.merkle_root].
    rewrite Hreceipts, <- app_assoc in *. done.
Qed.

(** X8. A new chain is the exception: its [merkle_root] is the empty string,
    which is not the root [merkle] gives for the empty list (nor any
    root); [seal] puts it right. *)
Theorem new_chain_root (chain_id : string) :
  ReceiptChain.merkle_root (ReceiptChain.new chain_id) = EmptyString
  ∧ (∀ items, merkle blake3 items ≠ Ok EmptyString)
  ∧ merkle blake3 (ReceiptChain.receipts (ReceiptChain.new chain_id))
    = Ok (ReceiptChain.merkle_root
            (ReceiptChain.seal blake3 (ReceiptChain.new chain_id)).2).
Proof.
  split; [done |]. split; [| done].
  intros items Hroot.
  destruct (merkle_dual_hash blake3 items) as (root & data & Hroot' & ->).
  rewrite Hroot in Hroot'. injection Hroot' as Hempty.
  by apply (dual_hash_not_empty data).
Qed.

End Chains.

(** Two receipts added to a new chain. *)
Lemma unsealed_chain_grows_witness :
  let self' := run None (AddReceipt <$> take 2 six_receipts)
                 (ReceiptChain.new "chain") in
  ReceiptChain.receipts self' = ReceiptChain.receipts (ReceiptChain.new "chain")
                                ++ take 2 six_receipts
  ∧ ReceiptChain.is_sealed self' = false
  ∧ ReceiptChain.chain_id self' = "chain"
  ∧ ReceiptChain.anchor_hash self' = EmptyString
  ∧ (take 2 six_receipts ≠ [] →
     merkle None (ReceiptChain.receipts self')
     = Ok (ReceiptChain.merkle_root self')).
Proof.
  apply (unsealed_chain_grows None (ReceiptChain.new "chain") (take 2 six_receipts)).
  reflexivity.
Defined.

(** ** Emission to the ledger, anchors *)

Section Emission.

Variable blake3 : option (bytes → string).

Lemma emit_receipt_clock rt data to_file w :
  clock (emit_receipt blake3 rt data to_file w).2 = clock w
  ∧ ticks (emit_receipt blake3 rt data to_file w).2 = S (ticks w)
  ∧ ledger_writable (emit_receipt blake3 rt data to_file w).2 = ledger_writable w.
Proof.
  unfold emit_receipt.
  destruct (deref w data !! "tenant_id"); cbn;
    destruct to_file; unfold append_ledger; cbn;
    try destruct (ledger_writable w) eqn:Hw; done.
Qed.

Lemma emit_receipt_to_file rt data w :
  ledger (emit_receipt blake3 rt data true w).2
  = if ledger_writable w
    then ledger w
         ++ [Json.dumps (JDict (emit_receipt blake3 rt data true w).1) +:+ newline]
    else ledger w.
Proof.
  unfold emit_receipt.
  destruct (deref w data !! "tenant_id"); cbn; unfold append_ledger; cbn;
    destruct (ledger_writable w); done.
Qed.

(** X9. With [to_file] the line that is printed is also appended to the
    ledger, followed by a newline; where the ledger cannot be opened the
    failure is silent: the ledger is unchanged, and the receipt, the
    output and the payload are those of a call without [to_file]. *)
Theorem emit_receipt_ledger_line rt data (w : world) :
  let emitted := emit_receipt blake3 rt data true w in
  let printed := emit_receipt blake3 rt data false w in
  emitted.1 = printed.1
  ∧ stdout emitted.2 = stdout w ++ [Json.dumps (JDict emitted.1)]
  ∧ heap emitted.2 = heap printed.2
  ∧ ledger printed.2 = ledger w
  ∧ (ledger_writable w = true →
     ledger emitted.2 = ledger w ++ [Json.dumps (JDict emitted.1) +:+ newline])
  ∧ (ledger_writable w = false → emitted.2 = printed.2).
Proof.
  cbv zeta. split; [| split; [apply emit_receipt_stdout | split; [| split;
    [apply emit_receipt_ledger | split]]]].
  - unfold emit_receipt. by destruct (deref w data !! "tenant_id").
  - unfold emit_receipt.
    destruct (deref w data !! "tenant_id"); cbn; unfold append_ledger; cbn;
      destruct (ledger_writable w); done.
  - intros Hw. by rewrite emit_receipt_to_file, Hw.
  - intros Hw. unfold emit_receipt.
    destruct (deref w data !! "tenant_id"); cbn; unfold append_ledger; cbn;
      by rewrite Hw.
Qed.

Lemma with_tenant_idemp (d : dict) : with_tenant (with_tenant d) = with_tenant d.
Proof.
  unfold with_tenant at 1. by rewrite with_tenant_lookup_tenant.
Qed.

Lemma reserved_entries_ts rt ts (d : dict) :
  reserved_entries blake3 rt ts d !! "ts" = Some (JStr ts).
Proof. unfold reserved_entries. by simplify_map_eq. Qed.

Lemma receipt_lookup_except_ts rt ts ts' (d : dict) k :
  k ≠ "ts" →
  dict_update (reserved_entries blake3 rt ts d) d !! k
  = dict_update (reserved_entries blake3 rt ts' d) d !! k.
Proof.
  intros Hk. unfold dict_update. rewrite !lookup_union.
  f_equal. unfold reserved_entries.
  destruct (decide (k = "payload_hash")) as [-> | ?]; [by simplify_map_eq |].
  destruct (decide (k = "tenant_id")) as [-> | ?]; [by simplify_map_eq |].
  destruct (decide (k = "receipt_type")) as [-> | ?]; by simplify_map_eq.
Qed.

(** X10. Emitting the same payload object a second time gives the same receipt
    but for the time stamp: the second call finds the tenant the first
    call wrote into the payload, leaves the payload alone, and computes
    the same [payload_hash]; where the payload has a [ts] of its own the
    two receipts are equal. *)
Theorem emit_receipt_twice rt data to_file (w : world) (d : dict) :
  heap w !! data = Some d →
  let first := emit_receipt blake3 rt data to_file w in
  let second := emit_receipt blake3 rt data to_file first.2 in
  heap second.2 = heap first.2
  ∧ (∀ k, k ≠ "ts" → second.1 !! k = first.1 !! k)
  ∧ (d !! "ts" = None →
     first.1 !! "ts" = Some (JStr (clock w (ticks w)))
     ∧ second.1 !! "ts" = Some (JStr (clock w (S (ticks w)))))
  ∧ (is_Some (d !! "ts") → second.1 = first.1).
Proof.
  intros Hd. cbv zeta.
  pose proof (emit_receipt_heap blake3 rt data to_file w d Hd) as Hheap.
  assert (heap (emit_receipt blake3 rt data to_file w).2 !! data
          = Some (with_tenant d)) as Hd'
    by (by rewrite Hheap, lookup_insert_eq).
  destruct (emit_receipt_clock rt data to_file w) as (Hclock & Hticks & _).
  rewrite (emit_receipt_receipt blake3 rt data to_file _ _ Hd').
  rewrite (emit_receipt_heap blake3 rt data to_file _ _ Hd').
  rewrite (emit_receipt_receipt blake3 rt data to_file w d Hd).
  rewrite with_tenant_idemp, Hclock, Hticks.
  split; [by rewrite insert_id |].
  split; [intros k Hk; by apply receipt_lookup_except_ts |]. split.
  - intros Hts.
    rewrite !receipt_lookup_reserved by (by rewrite with_tenant_lookup_ne).
    by rewrite !reserved_entries_ts.
  - intros [ts Hts]. apply map_eq. intros k.
    destruct (decide (k = "ts")) as [-> | Hk];
      [| by apply receipt_lookup_except_ts].
    rewrite !(receipt_lookup_payload blake3 _ _ _ _ ts); [done | |];
      by apply with_tenant_lookup_Some.
Qed.

End Emission.

(** The spoofed payload, emitted twice in the sample world. *)
Lemma emit_receipt_twice_witness :
  let w := sample_world {[ 1%positive := spoofed_payload ]} in
  let first := emit_receipt None "test" 1%positive false w in
  let second := emit_receipt None "test" 1%positive false first.2 in
  heap second.2 = heap first.2
  ∧ (∀ k, k ≠ "ts" → second.1 !! k = first.1 !! k)
  ∧ (spoofed_payload !! "ts" = None →
     first.1 !! "ts" = Some (JStr (clock w (ticks w)))
     ∧ second.1 !! "ts" = Some (JStr (clock w (S (ticks w)))))
  ∧ (is_Some (spoofed_payload !! "ts") → second.1 = first.1).
Proof.
  apply (emit_receipt_twice None "test" 1%positive false
           (sample_world {[ 1%positive := spoofed_payload ]}) spoofed_payload).
  by apply lookup_singleton_eq.
Defined.

Section Anchors.

Variable blake3 : option (bytes → string).

Lemma reserved_entries_receipt_type rt ts (d : dict) :
  reserved_entries blake3 rt ts d !! "receipt_type" = Some (JStr rt).
Proof. unfold reserved_entries. by simplify_map_eq. Qed.

(** The emission of a payload that was just built, with a tenant of its
    own and no [receipt_type] and [ts]. *)
Lemma fresh_emission rt (payload : dict) (w : world) :
  payload !! "tenant_id" = Some (JStr TENANT_ID) →
  payload !! "receipt_type" = None → payload !! "ts" = None →
  let at_ := alloc payload w in
  let em := emit_receipt blake3 rt at_.1 false at_.2 in
  emitted w em.2 em.1 rt
  ∧ em.1 !! "ts" = Some (JStr (clock w (ticks w)))
  ∧ (∀ k v, payload !! k = Some v → em.1 !! k = Some v)
  ∧ clock em.2 = clock w ∧ ticks em.2 = S (ticks w).
Proof.
  intros Htenant Htype Hts. cbv zeta.
  pose proof (alloc_lookup payload w) as Hd.
  destruct (alloc_outputs payload w) as [Hout Hled].
  destruct (emit_receipt_clock blake3 rt (alloc payload w).1 false (alloc payload w).2)
    as (Hclock & Hticks & _).
  unfold emitted.
  rewrite emit_receipt_stdout, emit_receipt_ledger, Hout, Hled, Hclock, Hticks.
  rewrite (emit_receipt_receipt blake3 _ _ _ _ payload Hd).
  assert (with_tenant payload = payload) as ->
    by (unfold with_tenant; by rewrite Htenant).
  repeat split; try done.
  - rewrite receipt_lookup_reserved by done. apply reserved_entries_receipt_type.
  - by apply receipt_lookup_payload.
  - rewrite receipt_lookup_reserved by done. apply reserved_entries_ts.
  - intros k v Hk. by apply receipt_lookup_payload.
Qed.

Lemma create_anchor_spec (receipts : list json) (anchor_type : string)
    (w : world) :
  ∃ root anchor receipt w',
    create_anchor blake3 receipts anchor_type w = (Ok anchor, w')
    ∧ merkle blake3 receipts = Ok root
    ∧ anchor !! "anchor_type" = Some (JStr anchor_type)
    ∧ anchor !! "merkle_root" = Some (JStr root)
    ∧ anchor !! "receipt_count" = Some (JInt (Z.of_nat (length receipts)))
    ∧ anchor !! "anchor_hash"
      = Some (JStr (dual_hash blake3 (PyBytes (encode_utf8 root))))
    ∧ anchor !! "timestamp" = Some (JStr (clock w (ticks w)))
    ∧ emitted w w' receipt "anchor"
    ∧ receipt !! "merkle_root" = Some (JStr root)
    ∧ receipt !! "anchor_hash"
      = Some (JStr (dual_hash blake3 (PyBytes (encode_utf8 root))))
    ∧ receipt !! "batch_size" = Some (JInt (Z.of_nat (length receipts)))
    ∧ receipt !! "hash_algos" = Some (JList [JStr "SHA256"; JStr "BLAKE3"])
    ∧ receipt !! "ts" = Some (JStr (clock w (S (ticks w))))
    ∧ clock w' = clock w ∧ ticks w' = S (S (ticks w)).
Proof.
  destruct (merkle_total blake3 receipts) as [root Hroot].
  unfold create_anchor. rewrite Hroot. unfold utc_now.
  set (w1 := World (heap w) (clock w) (S (ticks w)) (stdout w)
               (ledger_writable w) (ledger w)).
  set (payload := <["anchor_hash" := _]> _).
  pose proof (fresh_emission "anchor" payload w1) as Hem. cbv zeta in Hem.
  destruct (alloc payload w1) as [data w2]. cbn [fst snd] in Hem.
  destruct (emit_receipt blake3 "anchor" data false w2) as [receipt w3].
  cbn [fst snd] in Hem.
  destruct Hem as ((Hout & Hled & Htype & Htenant) & Hts & Hpayload & Hclock & Hticks);
    try done.
  eexists root, _, receipt, w3.
  split; [reflexivity |]. split; [done |].
  repeat split; try done; try (by apply Hpayload).
Qed.

(** X11. [create_anchor] returns an anchor for every list of receipts: it
    holds the root [merkle] gives for them, their number, and the dual
    hash of the root as its anchor hash. One receipt of type ["anchor"] is
    emitted, with the same root and anchor hash and the number of
    receipts as its batch size; it names [BLAKE3] among the hash
    algorithms whether or not the package is there. The anchor's time
    stamp and the receipt's are two successive readings of the clock. *)
Theorem create_anchor_emits (receipts : list json) (anchor_type : string)
    (w : world) :
  ∃ root anchor receipt w',
    create_anchor blake3 receipts anchor_type w = (Ok anchor, w')
    ∧ merkle blake3 receipts = Ok root
    ∧ anchor !! "anchor_type" = Some (JStr anchor_type)
    ∧ anchor !! "merkle_root" = Some (JStr root)
    ∧ anchor !! "receipt_count" = Some (JInt (Z.of_nat (length receipts)))
    ∧ anchor !! "anchor_hash"
      = Some (JStr (dual_hash blake3 (PyBytes (encode_utf8 root))))
    ∧ anchor !! "timestamp" = Some (JStr (clock w (ticks w)))
    ∧ emitted w w' receipt "anchor"
    ∧ receipt !! "merkle_root" = Some (JStr root)
    ∧ receipt !! "anchor_hash"
      = Some (JStr (dual_hash blake3 (PyBytes (encode_utf8 root))))
    ∧ receipt !! "batch_size" = Some (JInt (Z.of_nat (length receipts)))
    ∧ receipt !! "hash_algos" = Some (JList [JStr "SHA256"; JStr "BLAKE3"])
    ∧ receipt !! "ts" = Some (JStr (clock w (S (ticks w))))
    ∧ clock w' = clock w ∧ ticks w' = S (S (ticks w)).
Proof. apply create_anchor_spec. Qed.

End Anchors.

(** ** Proofs of findings *)

Section Findings.

Variable blake3 : option (bytes → string).

Lemma power_of_two_fold (receipts : list json) (k i : nat) (r : json) :
  length receipts = (2 ^ k)%nat → receipts !! i = Some r →
  ∃ proof root,
    generate_merkle_proof blake3 receipts (Z.of_nat i) = Ok proof
    ∧ merkle blake3 receipts = Ok root
    ∧ foldl (verify_step blake3) (dual_hash blake3 (PyStr (Json.dumps r))) proof
      = root.
Proof.
  intros Hlen Hr.
  pose proof (pow2_pos k) as Hpos.
  pose proof (lookup_lt_Some _ _ _ Hr) as Hi.
  set (hashes := (λ r, dual_hash blake3 (PyStr (Json.dumps r))) <$> receipts).
  assert (length hashes = (2 ^ k)%nat) as Hhashes
    by (subst hashes; by rewrite length_fmap).
  assert (hashes !! i = Some (dual_hash blake3 (PyStr (Json.dumps r)))) as Hleaf
    by (subst hashes; by rewrite list_lookup_fmap, Hr).
  assert (k ≤ 2 ^ k)%nat as Hfuel
    by (apply Nat.lt_le_incl, Nat.pow_gt_lin_r; lia).
  destruct (verify_path blake3 k hashes i _ Hhashes Hleaf) as (root & Htop & Hfold).
  destruct (proof_loop blake3 k (2 ^ k) hashes [] (Z.of_nat i) Hhashes Hfuel)
    as [index' Hloop].
  destruct receipts as [| r0 receipts]; [cbn in Hlen; lia |].
  exists (path blake3 k hashes (Z.of_nat i)), root. split; [| split; [| done]].
  - unfold generate_merkle_proof.
    rewrite bool_decide_eq_false_2 by done.
    replace (Z.of_nat (length (r0 :: receipts)) <=? Z.of_nat i) with false
      by (symmetry; apply Z.leb_gt; lia).
    cbn [orb]. fold hashes.
    rewrite while_exit
      by (unfold not_power_of_two; by rewrite Hhashes, power_of_two_land).
    rewrite bind_Ok, Hhashes, Hloop, bind_Ok. reflexivity.
  - unfold merkle. fold hashes.
    rewrite Hhashes, (merkle_loop_top blake3 k) by done.
    rewrite bind_Ok, Htop. reflexivity.
Qed.

(** X12. [prove_finding] returns for every finding and every list: it reports
    the finding provable exactly when the finding has a receipt whose
    serialisation is that of a receipt of the list, and says which of the
    two is missing otherwise. *)
Theorem prove_finding_provable (finding : dict) (all_receipts : list json) :
  ∃ result,
    prove_finding blake3 finding all_receipts = Ok result
    ∧ (result !! "provable" = Some (JBool true)
       ↔ ∃ receipt r, finding !! "receipt" = Some receipt
                      ∧ r ∈ all_receipts
                      ∧ Json.dumps r = Json.dumps receipt)
    ∧ (result !! "provable" = Some (JBool true)
       ∨ result = {[ "provable" := JBool false; "error" := JStr "no_receipt" ]}
         ∧ finding !! "receipt" = None
       ∨ result = {[ "provable" := JBool false;
                     "error" := JStr "receipt_not_in_chain" ]}
         ∧ is_Some (finding !! "receipt")).
Proof.
  unfold prove_finding.
  destruct (finding !! "receipt") as [receipt |] eqn:Hreceipt.
  - destruct (list_find _ all_receipts) as [[index r] |] eqn:Hfind.
    + apply list_find_Some in Hfind as (Hr & Hdumps & _).
      destruct (generate_merkle_proof_total blake3 all_receipts (Z.of_nat index))
        as [proof ->].
      destruct (merkle_total blake3 all_receipts) as [root ->].
      rewrite !bind_Ok. eexists. split; [reflexivity |].
      split; [| by left]. split; [| done].
      intros _. exists receipt, r. split; [done |].
      split; [by apply (list_elem_of_lookup_2 _ index) | done].
    + apply list_find_None in Hfind.
      eexists. split; [reflexivity |]. split.
      * split; [done |]. intros (receipt' & r & Heq & Hin & Hdumps).
        injection Heq as <-.
        rewrite Forall_forall in Hfind. by destruct (Hfind r Hin).
      * right. right. by split.
  - eexists. split; [reflexivity |]. split.
    + split; [done |]. by intros (receipt & r & Heq & _).
    + right. by left.
Qed.

Lemma proved_lookups (finding_type : json) (index : nat) (root : string)
    (proof : json) (is_valid : bool) :
  let result : dict :=
    <["verified" := JBool is_valid]>
    (<["proof" := proof]>
     (<["merkle_root" := JStr root]>
      (<["receipt_index" := JInt (Z.of_nat index)]>
       (<["finding_type" := finding_type]>
        (<["provable" := JBool true]> ∅))))) in
  result !! "provable" = Some (JBool true)
  ∧ result !! "finding_type" = Some finding_type
  ∧ result !! "receipt_index" = Some (JInt (Z.of_nat index))
  ∧ result !! "merkle_root" = Some (JStr root)
  ∧ result !! "proof" = Some proof
  ∧ result !! "verified" = Some (JBool is_valid).
Proof. cbv zeta. repeat split; by simplify_map_eq. Qed.

(** X13. Where the receipt of the finding is in the list, the finding is
    proved at the first index whose receipt has the same serialisation,
    with the proof and the root of the whole list, and [verified] is the
    result of checking that proof against that root. On a list of [2^k]
    receipts [verified] is true. *)
Theorem prove_finding_first_match (finding : dict) (all_receipts : list json)
    (receipt r : json) (i : nat) :
  finding !! "receipt" = Some receipt →
  all_receipts !! i = Some r → Json.dumps r = Json.dumps receipt →
  (∀ j y, all_receipts !! j = Some y → (j < i)%nat →
          Json.dumps y ≠ Json.dumps receipt) →
  ∃ result proof root,
    prove_finding blake3 finding all_receipts = Ok result
    ∧ generate_merkle_proof blake3 all_receipts (Z.of_nat i) = Ok proof
    ∧ merkle blake3 all_receipts = Ok root
    ∧ result !! "provable" = Some (JBool true)
    ∧ result !! "finding_type" = Some (default JNull (finding !! "finding_type"))
    ∧ result !! "receipt_index" = Some (JInt (Z.of_nat i))
    ∧ result !! "merkle_root" = Some (JStr root)
    ∧ result !! "proof" = Some (proof_json proof)
    ∧ result !! "verified"
      = Some (JBool (verify_merkle_proof blake3 receipt proof root))
    ∧ (∀ k : nat, length all_receipts = (2 ^ k)%nat →
         result !! "verified" = Some (JBool true)).
Proof.
  intros Hreceipt Hr Hdumps Hfirst.
  assert (list_find (λ r, Json.dumps r = Json.dumps receipt) all_receipts
          = Some (i, r)) as Hfind.
  { apply list_find_Some. split; [done |]. split; [done |].
    intros j y Hy Hj. by apply (Hfirst j). }
  unfold prove_finding. rewrite Hreceipt, Hfind.
  destruct (generate_merkle_proof_total blake3 all_receipts (Z.of_nat i))
    as [proof Hproof].
  destruct (merkle_total blake3 all_receipts) as [root Hroot].
  rewrite Hproof, Hroot, !bind_Ok.
  eexists _, proof, root. split; [reflexivity |]. split; [done |]. split; [done |].
  destruct (proved_lookups (default JNull (finding !! "finding_type")) i root
              (proof_json proof)
              (verify_receipt_inclusion blake3 receipt proof root))
    as (H1 & H2 & H3 & H4 & H5 & H6).
  repeat (split; [done |]).
  intros k Hlen. rewrite H6. do 2 f_equal.
  destruct (power_of_two_fold all_receipts k i r Hlen Hr)
    as (proof' & root' & Hproof' & Hroot' & Hfold).
  rewrite Hproof in Hproof'. injection Hproof' as <-.
  rewrite Hroot in Hroot'. injection Hroot' as <-.
  unfold verify_receipt_inclusion, verify_merkle_proof.
  rewrite <- Hdumps, Hfold. apply String.eqb_refl.
Qed.

End Findings.

(** A finding with the third of four receipts. *)
Lemma prove_finding_first_match_witness :
  ∃ result proof root,
    prove_finding None sample_finding (take 4 six_receipts) = Ok result
    ∧ generate_merkle_proof None (take 4 six_receipts) (Z.of_nat 2) = Ok proof
    ∧ merkle None (take 4 six_receipts) = Ok root
    ∧ result !! "provable" = Some (JBool true)
    ∧ result !! "finding_type"
      = Some (default JNull (sample_finding !! "finding_type"))
    ∧ result !! "receipt_index" = Some (JInt (Z.of_nat 2))
    ∧ result !! "merkle_root" = Some (JStr root)
    ∧ result !! "proof" = Some (proof_json proof)
    ∧ result !! "verified"
      = Some (JBool (verify_merkle_proof None (JDict {[ "n" := JInt 2 ]}) proof root))
    ∧ (∀ k : nat, length (take 4 six_receipts) = (2 ^ k)%nat →
         result !! "verified" = Some (JBool true)).
Proof.
  apply (prove_finding_first_match None sample_finding (take 4 six_receipts)
           (JDict {[ "n" := JInt 2 ]}) (JDict {[ "n" := JInt 2 ]}) 2);
    [reflexivity | reflexivity | reflexivity |].
  intros j y Hy Hj. destruct j as [| [| j]]; [| | lia];
    cbn in Hy; injection Hy as <-; vm_compute; discriminate.
Defined.

(** ** Proof chains and bundles *)

Section ProofChains.

Variable blake3 : option (bytes → string).

Lemma as_dicts_fmap (dicts : list dict) :
  as_dicts (JDict <$> dicts) = Return dicts.
Proof.
  induction dicts as [| d dicts IH]; [done |].
  cbn [fmap list_fmap as_dicts as_dict]. fold (fmap JDict dicts).
  by rewrite IH.
Qed.

Lemma match_nonempty {A B} (l : list A) (a b : B) :
  l ≠ [] → match l with [] => a | _ :: _ => b end = b.
Proof. by destruct l. Qed.

Lemma validate_receipt_chain_nonempty (dicts : list dict) :
  dicts ≠ [] →
  ∃ root,
    merkle blake3 (JDict <$> dicts) = Ok root
    ∧ validate_receipt_chain blake3 dicts
      = Ok (Validation (bool_decide (length (expected_errors 0 dicts) = 0%nat))
              (length dicts) (expected_errors 0 dicts) (Some root)).
Proof.
  intros Hne. destruct (merkle_total blake3 (JDict <$> dicts)) as [root Hroot].
  exists root. split; [done |].
  unfold validate_receipt_chain. destruct dicts as [| d dicts]; [done |].
  rewrite Hroot, bind_Ok, (check_receipts_spec blake3 0 (d :: dicts) []).
  reflexivity.
Qed.

Lemma prove_loop (receipts : list json) (i : nat) (dicts : list dict)
    (acc : list json) :
  ∃ entries,
    for_each (zip (seq i (length dicts)) dicts) (prove_receipt blake3 receipts) acc
    = Ok (acc ++ entries)
    ∧ length entries = length dicts
    ∧ ∀ j entry, entries !! j = Some entry →
        ∃ d proof,
          dicts !! j = Some d
          ∧ generate_merkle_proof blake3 receipts (Z.of_nat (i + j)) = Ok proof
          ∧ entry = JDict {[ "receipt_index" := JInt (Z.of_nat (i + j));
                             "receipt_type" := default JNull (d !! "receipt_type");
                             "proof" := proof_json proof ]}.
Proof.
  revert i acc. induction dicts as [| d dicts IH]; intros i acc.
  - exists []. cbn. by rewrite app_nil_r.
  - cbn [length seq zip zip_with for_each].
    destruct (generate_merkle_proof_total blake3 receipts (Z.of_nat i))
      as [proof Hproof].
    set (first := JDict {[ "receipt_index" := JInt (Z.of_nat i);
                           "receipt_type" := default JNull (d !! "receipt_type");
                           "proof" := proof_json proof ]}).
    assert (prove_receipt blake3 receipts acc (i, d) = Ok (acc ++ [first]))
      as Hstep by (unfold prove_receipt; by rewrite Hproof, bind_Ok).
    destruct (IH (S i) (acc ++ [first])) as (entries & Hloop & Hlen & Hentries).
    exists (first :: entries). split; [| split].
    + rewrite Hstep, bind_Ok, Hloop, <- app_assoc.
      reflexivity.
    + cbn [length]. by rewrite Hlen.
    + intros [| j] entry Hentry.
      * cbn in Hentry. injection Hentry as <-. exists d, proof.
        rewrite Nat.add_0_r. done.
      * cbn in Hentry. destruct (Hentries j entry Hentry) as (d' & proof' & ? & ? & ?).
        exists d', proof'. by rewrite Nat.add_succ_r.
Qed.

Lemma chain_lookups (valid : bool) (count : Z) (root : string) (anchor : dict)
    (proofs errors : list json) :
  let chain : dict :=
    <["validation_errors" := JList errors]>
    (<["proofs" := JList proofs]>
     (<["anchor" := JDict anchor]>
      (<["merkle_root" := JStr root]>
       (<["receipt_count" := JInt count]>
        (<["chain_valid" := JBool valid]> ∅))))) in
  chain !! "chain_valid" = Some (JBool valid)
  ∧ chain !! "receipt_count" = Some (JInt count)
  ∧ chain !! "merkle_root" = Some (JStr root)
  ∧ chain !! "anchor" = Some (JDict anchor)
  ∧ chain !! "proofs" = Some (JList proofs)
  ∧ chain !! "validation_errors" = Some (JList errors).
Proof. cbv zeta. repeat split; by simplify_map_eq. Qed.

Lemma build_proof_chain_spec (findings : list dict) (dicts : list dict)
    (w : world) :
  omap (λ finding : dict, finding !! "receipt") findings = JDict <$> dicts →
  dicts ≠ [] →
  ∃ chain root anchor anchor_receipt proofs (valid : bool) w',
    build_proof_chain blake3 findings w = (Return chain, w')
    ∧ merkle blake3 (JDict <$> dicts) = Ok root
    ∧ chain !! "chain_valid" = Some (JBool valid)
    ∧ (valid = true ↔ Forall has_required_fields dicts)
    ∧ chain !! "validation_errors"
      = Some (JList (error_json <$> expected_errors 0 dicts))
    ∧ chain !! "receipt_count" = Some (JInt (Z.of_nat (length dicts)))
    ∧ chain !! "merkle_root" = Some (JStr root)
    ∧ chain !! "anchor" = Some (JDict anchor)
    ∧ anchor !! "merkle_root" = Some (JStr root)
    ∧ anchor !! "anchor_hash"
      = Some (JStr (dual_hash blake3 (PyBytes (encode_utf8 root))))
    ∧ emitted w w' anchor_receipt "anchor"
    ∧ chain !! "proofs" = Some (JList proofs)
    ∧ length proofs = length dicts
    ∧ (∀ i entry, proofs !! i = Some entry →
         ∃ d proof,
           dicts !! i = Some d
           ∧ generate_merkle_proof blake3 (JDict <$> dicts) (Z.of_nat i) = Ok proof
           ∧ entry = JDict {[ "receipt_index" := JInt (Z.of_nat i);
                              "receipt_type" := default JNull (d !! "receipt_type");
                              "proof" := proof_json proof ]}).
Proof.
  intros Hreceipts Hne. unfold build_proof_chain. rewrite Hreceipts.
  rewrite match_nonempty by (by destruct dicts).
  rewrite as_dicts_fmap.
  destruct (validate_receipt_chain_nonempty dicts Hne) as (root & Hroot & ->).
  destruct (prove_loop (JDict <$> dicts) 0 dicts [])
    as (proofs & -> & Hlen & Hproofs).
  destruct (create_anchor_spec blake3 (JDict <$> dicts) "merkle" w)
    as (root' & anchor & receipt & w' & -> & Hroot' & _ & Hanchor_root & _
        & Hanchor_hash & _ & Hemitted & _).
  rewrite Hroot in Hroot'. injection Hroot' as <-.
  cbn [merkle_root valid errors app]. rewrite length_fmap.
  destruct (chain_lookups (bool_decide (length (expected_errors 0 dicts) = 0%nat))
              (Z.of_nat (length dicts)) root anchor proofs
              (error_json <$> expected_errors 0 dicts))
    as (H1 & H2 & H3 & H4 & H5 & H6).
  eexists _, root, anchor, receipt, proofs, _, w'.
  split; [reflexivity |]. split; [done |]. split; [exact H1 |]. split.
  { rewrite bool_decide_eq_true, length_zero_iff_nil. apply expected_errors_nil. }
  repeat (split; [done |]). done.
Qed.

(** X14. Where the findings carry receipts, all of them dicts,
    [build_proof_chain] returns a chain that agrees with itself: its root
    is the root [merkle] gives for the receipts, and so is the root of
    its anchor, whose hash is the dual hash of that root; it is declared
    valid exactly when every receipt has the four required fields, and
    lists the missing ones otherwise; it holds one proof for each receipt,
    in order, the one [generate_merkle_proof] gives for its index. One
    receipt, the anchor's, is emitted. *)
Theorem build_proof_chain_consistent (findings : list dict) (dicts : list dict)
    (w : world) :
  omap (λ finding : dict, finding !! "receipt") findings = JDict <$> dicts →
  dicts ≠ [] →
  ∃ chain root anchor anchor_receipt proofs (valid : bool) w',
    build_proof_chain blake3 findings w = (Return chain, w')
    ∧ merkle blake3 (JDict <$> dicts) = Ok root
    ∧ chain !! "chain_valid" = Some (JBool valid)
    ∧ (valid = true ↔ Forall has_required_fields dicts)
    ∧ chain !! "validation_errors"
      = Some (JList (error_json <$> expected_errors 0 dicts))
    ∧ chain !! "receipt_count" = Some (JInt (Z.of_nat (length dicts)))
    ∧ chain !! "merkle_root" = Some (JStr root)
    ∧ chain !! "anchor" = Some (JDict anchor)
    ∧ anchor !! "merkle_root" = Some (JStr root)
    ∧ anchor !! "anchor_hash"
      = Some (JStr (dual_hash blake3 (PyBytes (encode_utf8 root))))
    ∧ emitted w w' anchor_receipt "anchor"
    ∧ chain !! "proofs" = Some (JList proofs)
    ∧ length proofs = length dicts
    ∧ (∀ i entry, proofs !! i = Some entry →
         ∃ d proof,
           dicts !! i = Some d
           ∧ generate_merkle_proof blake3 (JDict <$> dicts) (Z.of_nat i) = Ok proof
           ∧ entry = JDict {[ "receipt_index" := JInt (Z.of_nat i);
                              "receipt_type" := default JNull (d !! "receipt_type");
                              "proof" := proof_json proof ]}).
Proof. apply build_proof_chain_spec. Qed.

Lemma as_dicts_Return (receipts : list json) (dicts : list dict) :
  as_dicts receipts = Return dicts → receipts = JDict <$> dicts.
Proof.
  revert dicts. induction receipts as [| r receipts IH]; intros dicts Hd.
  - by injection Hd as <-.
  - cbn [as_dicts] in Hd. destruct r; try done. cbn [as_dict] in Hd.
    destruct (as_dicts receipts) as [ds |]; [| done].
    injection Hd as <-. cbn. f_equal. by apply IH.
Qed.

(** What [build_proof_chain] returns, when it returns: the chain without
    receipts, or a chain with a validity and a root. *)
Lemma build_proof_chain_Return (findings : list dict) (w w1 : world)
    (chain : dict) :
  build_proof_chain blake3 findings w = (Return chain, w1) →
  (omap (λ finding : dict, finding !! "receipt") findings = []
   ∧ w1 = w
   ∧ chain = {[ "chain_valid" := JBool false; "error" := JStr "no_receipts" ]})
  ∨ (omap (λ finding : dict, finding !! "receipt") findings ≠ []
     ∧ ∃ (valid : bool) root,
         chain !! "chain_valid" = Some (JBool valid)
         ∧ chain !! "merkle_root" = Some (JStr root)
         ∧ merkle blake3 (omap (λ finding : dict, finding !! "receipt") findings)
           = Ok root).
Proof.
  intros Hbuild.
  destruct (omap (λ finding : dict, finding !! "receipt") findings)
    as [| r rs] eqn:Hreceipts.
  - left. unfold build_proof_chain in Hbuild. rewrite Hreceipts in Hbuild.
    by injection Hbuild as <- <-.
  - right. split; [done |].
    destruct (as_dicts (r :: rs)) as [dicts | e] eqn:Hdicts.
    + apply as_dicts_Return in Hdicts.
      assert (dicts ≠ []) as Hne by (intros ->; done).
      rewrite Hdicts in Hreceipts.
      destruct (build_proof_chain_spec findings dicts w Hreceipts Hne)
        as (chain' & root & anchor & receipt & proofs & valid & w' & Hbuild'
            & Hroot & Hvalid & _ & _ & _ & Hchain_root & _).
      rewrite Hbuild in Hbuild'. injection Hbuild' as <- <-.
      exists valid, root. by rewrite Hdicts.
    + unfold build_proof_chain in Hbuild. rewrite Hreceipts, Hdicts in Hbuild.
      done.
Qed.

Lemma bundle_lookups (bundle_id created_at bundle_hash : string) (count : Z)
    (chain : dict) :
  let bundle : dict :=
    <["bundle_hash" := JStr bundle_hash]>
    (<["verification_instructions" := JDict verification_instructions]>
     (<["findings_count" := JInt count]>
      (<["chain" := JDict chain]>
       (<["created_at" := JStr created_at]>
        (<["format_version" := JStr "1.0"]>
         (<["bundle_id" := JStr bundle_id]> ∅)))))) in
  bundle !! "bundle_id" = Some (JStr bundle_id)
  ∧ bundle !! "created_at" = Some (JStr created_at)
  ∧ bundle !! "chain" = Some (JDict chain)
  ∧ bundle !! "findings_count" = Some (JInt count)
  ∧ bundle !! "bundle_hash" = Some (JStr bundle_hash).
Proof. cbv zeta. repeat split; by simplify_map_eq. Qed.

Lemma bundle_payload_lookups (bundle_id bundle_hash : string) (count : Z)
    (chain_valid merkle_root : json) :
  let payload : dict :=
    <["bundle_hash" := JStr bundle_hash]>
    (<["merkle_root" := merkle_root]>
     (<["chain_valid" := chain_valid]>
      (<["findings_count" := JInt count]>
       (<["bundle_id" := JStr bundle_id]>
        (<["tenant_id" := JStr TENANT_ID]> ∅))))) in
  payload !! "tenant_id" = Some (JStr TENANT_ID)
  ∧ payload !! "receipt_type" = None
  ∧ payload !! "ts" = None
  ∧ payload !! "bundle_id" = Some (JStr bundle_id)
  ∧ payload !! "findings_count" = Some (JInt count)
  ∧ payload !! "chain_valid" = Some chain_valid
  ∧ payload !! "merkle_root" = Some merkle_root
  ∧ payload !! "bundle_hash" = Some (JStr bundle_hash).
Proof. cbv zeta. repeat split; by simplify_map_eq. Qed.

(** X15. Whenever [build_proof_chain] returns a chain, [export_proof_bundle]
    returns a bundle around it: the bundle holds the chain and the dual
    hash of the chain's serialisation, and one more receipt, of type
    ["proof_bundle"], is emitted after those of the chain, with the same
    hash and the chain's validity and root. For findings without any
    receipt the bundle is still exported and its receipt emitted, the
    only one, with a validity of false and a root of [null]. *)
Theorem export_proof_bundle_emits (findings : list dict) (bundle_id : string)
    (w w1 : world) (chain : dict) :
  build_proof_chain blake3 findings w = (Return chain, w1) →
  let bundle_hash :=
    dual_hash blake3 (PyBytes (encode_utf8 (Json.dumps (JDict chain)))) in
  ∃ bundle receipt w',
    export_proof_bundle blake3 findings bundle_id w = (Return bundle, w')
    ∧ bundle !! "bundle_id" = Some (JStr bundle_id)
    ∧ bundle !! "created_at" = Some (JStr (clock w1 (ticks w1)))
    ∧ bundle !! "chain" = Some (JDict chain)
    ∧ bundle !! "findings_count" = Some (JInt (Z.of_nat (length findings)))
    ∧ bundle !! "bundle_hash" = Some (JStr bundle_hash)
    ∧ emitted w1 w' receipt "proof_bundle"
    ∧ receipt !! "bundle_id" = Some (JStr bundle_id)
    ∧ receipt !! "findings_count" = Some (JInt (Z.of_nat (length findings)))
    ∧ receipt !! "bundle_hash" = Some (JStr bundle_hash)
    ∧ receipt !! "chain_valid" = chain !! "chain_valid"
    ∧ receipt !! "merkle_root" = Some (default JNull (chain !! "merkle_root"))
    ∧ (omap (λ finding : dict, finding !! "receipt") findings = [] →
       stdout w' = stdout w ++ [Json.dumps (JDict receipt)]
       ∧ receipt !! "chain_valid" = Some (JBool false)
       ∧ receipt !! "merkle_root" = Some JNull).
Proof.
  intros Hbuild bundle_hash.
  assert (∃ chain_valid, chain !! "chain_valid" = Some chain_valid)
    as [chain_valid Hvalid].
  { destruct (build_proof_chain_Return findings w w1 chain Hbuild)
      as [(_ & _ & ->) | (_ & valid & root & Hvalid & _)]; by eexists. }
  unfold export_proof_bundle. rewrite Hbuild, Hvalid. unfold utc_now.
  fold bundle_hash.
  set (w2 := World (heap w1) (clock w1) (S (ticks w1)) (stdout w1)
               (ledger_writable w1) (ledger w1)).
  destruct (bundle_payload_lookups bundle_id bundle_hash
              (Z.of_nat (length findings)) chain_valid
              (default JNull (chain !! "merkle_root")))
    as (Htenant & Htype & Hts & Hp1 & Hp2 & Hp3 & Hp4 & Hp5).
  cbv zeta in Htenant, Htype, Hts, Hp1, Hp2, Hp3, Hp4, Hp5.
  set (payload := <["bundle_hash" := _]> (<["merkle_root" := _]> _)) in *.
  pose proof (fresh_emission blake3 "proof_bundle" payload w2 Htenant Htype Hts)
    as Hem.
  cbv zeta in Hem.
  destruct (alloc payload w2) as [data w3]. cbn [fst snd] in Hem.
  destruct (emit_receipt blake3 "proof_bundle" data false w3) as [receipt w4].
  cbn [fst snd] in Hem.
  destruct Hem as ((Hout & Hled & Hrt & Hten) & _ & Hpayload & _).
  destruct (bundle_lookups bundle_id (clock w1 (ticks w1)) bundle_hash
              (Z.of_nat (length findings)) chain)
    as (Hb1 & Hb2 & Hb3 & Hb4 & Hb5).
  eexists _, receipt, w4. split; [reflexivity |].
  repeat (split; [done |]).
  split; [by apply Hpayload |]. split; [by apply Hpayload |].
  split; [by apply Hpayload |].
  split; [by apply Hpayload |].
  split; [by apply Hpayload |].
  intros Hnone.
  destruct (build_proof_chain_Return findings w w1 chain Hbuild)
    as [(_ & -> & ->) | (Hsome & _)]; [| done].
  split; [done |]. split.
  - apply Hpayload. rewrite Hp3. rewrite lookup_insert_eq in Hvalid.
    by injection Hvalid as <-.
  - by apply Hpayload.
Qed.

End ProofChains.

(** Two findings, one with a forged receipt and one with the receipt
    [{"n": 2}], which lacks the four fields. *)
Lemma build_proof_chain_consistent_witness :
  ∃ chain root anchor anchor_receipt proofs (valid : bool) w',
    build_proof_chain None
      [ {[ "receipt" := JDict forged_receipt ]}; sample_finding ]
      (sample_world ∅) = (Return chain, w')
    ∧ merkle None (JDict <$> [forged_receipt; {[ "n" := JInt 2 ]}]) = Ok root
    ∧ chain !! "chain_valid" = Some (JBool valid)
    ∧ (valid = true
       ↔ Forall has_required_fields [forged_receipt; {[ "n" := JInt 2 ]}])
    ∧ chain !! "validation_errors"
      = Some (JList (error_json
                       <$> expected_errors 0 [forged_receipt; {[ "n" := JInt 2 ]}]))
    ∧ chain !! "receipt_count"
      = Some (JInt (Z.of_nat (length [forged_receipt; {[ "n" := JInt 2 ]}])))
    ∧ chain !! "merkle_root" = Some (JStr root)
    ∧ chain !! "anchor" = Some (JDict anchor)
    ∧ anchor !! "merkle_root" = Some (JStr root)
    ∧ anchor !! "anchor_hash"
      = Some (JStr (dual_hash None (PyBytes (encode_utf8 root))))
    ∧ emitted (sample_world ∅) w' anchor_receipt "anchor"
    ∧ chain !! "proofs" = Some (JList proofs)
    ∧ length proofs = length [forged_receipt; ({[ "n" := JInt 2 ]} : dict)]
    ∧ (∀ i entry, proofs !! i = Some entry →
         ∃ d proof,
           [forged_receipt; {[ "n" := JInt 2 ]}] !! i = Some d
           ∧ generate_merkle_proof None
               (JDict <$> [forged_receipt; {[ "n" := JInt 2 ]}]) (Z.of_nat i)
             = Ok proof
           ∧ entry = JDict {[ "receipt_index" := JInt (Z.of_nat i);
                              "receipt_type" := default JNull (d !! "receipt_type");
                              "proof" := proof_json proof ]}).
Proof.
  apply (build_proof_chain_consistent None
           [ {[ "receipt" := JDict forged_receipt ]}; sample_finding ]
           [forged_receipt; {[ "n" := JInt 2 ]}] (sample_world ∅));
    [reflexivity | done].
Defined.

(** The bundle of no findings at all. *)
Lemma export_proof_bundle_emits_witness :
  let chain : dict :=
    {[ "chain_valid" := JBool false; "error" := JStr "no_receipts" ]} in
  let bundle_hash :=
    dual_hash None (PyBytes (encode_utf8 (Json.dumps (JDict chain)))) in
  ∃ bundle receipt w',
    export_proof_bundle None [] "bundle" (sample_world ∅) = (Return bundle, w')
    ∧ bundle !! "bundle_id" = Some (JStr "bundle")
    ∧ bundle !! "created_at"
      = Some (JStr (clock (sample_world ∅) (ticks (sample_world ∅))))
    ∧ bundle !! "chain" = Some (JDict chain)
    ∧ bundle !! "findings_count" = Some (JInt (Z.of_nat (length ([] : list dict))))
    ∧ bundle !! "bundle_hash" = Some (JStr bundle_hash)
    ∧ emitted (sample_world ∅) w' receipt "proof_bundle"
    ∧ receipt !! "bundle_id" = Some (JStr "bundle")
    ∧ receipt !! "findings_count"
      = Some (JInt (Z.of_nat (length ([] : list dict))))
    ∧ receipt !! "bundle_hash" = Some (JStr bundle_hash)
    ∧ receipt !! "chain_valid" = chain !! "chain_valid"
    ∧ receipt !! "merkle_root" = Some (default JNull (chain !! "merkle_root"))
    ∧ (omap (λ finding : dict, finding !! "receipt") [] = [] →
       stdout w' = stdout (sample_world ∅) ++ [Json.dumps (JDict receipt)]
       ∧ receipt !! "chain_valid" = Some (JBool false)
       ∧ receipt !! "merkle_root" = Some JNull).
Proof.
  apply (export_proof_bundle_emits None [] "bundle" (sample_world ∅)
           (sample_world ∅)).
  reflexivity.
Defined.

(** ** The normalised compression distance *)

Section CompressionDistance.

Variable deflate : bytes → bytes.
Variable mtime : Z.

(** X16. [compute_ncd] never divides by zero: a gzip member has at least the
    18 bytes of its header and trailer. It returns [1.0] when one of the
    inputs is empty; for two non-empty inputs it is the quotient of the
    docstring over the three gzip lengths, a number above [-1] (it is
    negative where the concatenation compresses to less than either
    input). *)
Theorem compute_ncd_defined (data1 data2 : bytes) :
  let c (data : bytes) := Z.of_nat (18 + length (deflate data)) in
  ∃ ncd,
    compute_ncd deflate mtime data1 data2 = Ok ncd
    ∧ (data1 = [] ∨ data2 = [] → ncd = 1%Q)
    ∧ (data1 ≠ [] → data2 ≠ [] →
       ncd = (inject_Z (c (data1 ++ data2) - Z.min (c data1) (c data2))
              / inject_Z (Z.max (c data1) (c data2)))%Q)
    ∧ (inject_Z (-1) < ncd)%Q.
Proof.
  intros c. unfold compute_ncd.
  destruct (bool_decide (data1 = []) || bool_decide (data2 = [])) eqn:Hempty.
  - exists 1%Q. split; [done |]. split; [done |]. split; [| done].
    intros Hne1 Hne2. apply orb_true_iff in Hempty as [H | H];
      by apply bool_decide_eq_true in H.
  - apply orb_false_iff in Hempty as [Hne1 Hne2].
    apply bool_decide_eq_false in Hne1, Hne2.
    rewrite !gzip_length. fold (c data1) (c data2) (c (data1 ++ data2)).
    unfold py_int_truediv.
    assert (0 < c data1 ∧ 0 < c data2 ∧ 0 < c (data1 ++ data2)) as (H1 & H2 & H12)
      by (unfold c; lia).
    replace (Z.max (c data1) (c data2) =? 0) with false
      by (symmetry; apply Z.eqb_neq; lia).
    eexists. split; [done |]. split; [by intros [? | ?] |]. split; [done |].
    apply Qlt_shift_div_l.
    + change 0%Q with (inject_Z 0). rewrite <- Zlt_Qlt. lia.
    + rewrite <- inject_Z_mult, <- Zlt_Qlt. lia.
Qed.

End CompressionDistance.

(** ** Baselines and the anomaly check *)

(** X17. A baseline that was set is the baseline that is read, for the pair
    it was set for and for every pair that gives the same key
    ["type:period"]; reading leaves the cache as it is. *)
Theorem set_baseline_then_read (entity_type period entity_type' period' : string)
    (mean std sample_size : float)
    (_baseline_cache : gmap string (gmap string float)) :
  cache_key entity_type' period' = cache_key entity_type period →
  entropy_baseline entity_type' period'
    (set_baseline entity_type period mean std sample_size _baseline_cache)
  = (baseline_dict mean std sample_size,
     set_baseline entity_type period mean std sample_size _baseline_cache).
Proof.
  intros Hkey. unfold entropy_baseline, set_baseline.
  by rewrite Hkey, lookup_insert_eq.
Qed.

(** The baseline set for [("a:b", "c")] is read for [("a", "b:c")]. *)
Lemma set_baseline_then_read_witness :
  entropy_baseline "a" "b:c" (set_baseline "a:b" "c" 1 2 3 ∅)
  = (baseline_dict 1 2 3, set_baseline "a:b" "c" 1 2 3 ∅).
Proof. by apply set_baseline_then_read. Defined.

Lemma baseline_dict_lookup (mean std sample_size : float) :
  baseline_dict mean std sample_size !! "mean" = Some mean
  ∧ baseline_dict mean std sample_size !! "std" = Some std.
Proof. split; reflexivity. Qed.

Lemma defaults_lookup (entity_type : string) :
  ∃ mean std sample_size,
    default (defaults !!! "default") (defaults !! entity_type)
    = baseline_dict mean std sample_size
    ∧ (std =? 0)%float = false.
Proof.
  unfold defaults.
  repeat (rewrite lookup_insert;
          destruct (decide (_ = entity_type)) as [<- |];
          [by eexists _, _, _ |]; cbn [decide_rel]).
  rewrite lookup_singleton.
  destruct (decide (_ = entity_type)) as [<- |]; by eexists _, _, _.
Qed.

(** X18. Where the cache has no entry for the key, [entropy_baseline] returns
    the default of the entity type (that of ["default"] for a type it does
    not know), whatever the period, and stores it under the key, so that
    the next call returns the same baseline and changes nothing. Every
    default has a non-zero deviation: the z-score against it is
    [(ratio - mean) / std]. *)
Theorem entropy_baseline_miss (entity_type period : string)
    (_baseline_cache : gmap string (gmap string float)) :
  _baseline_cache !! cache_key entity_type period = None →
  ∃ mean std sample_size,
    let baseline := baseline_dict mean std sample_size in
    let cache' := <[cache_key entity_type period := baseline]> _baseline_cache in
    entropy_baseline entity_type period _baseline_cache = (baseline, cache')
    ∧ baseline = default (defaults !!! "default") (defaults !! entity_type)
    ∧ entropy_baseline entity_type period cache' = (baseline, cache')
    ∧ (∀ ratio, compute_z_score ratio baseline
                = Ok ((ratio - mean) / std)%float).
Proof.
  intros Hmiss.
  destruct (defaults_lookup entity_type) as (mean & std & size & Hdefault & Hstd).
  exists mean, std, size. cbv zeta.
  unfold entropy_baseline. rewrite Hmiss, lookup_insert_eq, Hdefault.
  split; [done |]. split; [done |]. split; [done |].
  intros ratio. unfold compute_z_score, py_getitem.
  destruct (baseline_dict_lookup mean std size) as [-> ->].
  rewrite !bind_Ok, Hstd, ?bind_Ok. unfold py_truediv. by rewrite Hstd.
Qed.

(** The first read for a municipality, from an empty cache. *)
Lemma entropy_baseline_miss_witness :
  ∃ mean std sample_size,
    let baseline := baseline_dict mean std sample_size in
    let cache' := <[cache_key "municipality" "2024" := baseline]> ∅ in
    entropy_baseline "municipality" "2024" ∅ = (baseline, cache')
    ∧ baseline = default (defaults !!! "default") (defaults !! "municipality")
    ∧ entropy_baseline "municipality" "2024" cache' = (baseline, cache')
    ∧ (∀ ratio, compute_z_score ratio baseline
                = Ok ((ratio - mean) / std)%float).
Proof. apply (entropy_baseline_miss "municipality" "2024" ∅). reflexivity. Defined.

Lemma above_3_above_1_5 (x : float) :
  (3 <? x)%float = true → (1.5 <? x)%float = true.
Proof.
  rewrite !ltb_spec.
  change (Prim2SF 3) with (S754_finite false 6755399441055744 (-51)).
  change (Prim2SF 1.5) with (S754_finite false 6755399441055744 (-52)).
  destruct (Prim2SF x) as [s | s | | s m e]; try done.
  unfold SFltb, SFcompare. destruct s; [done |].
  destruct (Z.compare_spec (-51) e), (Z.compare_spec (-52) e); try done; lia.
Qed.

Lemma above_2_above_1_5 (x : float) :
  (2 <? x)%float = true → (1.5 <? x)%float = true.
Proof.
  rewrite !ltb_spec.
  change (Prim2SF 2) with (S754_finite false 4503599627370496 (-51)).
  change (Prim2SF 1.5) with (S754_finite false 6755399441055744 (-52)).
  destruct (Prim2SF x) as [s | s | | s m e]; try done.
  unfold SFltb, SFcompare. destruct s; [done |].
  destruct (Z.compare_spec (-51) e), (Z.compare_spec (-52) e); try done; lia.
Qed.

(** X19. On a baseline that has a mean and a deviation the check returns, and
    copies both into its result. It flags an anomaly exactly when
    [abs(z_score) > 1.5], which is exactly when the severity is not
    ["normal"]; against a deviation of zero nothing is an anomaly, a
    current value that is infinite or not a number included. *)
Theorem entropy_anomaly_check_flags (current : float)
    (baseline : gmap string float) (mean std : float) :
  baseline !! "mean" = Some mean → baseline !! "std" = Some std →
  ∃ a,
    entropy_anomaly_check current baseline = Ok a
    ∧ compute_z_score current baseline = Ok (z_score a)
    ∧ baseline_mean a = mean ∧ baseline_std a = std
    ∧ (is_anomaly a = true ↔ (1.5 <? abs (z_score a))%float = true)
    ∧ (is_anomaly a = false ↔ severity a = "normal")
    ∧ ((std =? 0)%float = true →
       z_score a = 0%float ∧ is_anomaly a = false).
Proof.
  intros Hmean Hstd. unfold entropy_anomaly_check.
  assert (∃ z, compute_z_score current baseline = Ok z
               ∧ ((std =? 0)%float = true → z = 0%float)) as (z & Hz & Hzero).
  { unfold compute_z_score, py_getitem. rewrite Hstd, Hmean, !bind_Ok.
    destruct (std =? 0)%float eqn:Hnz; [by eexists |].
    rewrite ?bind_Ok. unfold py_truediv. rewrite Hnz. by eexists. }
  rewrite Hz, bind_Ok. unfold py_getitem. rewrite Hmean, Hstd.
  destruct (3 <? abs z)%float eqn:H3;
    [| destruct (2 <? abs z)%float eqn:H2;
       [| destruct (1.5 <? abs z)%float eqn:H1]];
    rewrite !bind_Ok; eexists; (split; [reflexivity |]); cbn;
    (split; [done |]); (split; [done |]); (split; [done |]).
  - rewrite (above_3_above_1_5 _ H3).
    split; [tauto |]. split; [split; intros H; discriminate H |].
    intros Hs. rewrite (Hzero Hs) in H3. vm_compute in H3. done.
  - rewrite (above_2_above_1_5 _ H2).
    split; [tauto |]. split; [split; intros H; discriminate H |].
    intros Hs. rewrite (Hzero Hs) in H2. vm_compute in H2. done.
  - rewrite H1.
    split; [tauto |]. split; [split; intros H; discriminate H |].
    intros Hs. rewrite (Hzero Hs) in H1. vm_compute in H1. done.
  - rewrite H1.
    split; [tauto |]. split; [tauto |]. intros Hs. by rewrite (Hzero Hs).
Qed.

(** Against the flat baseline, whose deviation is zero, a ratio of
    [0.75] is no anomaly. *)
Lemma entropy_anomaly_check_flags_witness :
  ∃ a,
    entropy_anomaly_check 0.75 flat_baseline = Ok a
    ∧ compute_z_score 0.75 flat_baseline = Ok (z_score a)
    ∧ baseline_mean a = 0.5%float ∧ baseline_std a = 0%float
    ∧ (is_anomaly a = true ↔ (1.5 <? abs (z_score a))%float = true)
    ∧ (is_anomaly a = false ↔ severity a = "normal")
    ∧ ((0 =? 0)%float = true →
       z_score a = 0%float ∧ is_anomaly a = false).
Proof.
  apply (entropy_anomaly_check_flags 0.75 flat_baseline 0.5 0); reflexivity.
Defined.

(** ** Leading digits *)

Example extract_first_digit_sample :
  extract_first_digit 400 [1234.5; 0.00042; -77; 0; 9.99]%float
  = Return [1; 4; 7; 9].
Proof. vm_compute. reflexivity. Qed.

Example extract_second_digit_sample :
  extract_second_digit 400 [1234.5; 0.00042; -77; 0; 9.99]%float
  = Return [2; 2; 7; 9].
Proof. vm_compute. reflexivity. Qed.

Lemma while_never_exits {S : Type} (cond : S → bool) (body : S → res S)
    (s : S) (fuel : nat) :
  cond s = true → body s = Ok s → while fuel cond body s = Raise OutOfFuel.
Proof.
  intros Hcond Hbody. induction fuel as [| fuel IH].
  - cbn. by rewrite Hcond.
  - rewrite while_unfold by done. by rewrite Hbody, bind_Ok.
Qed.

(** X20. Three values on which no digit is found. A zero, of either sign, is
    skipped. A NaN passes both loops and makes [int] raise [ValueError].
    An infinity, of either sign, stays infinite when it is divided by
    ten: the first loop never ends, whatever the number of iterations it
    is given. All of it holds for the first digit and for the second. *)
Theorem extract_digits_edge_values (fuel : nat) (values : list float) :
  extract_first_digit fuel (0%float :: values) = extract_first_digit fuel values
  ∧ extract_first_digit fuel ((-0)%float :: values)
    = extract_first_digit fuel values
  ∧ extract_first_digit fuel (nan :: values)
    = Throw (ValueError "cannot convert float NaN to integer")
  ∧ extract_first_digit fuel (infinity :: values) = Throw (Core OutOfFuel)
  ∧ extract_first_digit fuel (neg_infinity :: values) = Throw (Core OutOfFuel)
  ∧ extract_second_digit fuel (0%float :: values)
    = extract_second_digit fuel values
  ∧ extract_second_digit fuel ((-0)%float :: values)
    = extract_second_digit fuel values
  ∧ extract_second_digit fuel (nan :: values)
    = Throw (ValueError "cannot convert float NaN to integer")
  ∧ extract_second_digit fuel (infinity :: values) = Throw (Core OutOfFuel)
  ∧ extract_second_digit fuel (neg_infinity :: values) = Throw (Core OutOfFuel).
Proof.
  assert (∀ bound, (bound <=? infinity)%float = true →
            while fuel (λ v, (bound <=? v)%float) (λ v, Ok (v / 10)%float)
              infinity = Raise OutOfFuel) as Hloop
    by (intros bound Hbound; by apply while_never_exits).
  repeat split; try reflexivity.
  - cbn [extract_first_digit].
    replace (nan =? 0)%float with false by reflexivity.
    unfold first_digit. by rewrite !while_exit by reflexivity.
  - cbn [extract_first_digit].
    replace (infinity =? 0)%float with false by reflexivity.
    unfold first_digit. change (abs infinity) with infinity.
    by rewrite Hloop by reflexivity.
  - cbn [extract_first_digit].
    replace (neg_infinity =? 0)%float with false by reflexivity.
    unfold first_digit. change (abs neg_infinity) with infinity.
    by rewrite Hloop by reflexivity.
  - cbn [extract_second_digit].
    replace (nan =? 0)%float with false by reflexivity.
    unfold second_digit. by rewrite !while_exit by reflexivity.
  - cbn [extract_second_digit].
    replace (infinity =? 0)%float with false by reflexivity.
    unfold second_digit. change (abs infinity) with infinity.
    by rewrite Hloop by reflexivity.
  - cbn [extract_second_digit].
    replace (neg_infinity =? 0)%float with false by reflexivity.
    unfold second_digit. change (abs neg_infinity) with infinity.
    by rewrite Hloop by reflexivity.
Qed.

(** ** Observed digit frequencies *)

Lemma count_digit_spec (counts : list (Z * Z)) (digits : list Z) :
  foldl count_digit counts digits
  = (λ dc, (dc.1, dc.2 + occurrences dc.1 digits)) <$> counts.
Proof.
  revert counts. induction digits as [| digit digits IH]; intros counts.
  - cbn [foldl]. rewrite <- (list_fmap_id counts) at 1.
    apply list_fmap_ext. intros _ [d c] _. cbn. f_equal. unfold occurrences.
    cbn. lia.
  - cbn [foldl]. rewrite IH. unfold count_digit.
    rewrite <- list_fmap_compose. apply list_fmap_ext. intros _ [d c] _.
    cbn. unfold occurrences. rewrite filter_cons.
    destruct (Z.eqb_spec d digit) as [-> | Hne]; cbn [fst snd].
    + rewrite decide_True by done. cbn [length]. f_equal. lia.
    + rewrite decide_False by done. done.
Qed.

Lemma Qsum_quotients (counts : list Z) (total : Q) :
  (Qsum ((λ count, inject_Z count / total) <$> counts)
   == inject_Z (foldr Z.add 0%Z counts) / total)%Q.
Proof.
  induction counts as [| c counts IH]; cbn [fmap list_fmap Qsum foldr].
  - unfold Qdiv. by rewrite Qmult_0_l.
  - fold (Qsum ((λ count, inject_Z count / total) <$> counts))%Q.
    rewrite IH, inject_Z_plus. unfold Qdiv. ring.
Qed.

Lemma occurrences_sum (keys digits : list Z) :
  NoDup keys →
  foldr Z.add 0 ((λ d, occurrences d digits) <$> keys)
  = Z.of_nat (length (filter (λ digit, digit ∈ keys) digits)).
Proof.
  intros Hkeys. induction digits as [| digit digits IH].
  - cbn. induction keys as [| d keys IHk]; [done |].
    cbn. apply NoDup_cons in Hkeys as [_ Hkeys]. by rewrite IHk.
  - rewrite filter_cons.
    assert (foldr Z.add 0 ((λ d, occurrences d (digit :: digits)) <$> keys)
            = (if decide (digit ∈ keys) then 1 else 0)
              + foldr Z.add 0 ((λ d, occurrences d digits) <$> keys)) as ->.
    { clear IH. induction keys as [| d keys IHk]; [done |].
      apply NoDup_cons in Hkeys as [Hd Hkeys].
      cbn [fmap list_fmap foldr]. rewrite IHk by done.
      unfold occurrences at 1. rewrite filter_cons.
      destruct (decide (digit = d)) as [-> | Hne].
      - rewrite (decide_True (P := d ∈ d :: keys)) by left.
        rewrite (decide_False (P := d ∈ keys)) by done.
        unfold occurrences. cbn [length]. lia.
      - unfold occurrences. destruct (decide (digit ∈ keys)) as [Hin | Hout].
        + rewrite (decide_True (P := digit ∈ d :: keys)) by (by right). lia.
        + rewrite (decide_False (P := digit ∈ d :: keys)); [lia |].
          intros [? | ?]%elem_of_cons; done. }
    rewrite IH. destruct (decide (digit ∈ keys)); cbn [length]; lia.
Qed.

Lemma digit_range_NoDup (digit_position : Z) : NoDup (digit_range digit_position).
Proof.
  unfold digit_range. destruct (digit_position =? 1); compute_done.
Qed.

(** X21. The dict of observed frequencies has the digits of the position as
    its keys, in order, and holds for each the share of that digit among
    all the digits given: a digit that is no key is counted in the total
    and nowhere else. The frequencies sum to the share of the digits that
    are keys, hence to [1] when all of them are and to less when one is
    not; of an empty list they are all [0]. *)
Theorem observed_frequencies_sum (digits : list Z) (digit_position : Z) :
  let observed := compute_observed_frequencies digits digit_position in
  let total := inject_Z (Z.of_nat (length digits)) in
  observed
  = (λ d, (d, (inject_Z (occurrences d digits) / total)%Q))
      <$> digit_range digit_position
  ∧ (Qsum observed.*2
     == inject_Z (in_range digit_position digits) / total)%Q
  ∧ (digits ≠ [] → Forall (λ digit, digit ∈ digit_range digit_position) digits →
     (Qsum observed.*2 == 1)%Q)
  ∧ (digits = [] → Forall (λ f, f = 0%Q) observed.*2).
Proof.
  cbv zeta.
  assert (compute_observed_frequencies digits digit_position
          = (λ d, (d, (inject_Z (occurrences d digits)
                       / inject_Z (Z.of_nat (length digits)))%Q))
              <$> digit_range digit_position) as Hobserved.
  { unfold compute_observed_frequencies, digit_range.
    destruct digits as [| digit digits].
    - destruct (digit_position =? 1); reflexivity.
    - rewrite count_digit_spec, <- !list_fmap_compose.
      apply list_fmap_ext. intros _ d _. cbn. done. }
  assert (Qsum (compute_observed_frequencies digits digit_position).*2
          == inject_Z (in_range digit_position digits)
             / inject_Z (Z.of_nat (length digits)))%Q as Hsum.
  { rewrite Hobserved, <- list_fmap_compose.
    pose proof (Qsum_quotients ((λ d, occurrences d digits)
                                  <$> digit_range digit_position)
                  (inject_Z (Z.of_nat (length digits)))) as H.
    rewrite <- list_fmap_compose in H.
    rewrite occurrences_sum in H by apply digit_range_NoDup.
    exact H. }
  split; [done |]. split; [done |]. split.
  - intros Hne Hall. rewrite Hsum. unfold in_range.
    replace (filter _ digits) with digits.
    + apply Qmult_inv_r. change 0%Q with (inject_Z 0).
      rewrite inject_Z_injective. destruct digits; [done | cbn [length]; lia].
    + clear -Hall. induction Hall as [| digit digits Hin _ IH]; [done |].
      rewrite filter_cons, decide_True by done. by f_equal.
  - intros ->. rewrite Hobserved. unfold digit_range.
    destruct (digit_position =? 1); repeat constructor.
Qed.

(** Five first digits, of which the [0] is no key: the frequencies sum
    to four fifths. *)
Example observed_frequencies_out_of_range :
  (Qsum (compute_observed_frequencies [1; 1; 2; 0; 9]%Z 1%Z).*2 == 4 # 5)%Q.
Proof. reflexivity. Qed.

(** ** The second-digit sum *)

Section SecondDigitExact.

Local Open Scope R_scope.

Lemma log10_ratio_IZR (n : Z) :
  (1 <= n)%Z → log10 (1 + 1 / IZR n) = log10 (IZR (n + 1)) - log10 (IZR n).
Proof.
  intros Hn. rewrite plus_IZR. apply log10_ratio.
  apply (IZR_lt 0). lia.
Qed.

Lemma log10_100 : log10 100 = 2.
Proof.
  replace 100 with (10 * 10) by lra.
  rewrite log10_mult by lra. rewrite log10_10. lra.
Qed.

Lemma second_digit_law_sum : Rsum second_digit_law = 1.
Proof.
  unfold second_digit_law, Rsum. cbn [fmap list_fmap foldr].
  rewrite !log10_ratio_IZR by lia.
  repeat match goal with
         | |- context [IZR ?z] =>
             lazymatch z with
             | Zpos _ => fail
             | Z0 => fail
             | _ => let c := eval compute in z in change z with c
             end
         end.
  rewrite log10_100, log10_10. lra.
Qed.

Lemma log10_ratio_small (d : R) : 10 <= d → 0 <= log10 (1 + 1 / d) <= 1 / 10.
Proof.
  intros Hd. split; [apply log10_ratio_bounds; lra |].
  assert (0 < / d <= / 10) as Hinv.
  { split; [apply Rinv_0_lt_compat; lra |].
    apply Rinv_le_contravar; lra. }
  unfold log10. pose proof ln_10_ge_1 as H10.
  pose proof (ln_1p_upper (1 / d) ltac:(lra)) as Hln.
  assert (0 <= ln (1 + 1 / d)) as Hpos.
  { rewrite <- ln_1. apply ln_le_mono; lra. }
  assert (0 < / ln 10 <= 1) as Hinv10.
  { split; [apply Rinv_0_lt_compat; lra |].
    rewrite <- Rinv_1. apply Rinv_le_contravar; lra. }
  unfold Rdiv in *. nra.
Qed.

End SecondDigitExact.

Section SecondDigitSum.

Local Open Scope R_scope.

Variables fdiv fadd : R → R → R.
Variable flog10 : R → R.
Variable u : R.

Hypothesis u_small : 0 <= u <= 1 / 100000.
Hypothesis fdiv_rounds :
  ∀ x y, y ≠ 0 → Rabs (fdiv x y - x / y) <= u * Rabs (x / y).
Hypothesis fadd_rounds :
  ∀ x y, Rabs (fadd x y - (x + y)) <= u * Rabs (x + y).
Hypothesis flog10_rounds :
  ∀ x, 0 < x → Rabs (flog10 x - log10 x) <= u * Rabs (log10 x).

(** One entry of the table: the float sum of nine rounded terms, each
    term within [10 * u] of a frequency that is at most a tenth. *)
Lemma second_digit_entry (d : Z) :
  (0 <= d)%Z →
  let terms := (λ k, flog10 (fadd 1 (fdiv 1 (IZR (10 * k + d)))))
                 <$> [1; 2; 3; 4; 5; 6; 7; 8; 9]%Z in
  let exact := (λ k, log10 (1 + 1 / IZR (10 * k + d)))
                 <$> [1; 2; 3; 4; 5; 6; 7; 8; 9]%Z in
  Rabs (fsum fadd terms - Rsum exact) <= 108 * u ∧ 0 <= Rsum exact.
Proof.
  intros Hd terms exact.
  assert (Forall2 (λ l p, Rabs (l - p) <= 10 * u ∧ 0 <= p <= 1 / 10) terms exact)
    as Hall.
  { subst terms exact. cbn [fmap list_fmap].
    repeat (constructor;
            [split; [apply (entry_error fdiv fadd flog10 u); try done;
                     apply (IZR_le 1); lia
                    | apply log10_ratio_small; apply (IZR_le 10); lia] |]).
    constructor. }
  assert (Forall2 (λ l p, Rabs (l - p) <= 10 * u ∧ 0 <= p) terms exact) as Hall'
    by (eapply Forall2_impl; [exact Hall | intros l p (? & ? & _); done]).
  assert (Rsum exact <= 9 / 10) as Hle.
  { clear Hall'. subst terms exact. cbn [fmap list_fmap] in *.
    repeat match goal with
           | H : Forall2 _ (_ :: _) (_ :: _) |- _ =>
               apply Forall2_cons_1 in H as [(_ & _ & ?) H]
           end.
    unfold Rsum. cbn [foldr]. lra. }
  pose proof (Rsum_nonneg _ _ _ Hall') as Hnn.
  split; [| done].
  pose proof (fsum_error fadd u u_small fadd_rounds _ _ (10 * u) 0 0 0 Hall')
    as H.
  assert (length terms = 9%nat) as Hlen by reflexivity.
  rewrite Hlen, INR_9 in H.
  replace (0 + Rsum exact) with (Rsum exact) in H by lra.
  unfold fsum. eapply Rle_trans; [apply H |]; try lra.
  apply Rabs_le_iff. lra.
Qed.

Lemma second_digit_entries_close (digit_position : Z) :
  digit_position ≠ 1%Z →
  Forall2 (λ l p, Rabs (l - p) <= 108 * u ∧ 0 <= p)
    ((benford_expected fdiv fadd flog10 digit_position).*2) second_digit_law.
Proof.
  intros Hne. unfold benford_expected, second_digit_law.
  replace (digit_position =? 1)%Z with false
    by (symmetry; by apply Z.eqb_neq).
  cbn [fmap list_fmap snd].
  repeat (constructor; [apply second_digit_entry; lia |]).
  constructor.
Qed.

Lemma INR_10 : INR 10 = 10.
Proof. change 10%nat with (Z.to_nat 10). rewrite INR_IZR_INZ. reflexivity. Qed.

(** X22. The second-digit table, which [benford_expected] returns for every
    position other than [1], is a distribution too. In any arithmetic
    whose division, addition and [log10] have a relative error of at most
    [u], for any [u] up to [1e-5]: its keys are the digits 0 to 9; every
    frequency is within [108 * u] of the exact one, the sum over the
    first digits [k] of [log10 (1 + 1/(10k + d))]; the exact frequencies
    sum to [log10 100 - log10 10 = 1]; so the frequencies sum to [1]
    within [1080 * u]. *)
Theorem benford_second_digit_sum (digit_position : Z) :
  digit_position ≠ 1%Z →
  let frequencies := (benford_expected fdiv fadd flog10 digit_position).*2 in
  (benford_expected fdiv fadd flog10 digit_position).*1
  = [0; 1; 2; 3; 4; 5; 6; 7; 8; 9]%Z
  ∧ Forall2 (λ l p, Rabs (l - p) <= 108 * u) frequencies second_digit_law
  ∧ Rsum second_digit_law = 1
  ∧ Rabs (Rsum frequencies - 1) <= 1080 * u.
Proof.
  intros Hne frequencies. subst frequencies.
  pose proof (second_digit_entries_close digit_position Hne) as Hall.
  split.
  { unfold benford_expected.
    replace (digit_position =? 1)%Z with false
      by (symmetry; by apply Z.eqb_neq).
    reflexivity. }
  split; [eapply Forall2_impl; [exact Hall | by intros l p [? _]] |].
  split; [apply second_digit_law_sum |].
  pose proof (Rsum_error _ _ _ Hall) as H.
  rewrite second_digit_law_sum in H.
  replace (length (benford_expected fdiv fadd flog10 digit_position).*2)
    with 10%nat in H.
  - rewrite INR_10 in H. lra.
  - unfold benford_expected.
    replace (digit_position =? 1)%Z with false
      by (symmetry; by apply Z.eqb_neq).
    reflexivity.
Qed.

End SecondDigitSum.

(** In exact arithmetic the second-digit frequencies sum to [1]. *)
Lemma benford_second_digit_sum_witness :
  (Rabs (Rsum ((benford_expected Rdiv Rplus log10 2).*2) - 1) <= 1080 * 0)%R.
Proof.
  apply (benford_second_digit_sum Rdiv Rplus log10 0).
  - lra.
  - intros x y _. apply exact_arithmetic_rounds.
  - intros x y. apply exact_arithmetic_rounds.
  - intros x _. apply exact_arithmetic_rounds.
  - done.
Defined.

